(** * Three console utilities: calculator, contact book, to-do list

    A shallow embedding of [calc.py], [contact_book.py] and [todo_app.py]
    and the properties of their specification.

    Conventions of the embedding.
    - A Python [str] is a list of characters; a character is a code point
      below 256 (the Latin-1 part of Unicode), carried by [ascii].
    - A Python [int] is a [Z].
    - Console and file effects are threaded through a state and exception
      monad [M]: standard input is the list of the lines still to be typed,
      standard output the list of what was printed so far.
    - What is printed is kept as a structured message: one constructor
      per message of the source, whose text is left out (a banner or a
      menu printed by several calls in a row is one message). *)

From Stdlib Require Import List Ascii String ZArith Bool Arith Lia SpecFloat.
Import ListNotations.

Set Implicit Arguments.
Open Scope Z_scope.

(** * Python strings *)

(** The strings of the model are the strings of characters below U+0100.
    What the programs do with other characters (the white space and the
    letters beyond Latin-1, or a lone surrogate, which [utf-8] does not
    encode) is not modelled. *)
Definition str := list ascii.

(** String literals of the source. *)
Definition lit (s : string) : str := list_ascii_of_string s.

Definition code (c : ascii) : Z := Z.of_N (N_of_ascii c).

Definition ch (c : ascii) (d : ascii) : bool := Ascii.eqb c d.

Fixpoint str_eqb (a b : str) : bool :=
  match a, b with
  | [], [] => true
  | c :: a', d :: b' => ch c d && str_eqb a' b'
  | _, _ => false
  end.

Definition LF : ascii := ascii_of_nat 10.
Definition CR : ascii := ascii_of_nat 13.
Definition DQUOTE : ascii := ascii_of_nat 34.
Definition COMMA : ascii := ","%char.

(** [str.isspace] on one character: the white space of Unicode below 256. *)
Definition isspace (c : ascii) : bool :=
  let n := code c in
  ((9 <=? n) && (n <=? 13)) || ((28 <=? n) && (n <=? 32))
  || (n =? 133) || (n =? 160).

Fixpoint lstrip (s : str) : str :=
  match s with
  | c :: s' => if isspace c then lstrip s' else s
  | [] => []
  end.

Definition rstrip (s : str) : str := rev (lstrip (rev s)).

(** [s.strip()] *)
Definition strip (s : str) : str := rstrip (lstrip s).

(** [c.lower()] for one character: A-Z, and the capital letters of
    Latin-1 (U+00C0 to U+00DE without the multiplication sign). *)
Definition lower_char (c : ascii) : ascii :=
  let n := code c in
  if ((65 <=? n) && (n <=? 90))
     || ((192 <=? n) && (n <=? 222) && negb (n =? 215))
  then ascii_of_N (Z.to_N (n + 32)) else c.

(** [s.lower()] *)
Definition lower (s : str) : str := map lower_char s.

Fixpoint startswith (p s : str) : bool :=
  match p, s with
  | [], _ => true
  | c :: p', d :: s' => ch c d && startswith p' s'
  | _ :: _, [] => false
  end.

(** [t in s] for strings: [t] occurs in [s] as a substring. *)
Fixpoint contains (t s : str) : bool :=
  startswith t s ||
  match s with
  | [] => false
  | _ :: s' => contains t s'
  end.

(** [s.replace(old, new)] for a one-character [old]. *)
Definition replace (old : ascii) (new : str) (s : str) : str :=
  flat_map (fun c => if ch c old then new else [c]) s.

Definition isdigit (c : ascii) : bool := (48 <=? code c) && (code c <=? 57).

Definition digit_val (c : ascii) : Z := code c - 48.

(** The digits of an [int] literal: decimal digits, with single underscores
    between digits.  [prev_us] tells that the previous character was an
    underscore, [acc] is the value read so far, [n] the number of digits. *)
Fixpoint int_digits (prev_us : bool) (acc : Z) (n : Z) (s : str)
  : option (Z * Z) :=
  match s with
  | [] => if prev_us then None else Some (acc, n)
  | c :: s' =>
      if ch c "_" then
        if prev_us then None else int_digits true acc n s'
      else if isdigit c then int_digits false (10 * acc + digit_val c) (n + 1) s'
      else None
  end.

(** [sys.get_int_max_str_digits()] *)
Definition int_max_str_digits : Z := 4300.

(** [int(s)]: [None] stands for [ValueError]. *)
Definition python_int (s : str) : option Z :=
  let body (neg : bool) (d : str) :=
    match d with
    | [] => None
    | c :: _ =>
        if ch c "_" then None
        else match int_digits false 0 0 d with
             | Some (v, n) =>
                 if int_max_str_digits <? n then None
                 else Some (if neg then - v else v)
             | None => None
             end
    end in
  match strip s with
  | c :: d =>
      if ch c "-" then body true d
      else if ch c "+" then body false d
      else body false (c :: d)
  | [] => None
  end.

(** The number of decimal digits of a natural number ([fuel] bounds the
    divisions by ten). *)
Fixpoint count_digits (fuel : nat) (n : Z) : Z :=
  match fuel with
  | O => 1
  | S fuel' => if n <? 10 then 1 else 1 + count_digits fuel' (n / 10)
  end.

(** The number of decimal digits of an [int], its sign left out. *)
Definition decimal_digits (n : Z) : Z :=
  count_digits (Z.to_nat (Z.log2 (Z.abs n))) (Z.abs n).

(** [str(n)] does not raise: the conversion of an [int] to text, which an
    f-string and [json.dump] make as well, raises [ValueError] for an int
    of more than [int_max_str_digits] digits. *)
Definition int_prints (n : Z) : bool :=
  decimal_digits n <=? int_max_str_digits.

(** * Python lists *)

(** [len(l)] *)
Definition len {A} (l : list A) : Z := Z.of_nat (List.length l).

(** [l[i] = x] for an index in range. *)
Fixpoint set_nth {A} (l : list A) (i : nat) (x : A) : list A :=
  match l, i with
  | [], _ => []
  | _ :: l', O => x :: l'
  | a :: l', S i' => a :: set_nth l' i' x
  end.

(** [l.pop(i)] for an index in range: the list that is left. *)
Fixpoint remove_nth {A} (l : list A) (i : nat) : list A :=
  match l, i with
  | [], _ => []
  | _ :: l', O => l'
  | a :: l', S i' => a :: remove_nth l' i'
  end.

(** * Console and file effects *)

(** The exceptions the three programs can meet. *)
Inductive exn : Type :=
| EOFError                       (* [input()] at the end of standard input *)
| SystemExit (status : Z)        (* [sys.exit(status)] *)
| ValueError
| ZeroDivisionError (msg : str)
| OverflowError
| KeyError (key : str)
| AttributeError                 (* a method looked up on [None] *)
| CsvError                       (* [csv.Error] *)
| OutOfFuel.                     (* the bound of a modelled loop was reached *)

(** [isinstance(e, Exception)]: what [except Exception] catches.
    [SystemExit] derives from [BaseException] only. *)
Definition is_Exception (e : exn) : bool :=
  match e with
  | SystemExit _ | OutOfFuel => false
  | _ => true
  end.

Inductive res (A : Type) : Type :=
| Ok (a : A)
| Raise (e : exn).
Arguments Raise {A} e.

Section Effects.
(** [O]: what is written to standard output; [F]: the content of the
    program's backing file. *)
Variables O F : Type.

(** [stdin]: the lines that are left on standard input, each one as
    [input] returns it: decoded, and without its line end. *)
Record world : Type := World {
  stdin : list str;
  stdout : list O;
  disk : option F        (* [None]: the backing file does not exist *)
}.

Definition M (A : Type) : Type := world -> res A * world.

Definition ret {A} (a : A) : M A := fun w => (Ok a, w).

Definition bind {A B} (c : M A) (k : A -> M B) : M B :=
  fun w => match c w with
           | (Ok a, w') => k a w'
           | (Raise e, w') => (Raise e, w')
           end.

Definition raise {A} (e : exn) : M A := fun w => (Raise e, w).

(** [try: c  except ...: h]; [h e = None] when no clause matches [e]. *)
Definition try_except {A} (c : M A) (h : exn -> option (M A)) : M A :=
  fun w => match c w with
           | (Ok a, w') => (Ok a, w')
           | (Raise e, w') =>
               match h e with
               | Some k => k w'
               | None => (Raise e, w')
               end
           end.

(** [print(m)] *)
Definition print (m : O) : M unit :=
  fun w => (Ok tt, World (stdin w) (stdout w ++ [m]) (disk w)).

(** [input(prompt)]: writes the prompt, then reads one line; [EOFError]
    at the end of standard input.  Bytes that do not decode, for which
    [input] raises [UnicodeDecodeError], are not lines of [stdin]. *)
Definition input (prompt : O) : M str :=
  fun w => match stdin w with
           | l :: ls => (Ok l, World ls (stdout w ++ [prompt]) (disk w))
           | [] => (Raise EOFError, World [] (stdout w ++ [prompt]) (disk w))
           end.

(** The content of the backing file, [None] when [os.path.exists] fails. *)
Definition read_file : M (option F) := fun w => (Ok (disk w), w).

(** [open(path, 'w')] followed by writing [f]: the file is replaced. *)
Definition write_file (f : F) : M unit :=
  fun w => (Ok tt, World (stdin w) (stdout w) (Some f)).

(** The number of lines left on standard input bounds every loop of the
    programs: each round of each loop starts by reading a line. *)
Definition fuel_of (w : world) : nat := S (List.length (stdin w)).
End Effects.

Arguments World {O F} _ _ _.
Arguments ret {O F A} a _.
Arguments raise {O F A} e _.
Arguments print {O F} m _.
Arguments input {O F} prompt _.
Arguments read_file {O F} _.
Arguments write_file {O F} f _.

Declare Scope py_scope.
Delimit Scope py_scope with py.
Notation "x <- c ;; k" := (bind c (fun x => k))
  (at level 61, c at next level, right associativity) : py_scope.
Notation "c ;;; k" := (bind c (fun _ => k))
  (at level 61, right associativity) : py_scope.

(** * Iterators *)

(** A Python iterator, unrolled: the items it yields, ended by
    [StopIteration] or by an exception. *)
Inductive iter (A : Type) : Type :=
| Stop
| Yield (a : A) (next : iter A)
| Throw (e : exn).
Arguments Stop {A}.
Arguments Throw {A} e.

(** * Text files *)

(** Iteration over a text file opened with [newline='']: a line ends after
    ["\n"], after ["\r\n"], or after a ["\r"] that no ["\n"] follows, and
    keeps its ending.  [cur] is the line read so far, last character first;
    [after_cr] tells that it ends in ["\r"]. *)
Fixpoint lines_from (cur : str) (after_cr : bool) (s : str) : list str :=
  match s with
  | [] => match cur with [] => [] | _ :: _ => [rev cur] end
  | c :: s' =>
      if after_cr && ch c LF then rev (c :: cur) :: lines_from [] false s'
      else
        let done := if after_cr then [rev cur] else [] in
        let cur0 := if after_cr then [] else cur in
        done ++
        (if ch c LF then rev (c :: cur0) :: lines_from [] false s'
         else lines_from (c :: cur0) (ch c CR) s')
  end.

Definition file_lines (text : str) : list str := lines_from [] false text.

(** * The [csv] module *)

Module Csv.

(** The module is modelled as CPython 3.11 and later have it (an earlier
    reader refuses a NUL character).

    The dialect in force when [csv.DictReader] and [csv.DictWriter] are
    given none is [excel]: [delimiter=','], the double quote as [quotechar],
    [doublequote=True], [skipinitialspace=False], [strict=False],
    [lineterminator='\r\n'], [quoting=QUOTE_MINIMAL] and no escape
    character. *)
Definition delimiter : ascii := COMMA.
Definition quotechar : ascii := DQUOTE.
Definition lineterminator : str := [CR; LF].

(** [csv.field_size_limit()] *)
Definition field_size_limit : Z := 131072.

(** ** Writer *)

(** [join_append_data]: the characters of a field as they are copied into
    the record, and whether the field has to be quoted.  A quote
    character is doubled; the delimiter, the quote character and the
    line-end characters ask for quotes. *)
Fixpoint join_append_data (field : str) : str * bool :=
  match field with
  | [] => ([], false)
  | c :: f =>
      let (out, quoted) := join_append_data f in
      if ch c delimiter || ch c quotechar || ch c LF || ch c CR then
        if ch c quotechar then (quotechar :: c :: out, true)
        else (c :: out, true)
      else (c :: out, quoted)
  end.

(** [join_append]: one field, [None] standing for Python's [None]. *)
Definition join_append (field : option str) (quoted : bool) : str :=
  let (out, q) :=
    match field with
    | Some f => join_append_data f
    | None => ([], false)
    end in
  if quoted || q then quotechar :: out ++ [quotechar] else out.

Fixpoint join_fields (first : bool) (row : list (option str)) : str :=
  match row with
  | [] => []
  | f :: r =>
      (if first then [] else [delimiter])
        ++ join_append f false ++ join_fields false r
  end.

(** [writer.writerow(row)]: the text written to the file.  A record made
    of one empty field is written as a pair of quotes. *)
Definition writerow (row : list (option str)) : str :=
  let line := join_fields true row in
  (match row, line with
   | _ :: _, [] => join_append None true
   | _, _ => line
   end) ++ lineterminator.

(** ** Reader *)

Inductive parser_state : Type :=
| START_RECORD
| START_FIELD
| IN_FIELD
| IN_QUOTED_FIELD
| QUOTE_IN_QUOTED_FIELD
| EAT_CRNL.
(* ESCAPED_CHAR, ESCAPE_IN_QUOTED_FIELD and AFTER_ESCAPED_CRNL are entered
   on the escape character only, and this dialect has none. *)

Definition parser_state_eqb (a b : parser_state) : bool :=
  match a, b with
  | START_RECORD, START_RECORD | START_FIELD, START_FIELD
  | IN_FIELD, IN_FIELD | IN_QUOTED_FIELD, IN_QUOTED_FIELD
  | QUOTE_IN_QUOTED_FIELD, QUOTE_IN_QUOTED_FIELD | EAT_CRNL, EAT_CRNL => true
  | _, _ => false
  end.

(** The reader object: the fields of the record parsed so far, the
    characters of the field being read, the state of the parser. *)
Record reader : Type := Reader {
  fields : list str;
  field : str;
  state : parser_state
}.

Definition field_len (r : reader) : Z := Z.of_nat (List.length (field r)).

Definition parse_reset : reader := Reader [] [] START_RECORD.

Definition set_state (r : reader) (s : parser_state) : reader :=
  Reader (fields r) (field r) s.

(** [None]: [csv.Error], field larger than field limit. *)
Definition parse_add_char (r : reader) (c : ascii) : option reader :=
  if field_size_limit <=? field_len r then None
  else Some (Reader (fields r) (field r ++ [c]) (state r)).

Definition parse_save_field (r : reader) : reader :=
  Reader (fields r ++ [field r]) [] (state r).

(** [parse_process_char]; the character [None] is the end of a line
    ([EOL]).  The result [None] is [csv.Error]. *)
Definition parse_process_char (r : reader) (c : option ascii)
  : option reader :=
  let newline :=
    match c with Some d => ch d LF || ch d CR | None => false end in
  let eol := match c with None => true | Some _ => false end in
  let at_char d := match c with Some e => ch e d | None => false end in
  let add (r : reader) (s : parser_state) :=
    match c with
    | Some d => option_map (fun r' => set_state r' s) (parse_add_char r d)
    | None => Some (set_state r s)
    end in
  let start_field (r : reader) :=
    if newline || eol then
      Some (set_state (parse_save_field r)
              (if eol then START_RECORD else EAT_CRNL))
    else if at_char quotechar then Some (set_state r IN_QUOTED_FIELD)
    else if at_char delimiter then Some (parse_save_field r)
    else add r IN_FIELD in
  match state r with
  | START_RECORD =>
      if eol then Some r
      else if newline then Some (set_state r EAT_CRNL)
      else start_field (set_state r START_FIELD)
  | START_FIELD => start_field r
  | IN_FIELD =>
      if newline || eol then
        Some (set_state (parse_save_field r)
                (if eol then START_RECORD else EAT_CRNL))
      else if at_char delimiter then
        Some (set_state (parse_save_field r) START_FIELD)
      else add r IN_FIELD
  | IN_QUOTED_FIELD =>
      if eol then Some r
      else if at_char quotechar then Some (set_state r QUOTE_IN_QUOTED_FIELD)
      else add r IN_QUOTED_FIELD
  | QUOTE_IN_QUOTED_FIELD =>
      if at_char quotechar then add r IN_QUOTED_FIELD
      else if at_char delimiter then
        Some (set_state (parse_save_field r) START_FIELD)
      else if newline || eol then
        Some (set_state (parse_save_field r)
                (if eol then START_RECORD else EAT_CRNL))
      else add r IN_FIELD
  | EAT_CRNL =>
      if newline then Some r
      else if eol then Some (set_state r START_RECORD)
      else None
  end.

(** The characters of one line, in turn. *)
Fixpoint feed_line (r : reader) (line : str) : option reader :=
  match line with
  | [] => Some r
  | c :: l =>
      match parse_process_char r (Some c) with
      | Some r' => feed_line r' l
      | None => None
      end
  end.

(** [Reader_iternext], iterated: each record is read from as many lines
    as it takes to come back to [START_RECORD]; at the end of the input a
    record left open is closed. *)
Fixpoint reader_from (r : reader) (lines : list str) : iter (list str) :=
  match lines with
  | [] =>
      if (0 <? field_len r) || parser_state_eqb (state r) IN_QUOTED_FIELD
      then Yield (fields (parse_save_field r)) Stop
      else Stop
  | l :: ls =>
      match feed_line r l with
      | None => Throw CsvError
      | Some r1 =>
          match parse_process_char r1 None with
          | None => Throw CsvError
          | Some r2 =>
              if parser_state_eqb (state r2) START_RECORD
              then Yield (fields r2) (reader_from parse_reset ls)
              else reader_from r2 ls
          end
      end
  end.

(** [csv.reader(lines)] *)
Definition reader_of (lines : list str) : iter (list str) :=
  reader_from parse_reset lines.

End Csv.

(** * The [re] module *)

Module Re.

(** The part of the pattern language the programs use: character sets,
    sequence, [+], and the end anchor [$].  A leading [^] adds nothing
    under [re.match], which matches at the start of the string only. *)
Inductive regex : Type :=
| Void                               (* matches nothing *)
| Eps                                (* the empty pattern *)
| Set_ (p : ascii -> bool)           (* a character, a set of characters *)
| Cat (r1 r2 : regex)
| Alt (r1 r2 : regex)
| Star (r : regex)
| Dollar.                            (* [$] *)

Definition Plus (r : regex) : regex := Cat r (Star r).

(** [$] matches at the end of the string and just before a newline that
    ends the string. *)
Definition at_end (rest : str) : bool :=
  match rest with
  | [] => true
  | [c] => ch c LF
  | _ => false
  end.

(** [r] matches the empty string where [rest] is what is left to read. *)
Fixpoint nullable (r : regex) (rest : str) : bool :=
  match r with
  | Void | Set_ _ => false
  | Eps | Star _ => true
  | Cat r1 r2 => nullable r1 rest && nullable r2 rest
  | Alt r1 r2 => nullable r1 rest || nullable r2 rest
  | Dollar => at_end rest
  end.

(** What [r] has to match after the character [c], read where [c :: rest]
    was left. *)
Fixpoint deriv (r : regex) (c : ascii) (rest : str) : regex :=
  match r with
  | Void | Eps | Dollar => Void
  | Set_ p => if p c then Eps else Void
  | Cat r1 r2 =>
      let d := Cat (deriv r1 c rest) r2 in
      if nullable r1 (c :: rest) then Alt d (deriv r2 c rest) else d
  | Alt r1 r2 => Alt (deriv r1 c rest) (deriv r2 c rest)
  | Star r1 => Cat (deriv r1 c rest) (Star r1)
  end.

(** [re.match(r, s)] finds a match: some prefix of [s] matches [r]. *)
Fixpoint re_match (r : regex) (s : str) : bool :=
  nullable r s ||
  match s with
  | [] => false
  | c :: s' => re_match (deriv r c s') s'
  end.

Definition one (c : ascii) : regex := Set_ (fun d => ch d c).
Definition none_of (c : ascii) : regex := Set_ (fun d => negb (ch d c)).

End Re.

(** * contact_book.py *)

Module ContactBook.

(** The keys of a contact, [CONTACT_FIELDS]. *)
Inductive key : Type := K_name | K_phone | K_email | K_address.

Definition key_text (k : key) : str :=
  match k with
  | K_name => lit "name"
  | K_phone => lit "phone"
  | K_email => lit "email"
  | K_address => lit "address"
  end.

Definition CONTACT_FIELDS : list key := [K_name; K_phone; K_email; K_address].

(** A contact as the program holds it: a dictionary with the four keys.
    [name] is always a string.  The three other values are strings, or
    Python's [None] (here [None]) for a contact loaded from a row that was
    too short; [extra] holds what [DictReader] stores under the key [None]
    for a row that was too long, [None] when there is no such key. *)
Record contact : Type := Contact {
  name : str;
  phone : option str;
  email : option str;
  address : option str;
  extra : option (list str)
}.

Definition getitem (c : contact) (k : key) : option str :=
  match k with
  | K_name => Some (name c)
  | K_phone => phone c
  | K_email => email c
  | K_address => address c
  end.

Definition setitem (c : contact) (k : key) (v : str) : contact :=
  match k with
  | K_name => Contact v (phone c) (email c) (address c) (extra c)
  | K_phone => Contact (name c) (Some v) (email c) (address c) (extra c)
  | K_email => Contact (name c) (phone c) (Some v) (address c) (extra c)
  | K_address => Contact (name c) (phone c) (email c) (Some v) (extra c)
  end.

Inductive prompt : Type :=
| Enter_name
| Enter_phone
| Enter_email
| Enter_address
| Enter_search_term
| Enter_index_to_update
| Enter_new (field : key) (current_value : option str)
| Confirm_new (field : key)
| Enter_index_to_delete
| Enter_choice.

Inductive message : Type :=
| Ask (p : prompt)
| Error_loading (e : exn)
| Contacts_saved
| Could_not_save (e : exn)
| Input_cannot_be_empty
| Invalid_email_format
| Invalid_phone_format
| Adding_new_contact
| Contact_added (name : str)
| Book_is_empty
| List_header
| List_entry (i : Z) (name : str) (phone : option str)
| List_footer
| Nothing_to_search
| No_contacts_found (term : str)
| Found_header (count : Z)
| Found_name (name : str)
| Found_phone (phone : option str)
| Found_email (shown : str)
| Found_address (shown : str)
| Found_footer
| Invalid_contact_number
| Invalid_input_number
| Updating_contact (name : str)
| Contact_updated (name : str)
| Contact_deleted (name : str)
| Menu
| Exiting
| Invalid_choice.

(** The backing file [CONTACTS_FILE] holds text. *)
Definition IO := M message str.

Local Open Scope py_scope.

(** ** Persistence *)

(** [DictReader.__next__] on a row that is not empty: the values are
    paired with the field names, missing ones are [None], the ones in
    excess go under the key [None]. *)
Definition row_dict (first : str) (others : list str) : contact :=
  Contact first (nth_error others 0) (nth_error others 1)
    (nth_error others 2)
    (match skipn 3 others with [] => None | l => Some l end).

(** [csv.DictReader(file, fieldnames=CONTACT_FIELDS)]: empty rows are
    skipped. *)
Fixpoint DictReader (rows : iter (list str)) : iter contact :=
  match rows with
  | Stop => Stop
  | Throw e => Throw e
  | Yield [] next => DictReader next
  | Yield (first :: others) next =>
      Yield (row_dict first others) (DictReader next)
  end.

(** [for row in reader: contacts_list.append(row)]; the second component
    is the exception that ended the loop, if any. *)
Fixpoint append_rows (contacts_list : list contact) (reader : iter contact)
  : list contact * option exn :=
  match reader with
  | Stop => (contacts_list, None)
  | Throw e => (contacts_list, Some e)
  | Yield row next => append_rows (contacts_list ++ [row]) next
  end.

Definition load_contacts : IO (list contact) :=
  file <- read_file ;;
  match file with
  | None => ret []
  | Some text =>
      let reader := DictReader (Csv.reader_of (file_lines text)) in
      let '(contacts_list, raised) :=
        match reader with
        | Stop => ([], None)
        | Throw e => ([], Some e)
        | Yield first_row next =>
            append_rows
              (if negb (str_eqb (name first_row) (lit "name"))
               then [first_row] else [])
              next
        end in
      match raised with
      | Some e => print (Error_loading e) ;;; ret contacts_list
      | None => ret contacts_list
      end
  end.

(** [DictWriter._dict_to_list]: a key that is not a field name is
    refused ([ValueError]). *)
Definition dict_to_list (c : contact) : option (list (option str)) :=
  match extra c with
  | Some _ => None
  | None => Some [Some (name c); phone c; email c; address c]
  end.

(** [writer.writeheader()] *)
Definition writeheader : str :=
  Csv.writerow (map (fun k => Some (key_text k)) CONTACT_FIELDS).

(** [writer.writerows(contacts_list)]: the text written, and the
    exception that stopped the writing, if any. *)
Fixpoint writerows (rowdicts : list contact) : str * option exn :=
  match rowdicts with
  | [] => ([], None)
  | c :: cs =>
      match dict_to_list c with
      | None => ([], Some ValueError)
      | Some row =>
          let (text, raised) := writerows cs in
          (Csv.writerow row ++ text, raised)
      end
  end.

(** The file is opened with [encoding='utf-8'], which encodes every
    string of the model: the [UnicodeEncodeError] that a lone surrogate
    raises at the writing has no place here. *)
Definition save_contacts (contacts_list : list contact) : IO unit :=
  let (text, raised) := writerows contacts_list in
  write_file (writeheader ++ text) ;;;
  match raised with
  | None => print Contacts_saved
  | Some e => print (Could_not_save e)
  end.

(** ** Input validation *)

(** [[^@]+@[^@]+\.[^@]+] *)
Definition email_pattern : Re.regex :=
  let not_at := Re.Plus (Re.none_of "@") in
  Re.Cat not_at (Re.Cat (Re.one "@")
    (Re.Cat not_at (Re.Cat (Re.one ".") not_at))).

(** [^[0-9()\s-]+$] *)
Definition phone_pattern : Re.regex :=
  Re.Cat
    (Re.Plus (Re.Set_ (fun c =>
       isdigit c || ch c "(" || ch c ")" || isspace c || ch c "-")))
    Re.Dollar.

Fixpoint get_validated_input_loop (fuel : nat) (p : prompt)
    (validation_type : str) : IO str :=
  match fuel with
  | O => raise OutOfFuel
  | S fuel' =>
      line <- input (Ask p) ;;
      let value := strip line in
      match value with
      | [] =>
          print Input_cannot_be_empty ;;;
          get_validated_input_loop fuel' p validation_type
      | _ :: _ =>
          if str_eqb validation_type (lit "email") then
            if negb (Re.re_match email_pattern value) then
              print Invalid_email_format ;;;
              get_validated_input_loop fuel' p validation_type
            else ret value
          else if str_eqb validation_type (lit "phone") then
            if negb (Re.re_match phone_pattern value) then
              print Invalid_phone_format ;;;
              get_validated_input_loop fuel' p validation_type
            else ret value
          else ret value
      end
  end.

Definition get_validated_input (p : prompt) (validation_type : str)
  : IO str :=
  fun w => get_validated_input_loop (fuel_of w) p validation_type w.

(** ** Actions *)

Definition add_contact (contacts_list : list contact)
  : IO (list contact) :=
  print Adding_new_contact ;;;
  name <- get_validated_input Enter_name (lit "text") ;;
  phone <- get_validated_input Enter_phone (lit "phone") ;;
  email <- get_validated_input Enter_email (lit "email") ;;
  line <- input (Ask Enter_address) ;;
  let new_contact :=
    Contact name (Some phone) (Some email) (Some (strip line)) None in
  let contacts_list := contacts_list ++ [new_contact] in
  save_contacts contacts_list ;;;
  print (Contact_added name) ;;;
  ret contacts_list.

Fixpoint print_entries (i : Z) (l : list contact) : IO unit :=
  match l with
  | [] => ret tt
  | c :: l' =>
      print (List_entry i (name c) (phone c)) ;;; print_entries (i + 1) l'
  end.

Definition view_contact_list (contacts_list : list contact) : IO unit :=
  match contacts_list with
  | [] => print Book_is_empty
  | _ :: _ =>
      print List_header ;;;
      print_entries 1 contacts_list ;;;
      print List_footer
  end.

(** The test of the search: [term in c['name'].lower() or
    term in c['phone'].replace(' ', '').replace('-', '')]. *)
Definition search_test (term : str) (c : contact) : res bool :=
  if contains term (lower (name c)) then Ok true
  else match phone c with
       | Some p => Ok (contains term (replace "-" [] (replace " " [] p)))
       | None => Raise AttributeError
       end.

(** [[c for c in contacts_list if ...]] *)
Fixpoint found_contacts (term : str) (contacts_list : list contact)
  : res (list contact) :=
  match contacts_list with
  | [] => Ok []
  | c :: l =>
      match search_test term c with
      | Raise e => Raise e
      | Ok b =>
          match found_contacts term l with
          | Raise e => Raise e
          | Ok found => Ok (if b then c :: found else found)
          end
      end
  end.

(** [v if v else 'N/A'] *)
Definition or_na (v : option str) : str :=
  match v with
  | Some (c :: s) => c :: s
  | _ => lit "N/A"
  end.

Fixpoint print_found (found : list contact) : IO unit :=
  match found with
  | [] => ret tt
  | c :: l =>
      print (Found_name (name c)) ;;;
      print (Found_phone (phone c)) ;;;
      print (Found_email (or_na (email c))) ;;;
      print (Found_address (or_na (address c))) ;;;
      print_found l
  end.

Definition search_contact (contacts_list : list contact) : IO unit :=
  match contacts_list with
  | [] => print Nothing_to_search
  | _ :: _ =>
      line <- input (Ask Enter_search_term) ;;
      let term := lower (strip line) in
      match found_contacts term contacts_list with
      | Raise e => raise e
      | Ok [] => print (No_contacts_found term)
      | Ok found =>
          print (Found_header (len found)) ;;;
          print_found found ;;;
          print Found_footer
      end
  end.

(** One round of [for field in CONTACT_FIELDS] in [update_contact]. *)
Definition update_field (contact_to_update : contact) (field : key)
  : IO contact :=
  line <- input (Ask (Enter_new field (getitem contact_to_update field))) ;;
  let new_value := strip line in
  match new_value with
  | [] => ret contact_to_update
  | _ :: _ =>
      let validation_type :=
        match field with
        | K_phone => lit "phone"
        | K_email => lit "email"
        | _ => lit "text"
        end in
      try_except
        (validated_new_value <-
           get_validated_input (Confirm_new field) validation_type ;;
         ret (setitem contact_to_update field validated_new_value))
        (fun e =>
           if is_Exception e
           then Some (ret (setitem contact_to_update field new_value))
           else None)
  end.

Fixpoint update_fields (contact_to_update : contact) (fields : list key)
  : IO contact :=
  match fields with
  | [] => ret contact_to_update
  | field :: rest =>
      c <- update_field contact_to_update field ;;
      update_fields c rest
  end.



Definition update_contact (contacts_list : list contact)
  : IO (list contact) :=
  view_contact_list contacts_list ;;;
  match contacts_list with
  | [] => ret contacts_list
  | _ :: _ =>
      chosen <-
        try_except
          (line <- input (Ask Enter_index_to_update) ;;
           let index_str := strip line in
           match python_int index_str with
           | None => raise ValueError
           | Some n =>
               let contact_index := n - 1 in
               if negb ((0 <=? contact_index)
                        && (contact_index <? len contacts_list))
               then print Invalid_contact_number ;;; ret None
               else ret (Some contact_index)
           end)
          (fun e =>
             match e with
             | ValueError => Some (print Invalid_input_number ;;; ret None)
             | _ => None
             end) ;;
      match chosen with
      | None => ret contacts_list
      | Some contact_index =>
          match nth_error contacts_list (Z.to_nat contact_index) with
          | None => ret contacts_list  (* the index is in range *)
          | Some contact_to_update =>
              print (Updating_contact (name contact_to_update)) ;;;
              c <- update_fields contact_to_update CONTACT_FIELDS ;;
              let contacts_list :=
                set_nth contacts_list (Z.to_nat contact_index) c in
              save_contacts contacts_list ;;;
              print (Contact_updated (name c)) ;;;
              ret contacts_list
          end
      end
  end.

Definition delete_contact (contacts_list : list contact)
  : IO (list contact) :=
  view_contact_list contacts_list ;;;
  match contacts_list with
  | [] => ret contacts_list
  | _ :: _ =>
      chosen <-
        try_except
          (line <- input (Ask Enter_index_to_delete) ;;
           let index_str := strip line in
           match python_int index_str with
           | None => raise ValueError
           | Some n =>
               let contact_index := n - 1 in
               if negb ((0 <=? contact_index)
                        && (contact_index <? len contacts_list))
               then print Invalid_contact_number ;;; ret None
               else ret (Some contact_index)
           end)
          (fun e =>
             match e with
             | ValueError => Some (print Invalid_input_number ;;; ret None)
             | _ => None
             end) ;;
      match chosen with
      | None => ret contacts_list
      | Some contact_index =>
          match nth_error contacts_list (Z.to_nat contact_index) with
          | None => ret contacts_list  (* the index is in range *)
          | Some deleted_contact =>
              let contacts_list :=
                remove_nth contacts_list (Z.to_nat contact_index) in
              save_contacts contacts_list ;;;
              print (Contact_deleted (name deleted_contact)) ;;;
              ret contacts_list
          end
      end
  end.

(** ** The menu loop *)

Fixpoint menu_loop (fuel : nat) (contacts : list contact) : IO unit :=
  match fuel with
  | O => raise OutOfFuel
  | S fuel' =>
      print Menu ;;;
      line <- input (Ask Enter_choice) ;;
      let choice := strip line in
      if str_eqb choice (lit "1") then
        view_contact_list contacts ;;; menu_loop fuel' contacts
      else if str_eqb choice (lit "2") then
        contacts <- add_contact contacts ;; menu_loop fuel' contacts
      else if str_eqb choice (lit "3") then
        search_contact contacts ;;; menu_loop fuel' contacts
      else if str_eqb choice (lit "4") then
        contacts <- update_contact contacts ;; menu_loop fuel' contacts
      else if str_eqb choice (lit "5") then
        contacts <- delete_contact contacts ;; menu_loop fuel' contacts
      else if str_eqb choice (lit "6") then
        print Exiting ;;; save_contacts contacts
      else
        print Invalid_choice ;;; menu_loop fuel' contacts
  end.

Definition main_menu : IO unit :=
  contacts <- load_contacts ;;
  fun w => menu_loop (fuel_of w) contacts w.

End ContactBook.

(** * The [datetime] module *)

Module Datetime.

Definition is_leap (year : Z) : bool :=
  (year mod 4 =? 0) && (negb (year mod 100 =? 0) || (year mod 400 =? 0)).

Definition days_in_month (year month : Z) : Z :=
  if month =? 2 then (if is_leap year then 29 else 28)
  else if (month =? 4) || (month =? 6) || (month =? 9) || (month =? 11)
       then 30 else 31.

(** [datetime.date(year, month, day)] does not raise [ValueError]. *)
Definition date_ok (year month day : Z) : bool :=
  (1 <=? year) && (year <=? 9999) && (1 <=? month) && (month <=? 12)
  && (1 <=? day) && (day <=? days_in_month year month).

(** A digit between [lo] and [hi]. *)
Definition digit_in (lo hi : Z) (c : ascii) : bool :=
  isdigit c && (lo <=? digit_val c) && (digit_val c <=? hi).

(** [%Y], the pattern [\d\d\d\d]. *)
Definition directive_Y (s : str) : option (Z * str) :=
  match s with
  | a :: b :: c :: d :: rest =>
      if isdigit a && isdigit b && isdigit c && isdigit d
      then Some (1000 * digit_val a + 100 * digit_val b
                 + 10 * digit_val c + digit_val d, rest)
      else None
  | _ => None
  end.

(** [%m], the pattern [1[0-2]|0[1-9]|[1-9]], alternatives tried in
    order. *)
Definition directive_m (s : str) : option (Z * str) :=
  match s with
  | a :: rest =>
      match rest with
      | b :: rest' =>
          if ch a "1" && digit_in 0 2 b then Some (10 + digit_val b, rest')
          else if ch a "0" && digit_in 1 9 b then Some (digit_val b, rest')
          else if digit_in 1 9 a then Some (digit_val a, rest)
          else None
      | [] => if digit_in 1 9 a then Some (digit_val a, rest) else None
      end
  | [] => None
  end.

(** [%d], the pattern [3[01]|[12]\d|0[1-9]|[1-9]| [1-9]]. *)
Definition directive_d (s : str) : option (Z * str) :=
  match s with
  | a :: rest =>
      match rest with
      | b :: rest' =>
          if ch a "3" && digit_in 0 1 b then Some (30 + digit_val b, rest')
          else if digit_in 1 2 a && isdigit b
               then Some (10 * digit_val a + digit_val b, rest')
          else if ch a "0" && digit_in 1 9 b then Some (digit_val b, rest')
          else if digit_in 1 9 a then Some (digit_val a, rest)
          else if ch a " " && digit_in 1 9 b then Some (digit_val b, rest')
          else None
      | [] => if digit_in 1 9 a then Some (digit_val a, rest) else None
      end
  | [] => None
  end.

Definition literal (c : ascii) (s : str) : option str :=
  match s with
  | d :: rest => if ch d c then Some rest else None
  | [] => None
  end.

(** [datetime.strptime(s, "%Y-%m-%d")]: the date read, [None] for
    [ValueError] (no match, unconverted data left, or no such date). *)
Definition strptime (s : str) : option (Z * Z * Z) :=
  match directive_Y s with
  | None => None
  | Some (year, s1) =>
  match literal "-" s1 with
  | None => None
  | Some s2 =>
  match directive_m s2 with
  | None => None
  | Some (month, s3) =>
  match literal "-" s3 with
  | None => None
  | Some s4 =>
  match directive_d s4 with
  | Some (day, []) =>
      if date_ok year month day then Some (year, month, day) else None
  | _ => None
  end end end end end.

End Datetime.

(** * todo_app.py *)

Module Todo.

(** A task as the program holds it.  The keys [id] and [due_date] are
    read with [dict.get] and may be missing from a task of the backing
    file: [None] stands for a missing key.  The data model: a task carries
    the keys [description] and [done] (the program reads them with
    [task[...]], so that a task of the file without one of them ends the
    listing with [KeyError]; such a task has no value here), and an [id]
    is an [int] that prints, as every [int] that [json.loads] returns
    does.  The one [int] the program makes itself is the id of a new
    task: [add_task] and [save_tasks] check that one. *)
Record task : Type := Task {
  id : option Z;
  description : str;
  done : bool;
  created_on : str;
  due_date : option str
}.

(** What the backing file [TODO_FILE] holds: nothing, a document that
    [json.loads] decodes to the list of tasks that [json.dump] wrote, or
    text that [json.loads] refuses, which the start of a document that
    [json.dump] left unfinished is. *)
Inductive file : Type :=
| Empty_file
| Json (tasks : list task)
| Undecodable.

Inductive prompt : Type :=
| Enter_description
| Enter_due_date
| Enter_id_done
| Enter_id_delete
| Enter_choice.

Inductive message : Type :=
| Ask (p : prompt)
| Error_loading
| Could_not_save (e : exn)
| Description_empty
| Invalid_date_format
| Task_added (id : Z)
| List_empty
| List_header
| List_entry (id : Z) (done : bool) (description : str) (due : option str)
| List_footer
| Task_marked_done (id : Z)
| Task_not_found (task_id : str)
| Task_deleted (id : Z)
| Menu
| Exiting
| Invalid_choice.

Definition IO := M message file.

Local Open Scope py_scope.

Definition load_tasks : IO (list task) :=
  f <- read_file ;;
  match f with
  | None => ret []
  | Some Empty_file => ret []
  | Some (Json tasks) => ret tasks
  | Some Undecodable => print Error_loading ;;; ret []
  end.

(** [json.dump(tasks_list, file, indent=4)] writes the document piece by
    piece and raises [ValueError] at an id that does not print; the file,
    closed by [with], keeps what was written before. *)
Definition dumps (tasks_list : list task) : bool :=
  forallb (fun t => match id t with
                    | Some n => int_prints n
                    | None => true
                    end) tasks_list.

Definition save_tasks (tasks_list : list task) : IO unit :=
  try_except
    (if dumps tasks_list then write_file (Json tasks_list)
     else write_file Undecodable ;;; raise ValueError)
    (fun e =>
       if is_Exception e then Some (print (Could_not_save e)) else None).

(** [max(...)] of a sequence that is not empty. *)
Definition py_max (first : Z) (others : list Z) : Z :=
  fold_left Z.max others first.

Definition get_next_id (tasks_list : list task) : Z :=
  match map (fun t => match id t with Some n => n | None => 0 end)
            tasks_list with
  | [] => 1
  | first :: others => let max_id := py_max first others in max_id + 1
  end.

(** [today] is [datetime.now().strftime(DATE_FORMAT)]. *)
Definition add_task (today : str) (tasks_list : list task)
  : IO (list task) :=
  line <- input (Ask Enter_description) ;;
  let description := strip line in
  match description with
  | [] => print Description_empty ;;; ret tasks_list
  | _ :: _ =>
      line <- input (Ask Enter_due_date) ;;
      let due_date_input := strip line in
      due_date <-
        match due_date_input with
        | [] => ret []
        | _ :: _ =>
            match Datetime.strptime due_date_input with
            | Some _ => ret due_date_input
            | None => print Invalid_date_format ;;; ret []
            end
        end ;;
      let new_id := get_next_id tasks_list in
      let new_task := Task (Some new_id) description false today
                           (Some due_date) in
      let tasks_list := tasks_list ++ [new_task] in
      save_tasks tasks_list ;;;
      (if int_prints new_id then print (Task_added new_id)
       else raise ValueError) ;;;
      ret tasks_list
  end.

(** [task['id']] *)
Definition task_id_of (t : task) : res Z :=
  match id t with
  | Some n => Ok n
  | None => Raise (KeyError (lit "id"))
  end.

Fixpoint print_tasks (l : list task) : IO unit :=
  match l with
  | [] => ret tt
  | t :: l' =>
      let due :=
        match due_date t with
        | Some (c :: d) => Some (c :: d)
        | _ => None
        end in
      match task_id_of t with
      | Raise e => raise e
      | Ok n =>
          print (List_entry n (done t) (description t) due) ;;;
          print_tasks l'
      end
  end.

Definition view_tasks (tasks_list : list task) : IO unit :=
  match tasks_list with
  | [] => print List_empty
  | _ :: _ =>
      print List_header ;;; print_tasks tasks_list ;;; print List_footer
  end.

(** [next((task for task in tasks_list if task['id'] == task_id), None)]:
    the first task with that id, and its place in the list. *)
Fixpoint first_with_id (tasks_list : list task) (task_id : Z) (i : nat)
  : res (option (nat * task)) :=
  match tasks_list with
  | [] => Ok None
  | t :: l =>
      match task_id_of t with
      | Raise e => Raise e
      | Ok n =>
          if n =? task_id then Ok (Some (i, t))
          else first_with_id l task_id (S i)
      end
  end.

Definition find_task_by_id (tasks_list : list task) (task_id : str)
  : res (option (nat * task)) :=
  match python_int task_id with
  | None => Ok None
  | Some n => first_with_id tasks_list n 0
  end.

Definition mark_task_done (tasks_list : list task) : IO (list task) :=
  line <- input (Ask Enter_id_done) ;;
  let task_id := strip line in
  match find_task_by_id tasks_list task_id with
  | Raise e => raise e
  | Ok (Some (i, t)) =>
      let t' := Task (id t) (description t) true (created_on t)
                     (due_date t) in
      let tasks_list := set_nth tasks_list i t' in
      save_tasks tasks_list ;;;
      match task_id_of t' with
      | Raise e => raise e
      | Ok n => print (Task_marked_done n) ;;; ret tasks_list
      end
  | Ok None => print (Task_not_found task_id) ;;; ret tasks_list
  end.

(** [[t for t in tasks_list if t['id'] != k]] *)
Fixpoint without_id (tasks_list : list task) (k : Z) : res (list task) :=
  match tasks_list with
  | [] => Ok []
  | t :: l =>
      match task_id_of t with
      | Raise e => Raise e
      | Ok n =>
          match without_id l k with
          | Raise e => Raise e
          | Ok kept => Ok (if negb (n =? k) then t :: kept else kept)
          end
      end
  end.

Definition delete_task (tasks_list : list task) : IO (list task) :=
  line <- input (Ask Enter_id_delete) ;;
  let task_id := strip line in
  match find_task_by_id tasks_list task_id with
  | Raise e => raise e
  | Ok (Some (_, t)) =>
      match task_id_of t with
      | Raise e => raise e
      | Ok k =>
          match without_id tasks_list k with
          | Raise e => raise e
          | Ok tasks_list =>
              save_tasks tasks_list ;;;
              print (Task_deleted k) ;;;
              ret tasks_list
          end
      end
  | Ok None => print (Task_not_found task_id) ;;; ret tasks_list
  end.

(** ** The menu loop *)

Fixpoint menu_loop (fuel : nat) (today : str) (tasks : list task)
  : IO unit :=
  match fuel with
  | O => raise OutOfFuel
  | S fuel' =>
      print Menu ;;;
      line <- input (Ask Enter_choice) ;;
      let choice := strip line in
      if str_eqb choice (lit "1") then
        view_tasks tasks ;;; menu_loop fuel' today tasks
      else if str_eqb choice (lit "2") then
        tasks <- add_task today tasks ;; menu_loop fuel' today tasks
      else if str_eqb choice (lit "3") then
        view_tasks tasks ;;;
        tasks <- mark_task_done tasks ;; menu_loop fuel' today tasks
      else if str_eqb choice (lit "4") then
        view_tasks tasks ;;;
        tasks <- delete_task tasks ;; menu_loop fuel' today tasks
      else if str_eqb choice (lit "5") then
        print Exiting ;;; save_tasks tasks
      else
        print Invalid_choice ;;; menu_loop fuel' today tasks
  end.

Definition main_menu (today : str) : IO unit :=
  tasks <- load_tasks ;;
  fun w => menu_loop (fuel_of w) today tasks w.

End Todo.

(** * calc.py *)

Module Calc.

(** The numbers of the interpreter.  The calculator computes on Python
    [float]s; their arithmetic is the interpreter's, and enters the model
    as an interface. *)
Class Numbers : Type := {
  float : Type;
  complex : Type;
  (** [float(s)]; [None] stands for [ValueError] *)
  float_of_str : str -> option float;
  (** [x == 0] *)
  eq_zero : float -> bool;
  (** [a + b], [a - b], [a * b], [a / b] *)
  float_add : float -> float -> float;
  float_sub : float -> float -> float;
  float_mul : float -> float -> float;
  float_truediv : float -> float -> float;
  (** [a ** b]: a float, a complex number, or an exception *)
  float_pow : float -> float -> res (float + complex);
  (** what [**] raises derives from [Exception] *)
  float_pow_raises :
    forall a b e, float_pow a b = Raise e -> is_Exception e = true
}.

Section Calculator.
Context {N : Numbers}.

(** What an operation returns. *)
Definition number : Type := (float + complex)%type.

Inductive prompt : Type :=
| First_number
| Operation_symbol
| Second_number.

Inductive message : Type :=
| Ask (p : prompt)
| Banner
| Invalid_first_number
| Not_recognized (operation : str)
| Invalid_second_number
| Result_header
| Result (number_a : float) (operation : str) (number_b : float)
         (result : number)
| Calculation_error (e : str)
| Unexpected_error (e : exn)
| Calculator_closed.

(** The calculator has no backing file. *)
Definition IO := M message unit.

Local Open Scope py_scope.

Definition add_numbers (a b : float) : res number :=
  Ok (inl (float_add a b)).

Definition subtract_numbers (a b : float) : res number :=
  Ok (inl (float_sub a b)).

Definition multiply_numbers (a b : float) : res number :=
  Ok (inl (float_mul a b)).

Definition divide_by_zero_text : str :=
  lit "Cannot divide by zero. Please try a different number.".

Definition divide_numbers (a b : float) : res number :=
  if eq_zero b then Raise (ZeroDivisionError divide_by_zero_text)
  else Ok (inl (float_truediv a b)).

Definition power_numbers (a b : float) : res number := float_pow a b.

Definition OPERATION_MAP : list (str * (float -> float -> res number)) :=
  [ (lit "+", add_numbers);
    (lit "-", subtract_numbers);
    (lit "*", multiply_numbers);
    (lit "/", divide_numbers);
    (lit "**", power_numbers) ].

(** [d[k]] and [k in d] for a dictionary keyed by strings. *)
Fixpoint lookup {V} (k : str) (d : list (str * V)) : option V :=
  match d with
  | [] => None
  | (k', v) :: d' => if str_eqb k k' then Some v else lookup k d'
  end.

(** [s.lower() in ('exit', 'quit')] *)
Definition is_exit (s : str) : bool :=
  str_eqb (lower s) (lit "exit") || str_eqb (lower s) (lit "quit").

(** One of the two [try: ... float(...) except ValueError: ...] blocks:
    [None] is the [continue] of the handler. *)
Definition read_number (p : prompt) (invalid : message)
  : IO (option float) :=
  try_except
    (line <- input (Ask p) ;;
     let text := strip line in
     if is_exit text then raise (SystemExit 0)
     else match float_of_str text with
          | Some x => ret (Some x)
          | None => raise ValueError
          end)
    (fun e =>
       match e with
       | ValueError => Some (print invalid ;;; ret None)
       | _ => None
       end).

(** The body of [while True]; it ends normally where the source reaches
    the end of the body or a [continue]. *)
Definition calculator_round : IO unit :=
  a <- read_number First_number Invalid_first_number ;;
  match a with
  | None => ret tt
  | Some number_a =>
      line <- input (Ask Operation_symbol) ;;
      let operation := strip line in
      if is_exit operation then raise (SystemExit 0)
      else
        match lookup operation OPERATION_MAP with
        | None => print (Not_recognized operation)
        | Some calculation_function =>
            b <- read_number Second_number Invalid_second_number ;;
            match b with
            | None => ret tt
            | Some number_b =>
                try_except
                  (match calculation_function number_a number_b with
                   | Raise e => raise e
                   | Ok result =>
                       print Result_header ;;;
                       print (Result number_a operation number_b result)
                   end)
                  (fun e =>
                     match e with
                     | ZeroDivisionError msg =>
                         Some (print (Calculation_error msg))
                     | _ =>
                         if is_Exception e
                         then Some (print (Unexpected_error e))
                         else None
                     end)
            end
        end
  end.

Fixpoint calculator_loop (fuel : nat) : IO unit :=
  match fuel with
  | O => raise OutOfFuel
  | S fuel' => calculator_round ;;; calculator_loop fuel'
  end.

Definition run_calculator : IO unit :=
  print Banner ;;;
  fun w => calculator_loop (fuel_of w) w.

(** The entry point. *)
Definition main : IO unit :=
  try_except run_calculator
    (fun e =>
       match e with
       | SystemExit _ => Some (print Calculator_closed)
       | _ => None
       end).

End Calculator.

End Calc.

Unset Implicit Arguments.

(** * Vocabulary of the specification *)

Section OutputSpec.
Variables O F : Type.

(** The computation only adds to what was printed. *)
Definition grows {A} (c : M O F A) : Prop :=
  forall w, exists more, stdout (snd (c w)) = stdout w ++ more.

(** The first thing the computation prints is [m]. *)
Definition opens_with {A} (m : O) (c : M O F A) : Prop :=
  forall w, exists more, stdout (snd (c w)) = stdout w ++ m :: more.
End OutputSpec.

Section FuelSpec.
Variables O F : Type.

(** The result is not the end of the fuel, and at most [n] lines are left
    on standard input. *)
Definition within {A} (n : nat) (r : res A * world O F) : Prop :=
  fst r <> Raise OutOfFuel /\ (List.length (stdin (snd r)) <= n)%nat.

(** The computation does not run out of fuel and gives no line back to
    standard input. *)
Definition tame {A} (c : M O F A) : Prop :=
  forall w, within (List.length (stdin w)) (c w).

(** The computation reads a line, unless standard input is at its end. *)
Definition reads {A} (c : M O F A) : Prop :=
  forall w,
    fst (c w) = Raise EOFError
    \/ (List.length (stdin (snd (c w))) < List.length (stdin w))%nat.
End FuelSpec.

Arguments reads {O F A} c.

Arguments within {O F A} n r.
Arguments tame {O F A} c.
Arguments grows {O F A} c.
Arguments opens_with {O F A} m c.

Module TodoSpec.
Import Todo.

(** The task carries the key [id]. *)
Definition has_id (t : task) : bool :=
  match id t with Some _ => true | None => false end.

(** The task's id is [k]. *)
Definition id_is (k : Z) (t : task) : bool :=
  match id t with Some n => n =? k | None => false end.

(** The ids of a collection, in order. *)
Definition ids (tasks : list task) : list Z :=
  flat_map (fun t => match id t with Some n => [n] | None => [] end) tasks.

(** [m] is the maximum of [l]. *)
Definition is_max (m : Z) (l : list Z) : Prop :=
  In m l /\ forall n, In n l -> n <= m.

(** The due date [add_task] keeps for what was typed at the prompt, and
    what it prints about it. *)
Definition kept_due_date (typed : str) : str :=
  match Datetime.strptime (strip typed) with
  | Some _ => strip typed
  | None => []
  end.

Definition due_date_messages (typed : str) : list message :=
  match strip typed, Datetime.strptime (strip typed) with
  | _ :: _, None => [Invalid_date_format]
  | _, _ => []
  end.

(** The task [add_task] builds. *)
Definition new_task (today : str) (tasks : list task) (typed_description
    typed_due : str) : task :=
  Task (Some (get_next_id tasks)) (strip typed_description) false today
       (Some (kept_due_date typed_due)).

(** What [save_tasks] leaves in the backing file, and what it prints. *)
Definition saved (tasks : list task) : file :=
  if dumps tasks then Json tasks else Undecodable.

Definition save_report (tasks : list task) : list message :=
  if dumps tasks then [] else [Could_not_save ValueError].

(** A collection with the ids 1, 2, 3, 4. *)
Definition four_tasks : list task :=
  map (fun n => Task (Some n) (lit "task") false (lit "2024-01-01") (Some []))
      [1; 2; 3; 4].

(** Ids 1, 2, 2, 3, 2: the id 2 is borne by three tasks. *)
Definition tasks_sharing_an_id : list task :=
  map (fun p => Task (Some (fst p)) (snd p) false (lit "2024-01-01") (Some []))
      [(1, lit "a"); (2, lit "b"); (2, lit "c"); (3, lit "d"); (2, lit "e")].

End TodoSpec.

Module CsvSpec.
Import Csv.

(** A character that makes the writer quote the field. *)
Definition special (c : ascii) : bool :=
  ch c delimiter || ch c quotechar || ch c LF || ch c CR.

(** The field is within [field_size_limit]. *)
Definition fits (f : str) : Prop := len f <= field_size_limit.

(** An iterator that yields the items of a list. *)
Fixpoint yield_all {A} (l : list A) : iter A :=
  match l with
  | [] => Stop
  | a :: l' => Yield a (yield_all l')
  end.

(** What the parser is given for a list of lines: the characters of each
    line, then the end of the line ([None]). *)
Definition symbols (lines : list str) : list (option ascii) :=
  flat_map (fun l => map Some l ++ [None]) lines.

(** The same for the lines of a text, read off the text.  [pending]
    tells that the current line has characters already, [after_cr] that
    the last of them is a carriage return. *)
Fixpoint text_symbols (pending after_cr : bool) (s : str)
  : list (option ascii) :=
  match s with
  | [] => if pending then [None] else []
  | c :: s' =>
      if after_cr && ch c LF then Some c :: None :: text_symbols false false s'
      else
        (if after_cr then [None] else []) ++
        Some c ::
        (if ch c LF then None :: text_symbols false false s'
         else text_symbols true (ch c CR) s')
  end.

(** What the reader does when the input ends. *)
Definition at_end_of_input (r : reader) : iter (list str) :=
  if (0 <? field_len r) || parser_state_eqb (state r) IN_QUOTED_FIELD
  then Yield (fields (parse_save_field r)) Stop
  else Stop.

(** The reader on the symbols of its lines. *)
Fixpoint reader_on (r : reader) (syms : list (option ascii))
  : iter (list str) :=
  match syms with
  | [] => at_end_of_input r
  | x :: rest =>
      match parse_process_char r x with
      | None => Throw CsvError
      | Some r' =>
          match x with
          | Some _ => reader_on r' rest
          | None =>
              if parser_state_eqb (state r') START_RECORD
              then Yield (fields r') (reader_on parse_reset rest)
              else reader_on r' rest
          end
      end
  end.

(** Every item the iterator yields satisfies [P]. *)
Fixpoint iter_all {A} (P : A -> Prop) (i : iter A) : Prop :=
  match i with
  | Yield a next => P a /\ iter_all P next
  | _ => True
  end.

(** The fields the reader has stored, and the one it is reading, are
    within the field size limit. *)
Definition bounded (r : reader) : Prop :=
  Forall fits (fields r) /\ fits (field r).

(** The text of a field between quotes: quotes are doubled. *)
Definition doubled (f : str) : str :=
  flat_map (fun c => if ch c quotechar then [quotechar; c] else [c]) f.

(** The list is not empty. *)
Definition nonempty {A} (l : list A) : bool :=
  match l with [] => false | _ :: _ => true end.

(** The reader [r] holds a whole field [g]: a delimiter or the end of the
    line stores it. *)
Definition holds (r : reader) (g : str) : Prop :=
  parse_process_char r (Some delimiter)
  = Some (Reader (fields r ++ [g]) [] START_FIELD)
  /\ parse_process_char r (Some CR)
     = Some (Reader (fields r ++ [g]) [] EAT_CRNL).

End CsvSpec.

Module ContactSpec.
Import ContactBook.

(** What [view_contact_list] prints. *)
Fixpoint entries (i : Z) (l : list contact) : list message :=
  match l with
  | [] => []
  | c :: l' => List_entry i (name c) (phone c) :: entries (i + 1) l'
  end.

Definition listing (contacts : list contact) : list message :=
  match contacts with
  | [] => [Book_is_empty]
  | _ :: _ => [List_header] ++ entries 1 contacts ++ [List_footer]
  end.

(** What [search_contact] prints about the contacts it found. *)
Definition details (found : list contact) : list message :=
  flat_map (fun c => [Found_name (name c); Found_phone (phone c);
                      Found_email (or_na (email c));
                      Found_address (or_na (address c))]) found.

(** What [get_validated_input] prints when it refuses what was typed;
    [None] when it accepts it. *)
Definition rejection (validation_type typed : str) : option message :=
  match strip typed with
  | [] => Some Input_cannot_be_empty
  | _ :: _ =>
      if str_eqb validation_type (lit "email") then
        if Re.re_match email_pattern (strip typed) then None
        else Some Invalid_email_format
      else if str_eqb validation_type (lit "phone") then
        if Re.re_match phone_pattern (strip typed) then None
        else Some Invalid_phone_format
      else None
  end.

Definition rejected (validation_type typed : str) : Prop :=
  rejection validation_type typed <> None.

Definition accepted (validation_type typed : str) : Prop :=
  rejection validation_type typed = None.

(** What is printed while the lines [typed] are refused one after the
    other at the prompt [p]. *)
Definition retries (p : prompt) (validation_type : str) (typed : list str)
  : list message :=
  flat_map (fun t => Ask p :: match rejection validation_type t with
                              | Some m => [m]
                              | None => []
                              end) typed.

(** The text [save_contacts] leaves in the backing file, and what it
    prints. *)
Definition saved_text (contacts : list contact) : str :=
  writeheader ++ fst (writerows contacts).

Definition save_message (contacts : list contact) : message :=
  match snd (writerows contacts) with
  | None => Contacts_saved
  | Some e => Could_not_save e
  end.

(** The four strings of a contact that has the four string fields and no
    other key. *)
Definition record_fields (c : contact) : option (list str) :=
  match phone c, email c, address c, extra c with
  | Some p, Some e, Some a, None => Some [name c; p; e; a]
  | _, _, _, _ => None
  end.

(** The contact has the four string fields, each within the field size
    limit of the [csv] module. *)
Definition storable (c : contact) : Prop :=
  match record_fields c with
  | Some row => Forall CsvSpec.fits row
  | None => False
  end.

(** The line [save_contacts] writes for a contact. *)
Definition record_line (c : contact) : str :=
  Csv.writerow [Some (name c); phone c; email c; address c].

(** A name of 131073 characters, one more than the field size limit. *)
Definition long_name : str := N.iter 131073 (cons "a"%char) [].

(** A contact as [add_contact] builds it: four strings. *)
Definition entered (name phone email address : str) : contact :=
  Contact name (Some phone) (Some email) (Some address) None.

(** Three contacts. *)
Definition three_contacts : list contact :=
  [ entered (lit "Ada") (lit "(555) 123-4567") (lit "ada@example.org") [];
    entered (lit "Bob") (lit "555 9876") (lit "bob@example.org")
            (lit "12 High Street");
    entered (lit "Cy") (lit "0123") (lit "cy@example.org") [] ].

(** Contacts whose fields hold delimiters, quotes and line ends, and one
    whose name is the name of the first column. *)
Definition awkward_contacts : list contact :=
  [ entered (lit "name") (lit "(555) 123-4567") (lit "n@example.org") [];
    entered (lit "Doe, Jane") (lit "555-0100") (lit "jane@example.org")
            (lit "12 " ++ [DQUOTE] ++ lit "High" ++ [DQUOTE; COMMA; LF]
               ++ lit "Street" ++ [CR]);
    entered (lit "Bob") (lit "1") (lit "b@c.d") [CR; LF; DQUOTE; DQUOTE] ].

(** The first row of the backing file. *)
Definition header_row : list str := map key_text CONTACT_FIELDS.

(** The row of a contact that has the four string fields. *)
Definition row_of (c : contact) : list str :=
  match record_fields c with
  | Some row => row
  | None => []
  end.

(** The name is within the field size limit. *)
Definition name_fits (c : contact) : Prop := CsvSpec.fits (name c).

End ContactSpec.

Module CalcSpec.
Import Calc.

(** An interpretation of [Numbers] for the examples: the numbers are the
    binary64 numbers with their four operations, [float] reads integer
    literals only, and [**] is answered for a zero exponent only (an
    overflow is reported otherwise). *)
Definition sample_pow (a b : spec_float) : res (spec_float + Empty_set) :=
  match b with
  | S754_zero _ => Ok (inl (binary_normalize 53 1024 1 0 false))
  | _ => Raise OverflowError
  end.

Lemma sample_pow_raises a b e :
  sample_pow a b = Raise e -> is_Exception e = true.
Proof. destruct b; cbn; intros [= <-]; reflexivity. Qed.

Definition sample_numbers : Numbers := {|
  float := spec_float;
  complex := Empty_set;
  float_of_str := fun s =>
    match python_int s with
    | Some n =>
        Some (binary_normalize 53 1024 n 0 (startswith (lit "-") (strip s)))
    | None => None
    end;
  eq_zero := fun x => match x with S754_zero _ => true | _ => false end;
  float_add := SFadd 53 1024;
  float_sub := SFsub 53 1024;
  float_mul := SFmul 53 1024;
  float_truediv := SFdiv 53 1024;
  float_pow := sample_pow;
  float_pow_raises := sample_pow_raises
|}.

(** [OPERATION_MAP[operation](number_a, number_b)]: what a round computes
    for the symbol of an operation, and nothing for another symbol. *)
Definition calculate {N : Numbers} (operation : str) (number_a number_b : float)
  : option (res number) :=
  match lookup operation OPERATION_MAP with
  | Some calculation_function => Some (calculation_function number_a number_b)
  | None => None
  end.

(** The binary64 number that [float] reads from the literal of the
    integer [n]: the nearest one, the one with the even mantissa when two
    are as near. *)
Definition of_int (n : Z) : spec_float := binary_normalize 53 1024 n 0 false.

(** The integer that a binary64 number is, when it is one. *)
Definition to_Z (x : spec_float) : option Z :=
  match x with
  | S754_zero _ => Some 0
  | S754_finite s m e =>
      if 0 <=? e then Some (cond_Zopp s (Zpos m) * 2 ^ e)
      else if Zpos m mod 2 ^ (- e) =? 0
           then Some (cond_Zopp s (Zpos m / 2 ^ (- e)))
           else None
  | _ => None
  end.

(** The exponent that binary64 gives to the mantissa [m] written with the
    exponent [e]. *)
Definition target (m : positive) (e : Z) : Z :=
  fexp 53 1024 (Zpos (digits2_pos m) + e).
End CalcSpec.

Module TodoActionSpec.
Import Todo TodoSpec.

(** [task['done'] = True] *)
Definition set_done (t : task) : task :=
  Task (id t) (description t) true (created_on t) (due_date t).

(** The collection in which the first task with the id [k] is done. *)
Fixpoint mark_first (k : Z) (tasks : list task) : list task :=
  match tasks with
  | [] => []
  | t :: l => if id_is k t then set_done t :: l else t :: mark_first k l
  end.

(** The due date is empty, or it is a date of the calendar written as
    year-month-day. *)
Definition due_date_ok (d : str) : Prop :=
  d = [] \/
  exists year month day,
    Datetime.strptime d = Some (year, month, day)
    /\ Datetime.date_ok year month day = true.

(** Every task has an id, and no two tasks have the same. *)
Definition unique_ids (tasks : list task) : Prop :=
  forallb has_id tasks = true /\ NoDup (ids tasks).

(** The task is one that [add_task] builds after [tasks]. *)
Definition well_formed_after (today : str) (tasks : list task) (t : task)
  : Prop :=
  id t = Some (get_next_id tasks)
  /\ description t <> []
  /\ done t = false
  /\ created_on t = today
  /\ exists d, due_date t = Some d /\ due_date_ok d.

(** Some tasks, the second of them without an id. *)
Definition tasks_with_a_missing_id : list task :=
  [ Task (Some 1) (lit "a") false (lit "2024-01-01") (Some []);
    Task None (lit "b") false (lit "2024-01-01") (Some []) ].
End TodoActionSpec.

Module CalcSessionSpec.
Import Calc.

Section WithNumbers.
Context {N : Numbers}.

(** What a round prints about a computation that returned or raised
    [r]. *)
Definition report (number_a : float) (operation : str) (number_b : float)
    (r : res number) : list message :=
  match r with
  | Ok result => [Result_header; Result number_a operation number_b result]
  | Raise (ZeroDivisionError e) => [Calculation_error e]
  | Raise e => [Unexpected_error e]
  end.

(** The two ways in which a round of the calculator does not come to
    its end: an exit word, or the end of standard input. *)
Definition leaves (e : exn) (w : world message unit) : Prop :=
  e = SystemExit 0 \/ (e = EOFError /\ stdin w = []).

(** [rounds w w']: rounds of the calculator that came to their end, one
    after the other, took it from the world [w] to the world [w']. *)
Inductive rounds : world message unit -> world message unit -> Prop :=
| rounds_none w : rounds w w
| rounds_more w w1 w' :
    calculator_round w = (Ok tt, w1) -> rounds w1 w' -> rounds w w'.
End WithNumbers.
End CalcSessionSpec.

Module ContactActionSpec.
Import ContactBook ContactSpec.

(** The contact passes the test of the search. *)
Definition search_matches (term : str) (c : contact) : bool :=
  contains term (lower (name c))
  || match phone c with
     | Some p => contains term (replace "-" [] (replace " " [] p))
     | None => false
     end.

(** The test of the search can be made on the contact: its name holds the
    term, or it has a phone number to look into. *)
Definition searchable (term : str) (c : contact) : bool :=
  contains term (lower (name c))
  || match phone c with Some _ => true | None => false end.

(** What [search_contact] prints after its prompt. *)
Definition search_report (term : str) (found : list contact)
  : list message :=
  match found with
  | [] => [No_contacts_found term]
  | _ :: _ => [Found_header (len found)] ++ details found ++ [Found_footer]
  end.

(** The value the writer puts in the file for a value of a contact. *)
Definition written (v : option str) : str :=
  match v with
  | Some s => s
  | None => []
  end.

(** The contact with the empty string for each value that is missing. *)
Definition filled (c : contact) : contact :=
  entered (name c) (written (phone c)) (written (email c))
          (written (address c)).

(** The contacts [load_contacts] keeps from a file that has a line for
    each of them and no header: the first one is taken for the header
    when its name is the name of the first column. *)
Definition kept_without_header (contacts : list contact) : list contact :=
  match contacts with
  | [] => []
  | c :: l => if str_eqb (name c) (lit "name") then l else c :: l
  end.

(** The validation [update_contact] asks for when a field is changed. *)
Definition validation_of (field : key) : str :=
  match field with
  | K_phone => lit "phone"
  | K_email => lit "email"
  | _ => lit "text"
  end.

(** What is typed for one field in [update_contact]: a blank line, which
    keeps the value, or a first line that is not blank, lines refused at
    the confirmation, and a line accepted there. *)
Inductive answer : Type :=
| Keep (line : str)
| Change (first : str) (refused : list str) (confirmed : str).

Definition answer_lines (a : answer) : list str :=
  match a with
  | Keep line => [line]
  | Change first refused confirmed => first :: refused ++ [confirmed]
  end.

Definition answer_ok (field : key) (a : answer) : Prop :=
  match a with
  | Keep line => strip line = []
  | Change first refused confirmed =>
      strip first <> []
      /\ Forall (rejected (validation_of field)) refused
      /\ accepted (validation_of field) confirmed
  end.

(** The contact after the answer for one field: a change stores the line
    that was confirmed. *)
Definition answered (c : contact) (field : key) (a : answer) : contact :=
  match a with
  | Keep _ => c
  | Change _ _ confirmed => setitem c field (strip confirmed)
  end.

Definition answer_prints (c : contact) (field : key) (a : answer)
  : list message :=
  Ask (Enter_new field (getitem c field))
  :: match a with
     | Keep _ => []
     | Change _ refused _ =>
         retries (Confirm_new field) (validation_of field) refused
         ++ [Ask (Confirm_new field)]
     end.

(** The same for the fields in turn. *)
Fixpoint answered_all (c : contact) (fields : list key)
    (answers : list answer) : contact :=
  match fields, answers with
  | field :: fields', a :: answers' =>
      answered_all (answered c field a) fields' answers'
  | _, _ => c
  end.

Fixpoint all_prints (c : contact) (fields : list key)
    (answers : list answer) : list message :=
  match fields, answers with
  | field :: fields', a :: answers' =>
      answer_prints c field a
      ++ all_prints (answered c field a) fields' answers'
  | _, _ => []
  end.

(** The contact has a phone number. *)
Definition has_phone (c : contact) : bool :=
  match phone c with Some _ => true | None => false end.

(** A contact read from a line that holds a name only. *)
Definition name_only : contact := Contact (lit "Ada") None None None None.

(** A contact read from a line of five fields. *)
Definition five_fields : contact :=
  Contact (lit "Eve") (Some (lit "1")) (Some (lit "e@f.g")) (Some [])
          (Some [lit "more"]).
End ContactActionSpec.

Module ReSpec.
Import Re.

(** [matches r s rest]: the pattern [r] matches the characters [s] where
    [rest] is what follows them in the string. *)
Inductive matches : regex -> str -> str -> Prop :=
| M_Eps rest : matches Eps [] rest
| M_Set p c rest : p c = true -> matches (Set_ p) [c] rest
| M_Cat r1 r2 s1 s2 rest :
    matches r1 s1 (s2 ++ rest) -> matches r2 s2 rest ->
    matches (Cat r1 r2) (s1 ++ s2) rest
| M_Alt_l r1 r2 s rest : matches r1 s rest -> matches (Alt r1 r2) s rest
| M_Alt_r r1 r2 s rest : matches r2 s rest -> matches (Alt r1 r2) s rest
| M_Star_nil r rest : matches (Star r) [] rest
| M_Star_cons r s1 s2 rest :
    matches r s1 (s2 ++ rest) -> matches (Star r) s2 rest ->
    matches (Star r) (s1 ++ s2) rest
| M_Dollar rest : at_end rest = true -> matches Dollar [] rest.

(** A character a phone number may hold: a digit, a parenthesis, white
    space or a dash. *)
Definition phone_char (c : ascii) : bool :=
  isdigit c || ch c "(" || ch c ")" || isspace c || ch c "-".

(** A character other than [@]. *)
Definition not_at (c : ascii) : bool := negb (ch c "@").

(** A string that is not empty and holds no [@]. *)
Definition part (s : str) : Prop := s <> [] /\ forallb not_at s = true.

(** The string starts with an address: a part, [@], a part, a dot, a
    part. *)
Definition starts_with_an_address (s : str) : Prop :=
  exists a b c rest,
    s = a ++ "@"%char :: b ++ "."%char :: c ++ rest
    /\ part a /\ part b /\ part c.
End ReSpec.

Section ResultSpec.
Variables O F : Type.

(** Every exception the computation raises satisfies [P]. *)
Definition only_raises {A} (P : exn -> Prop) (c : M O F A) : Prop :=
  forall w e w', c w = (Raise e, w') -> P e.

(** Every value the computation returns satisfies [Q]. *)
Definition returns {A} (Q : A -> Prop) (c : M O F A) : Prop :=
  forall w a w', c w = (Ok a, w') -> Q a.
End ResultSpec.

Arguments only_raises {O F A} P c.
Arguments returns {O F A} Q c.

(** The end of standard input, or the end of the fuel of a modelled
    loop. *)
Definition end_of_input (e : exn) : Prop := e = EOFError \/ e = OutOfFuel.

Module DatetimeSpec.

(** The character of a digit. *)
Definition digit_char (k : Z) : ascii := ascii_of_N (Z.to_N (48 + k)).

Definition two_digits (n : Z) : str :=
  [digit_char (n / 10); digit_char (n mod 10)].

Definition four_digits (n : Z) : str :=
  [digit_char (n / 1000); digit_char (n / 100 mod 10);
   digit_char (n / 10 mod 10); digit_char (n mod 10)].

(** [date(year, month, day).strftime("%Y-%m-%d")] for a year of four
    digits: the way [created_on] is written. *)
Definition strftime (year month day : Z) : str :=
  four_digits year ++ "-"%char :: two_digits month
    ++ "-"%char :: two_digits day.
End DatetimeSpec.

(** * What a computation prints *)

Section Output.
Variables O F : Type.

Lemma grows_ret A (a : A) : grows (@ret O F A a).
Proof. intros w. exists []. simpl. now rewrite app_nil_r. Qed.

Lemma grows_raise A e : grows (@raise O F A e).
Proof. intros w. exists []. simpl. now rewrite app_nil_r. Qed.

Lemma grows_print m : grows (@print O F m).
Proof. intros w. exists [m]. reflexivity. Qed.

Lemma grows_input p : grows (@input O F p).
Proof. intros w. exists [p]. unfold input. destruct (stdin w); reflexivity. Qed.

Lemma opens_input p : opens_with p (@input O F p).
Proof. intros w. exists []. unfold input. destruct (stdin w); reflexivity. Qed.

Lemma grows_bind A B (c : M O F A) (k : A -> M O F B) :
  grows c -> (forall a, grows (k a)) -> grows (bind c k).
Proof.
  intros Hc Hk w. unfold bind. destruct (Hc w) as [l Hl].
  destruct (c w) as [[a|e] w']; simpl in *.
  - destruct (Hk a w') as [l' Hl']. exists (l ++ l').
    now rewrite Hl', Hl, app_assoc.
  - now exists l.
Qed.

Lemma grows_try_except A (c : M O F A) h :
  grows c -> (forall e k, h e = Some k -> grows k) -> grows (try_except c h).
Proof.
  intros Hc Hh w. unfold try_except. destruct (Hc w) as [l Hl].
  destruct (c w) as [[a|e] w']; simpl in *.
  - now exists l.
  - destruct (h e) as [k|] eqn:E; simpl; [|now exists l].
    destruct (Hh e k E w') as [l' Hl']. exists (l ++ l').
    now rewrite Hl', Hl, app_assoc.
Qed.

Lemma opens_grows A m (c : M O F A) : opens_with m c -> grows c.
Proof. intros H w. destruct (H w) as [l Hl]. now exists (m :: l). Qed.

Lemma opens_bind A B m (c : M O F A) (k : A -> M O F B) :
  opens_with m c -> (forall a, grows (k a)) -> opens_with m (bind c k).
Proof.
  intros Hc Hk w. unfold bind. destruct (Hc w) as [l Hl].
  destruct (c w) as [[a|e] w']; simpl in *.
  - destruct (Hk a w') as [l' Hl']. exists (l ++ l').
    now rewrite Hl', Hl, <- app_assoc.
  - now exists l.
Qed.

Lemma opens_try_except A m (c : M O F A) h :
  opens_with m c -> (forall e k, h e = Some k -> grows k) ->
  opens_with m (try_except c h).
Proof.
  intros Hc Hh w. unfold try_except. destruct (Hc w) as [l Hl].
  destruct (c w) as [[a|e] w']; simpl in *.
  - now exists l.
  - destruct (h e) as [k|] eqn:E; simpl; [|now exists l].
    destruct (Hh e k E w') as [l' Hl']. exists (l ++ l').
    now rewrite Hl', Hl, <- app_assoc.
Qed.
End Output.

(** * Properties of the to-do list *)

Module TodoProofs.
Import Todo TodoSpec.

Lemma py_max_is_max first others :
  is_max (py_max first others) (first :: others).
Proof.
  unfold py_max. revert first.
  induction others as [|x l IH]; intros first; simpl.
  - split; [now left | intros n [->|[]]; lia].
  - destruct (IH (Z.max first x)) as [Hin Hle]. split.
    + destruct Hin as [Heq | Hin]; [| now right; right].
      rewrite <- Heq.
      destruct (Z.max_spec first x) as [[_ ->] | [_ ->]]; simpl; auto.
    + intros n Hn.
      assert (n <= Z.max first x \/ In n l) as [H | H]
        by (destruct Hn as [<- | [<- | Hn]]; [left; lia | left; lia | now right]).
      * specialize (Hle (Z.max first x) (or_introl eq_refl)). lia.
      * apply Hle. now right.
Qed.

Lemma ids_all tasks :
  forallb has_id tasks = true ->
  map (fun t => match id t with Some n => n | None => 0 end) tasks
  = ids tasks.
Proof.
  induction tasks as [|t l IH]; simpl; [reflexivity|].
  unfold has_id at 1. destruct (id t); simpl; [|discriminate].
  intros H. now rewrite IH.
Qed.

Lemma ids_app l1 l2 : ids (l1 ++ l2) = ids l1 ++ ids l2.
Proof. unfold ids. apply flat_map_app. Qed.

Lemma get_next_id_max tasks :
  forallb has_id tasks = true -> tasks <> [] ->
  is_max (get_next_id tasks - 1) (ids tasks).
Proof.
  intros Hall Hne. unfold get_next_id. rewrite (ids_all _ Hall).
  destruct (ids tasks) as [|first others] eqn:E.
  - destruct tasks as [|t l]; [congruence|].
    simpl in Hall. unfold ids in E. simpl in E.
    unfold has_id in Hall. destruct (id t); simpl in *; discriminate.
  - replace (py_max first others + 1 - 1) with (py_max first others) by lia.
    apply py_max_is_max.
Qed.

Lemma first_with_id_found tasks k :
  forallb has_id tasks = true -> existsb (id_is k) tasks = true ->
  forall i, exists j t,
    first_with_id tasks k i = Ok (Some (j, t)) /\ id t = Some k.
Proof.
  induction tasks as [|t l IH]; simpl; [discriminate|].
  intros Hall Hex i. apply andb_prop in Hall as [Ht Hl].
  unfold task_id_of, has_id, id_is in *.
  destruct (id t) as [n|] eqn:E; [|discriminate].
  destruct (n =? k) eqn:Enk.
  - exists i, t. apply Z.eqb_eq in Enk. subst. auto.
  - simpl in Hex. apply IH; assumption.
Qed.

Lemma without_id_filter tasks k :
  forallb has_id tasks = true ->
  without_id tasks k = Ok (filter (fun t => negb (id_is k t)) tasks).
Proof.
  induction tasks as [|t l IH]; simpl; [reflexivity|].
  intros Hall. apply andb_prop in Hall as [Ht Hl].
  rewrite (IH Hl). unfold task_id_of, has_id, id_is in *.
  destruct (id t); [reflexivity | discriminate].
Qed.

(** What [save_tasks] does. *)
Lemma save_tasks_run tasks ins out d :
  save_tasks tasks (World ins out d)
  = (Ok tt, World ins (out ++ save_report tasks) (Some (saved tasks))).
Proof.
  unfold save_tasks, save_report, saved, try_except.
  destruct (dumps tasks).
  - unfold write_file. cbn [stdin stdout disk]. now rewrite app_nil_r.
  - reflexivity.
Qed.

(** A collection whose ids print is saved whole. *)
Lemma saved_dumps tasks :
  dumps tasks = true -> saved tasks = Json tasks /\ save_report tasks = [].
Proof. unfold saved, save_report. now intros ->. Qed.

Lemma dumps_filter (f : task -> bool) tasks :
  dumps tasks = true -> dumps (filter f tasks) = true.
Proof.
  unfold dumps. induction tasks as [|t l IH]; [reflexivity|].
  cbn [forallb filter]. intros H. apply andb_prop in H as [Ht Hl].
  destruct (f t); cbn [forallb]; [rewrite Ht|]; now apply IH.
Qed.

(** What [delete_task] does when the id typed is the id of a task. *)
Lemma delete_task_found tasks k line rest out d :
  forallb has_id tasks = true ->
  python_int (strip line) = Some k ->
  existsb (id_is k) tasks = true ->
  let kept := filter (fun t => negb (id_is k t)) tasks in
  delete_task tasks (World (line :: rest) out d)
  = (Ok kept,
     World rest
       (out ++ [Ask Enter_id_delete] ++ save_report kept ++ [Task_deleted k])
       (Some (saved kept))).
Proof.
  intros Hall Hint Hex kept.
  destruct (first_with_id_found _ _ Hall Hex 0%nat) as (j & t & Hf & Hid).
  unfold delete_task, bind at 1, input, find_task_by_id.
  cbn [stdin stdout disk].
  rewrite Hint, Hf. unfold task_id_of. rewrite Hid.
  rewrite (without_id_filter _ k Hall). fold kept.
  unfold bind at 1. rewrite save_tasks_run.
  unfold bind, print, ret. cbn [stdin stdout disk].
  now rewrite <- !app_assoc.
Qed.

(** [add_task] once a description is typed: the due date is asked for
    and the task is built and saved. *)
Lemma add_task_builds today tasks typed_description typed_due rest out d :
  strip typed_description <> [] ->
  let t := new_task today tasks typed_description typed_due in
  add_task today tasks (World (typed_description :: typed_due :: rest) out d)
  = bind (if int_prints (get_next_id tasks)
          then print (Task_added (get_next_id tasks))
          else raise ValueError)
         (fun _ => ret (tasks ++ [t]))
      (World rest
         (out ++ [Ask Enter_description; Ask Enter_due_date]
              ++ due_date_messages typed_due ++ save_report (tasks ++ [t]))
         (Some (saved (tasks ++ [t])))).
Proof.
  intros Hne t. subst t.
  unfold add_task, new_task, kept_due_date, due_date_messages.
  unfold bind at 1, input. cbn [stdin stdout disk].
  destruct (strip typed_description) as [|c s] eqn:Ed; [congruence|].
  unfold bind at 1. cbn [stdin stdout disk]. cbv zeta.
  destruct (strip typed_due) as [|c' s'] eqn:Edue.
  - unfold bind at 1, ret at 1. unfold bind at 1. rewrite save_tasks_run.
    rewrite <- !app_assoc. reflexivity.
  - destruct (Datetime.strptime (c' :: s')).
    + unfold bind at 1, ret at 1. unfold bind at 1. rewrite save_tasks_run.
      rewrite <- !app_assoc. reflexivity.
    + unfold bind at 1, bind at 1, print at 1, ret at 1.
      cbn [stdin stdout disk]. unfold bind at 1. rewrite save_tasks_run.
      rewrite <- !app_assoc. reflexivity.
Qed.

(** What [add_task] does when a description is typed and the new id
    prints. *)
Lemma add_task_described today tasks typed_description typed_due rest out d :
  strip typed_description <> [] ->
  int_prints (get_next_id tasks) = true ->
  let t := new_task today tasks typed_description typed_due in
  add_task today tasks (World (typed_description :: typed_due :: rest) out d)
  = (Ok (tasks ++ [t]),
     World rest
       (out ++ [Ask Enter_description; Ask Enter_due_date]
            ++ due_date_messages typed_due
            ++ save_report (tasks ++ [t])
            ++ [Task_added (get_next_id tasks)])
       (Some (saved (tasks ++ [t])))).
Proof.
  intros Hne Hprints t. rewrite add_task_builds by assumption.
  rewrite Hprints. unfold bind, print, ret. cbn [stdin stdout disk].
  rewrite <- !app_assoc. reflexivity.
Qed.

Lemma dumps_app l1 l2 : dumps (l1 ++ l2) = dumps l1 && dumps l2.
Proof. unfold dumps. apply forallb_app. Qed.

(** What it does when the new id does not print: the document is left
    unfinished, the failure to save is printed, and the last [print]
    raises. *)
Lemma add_task_unprintable
    today tasks typed_description typed_due rest out d :
  strip typed_description <> [] ->
  int_prints (get_next_id tasks) = false ->
  add_task today tasks (World (typed_description :: typed_due :: rest) out d)
  = (Raise ValueError,
     World rest
       (out ++ [Ask Enter_description; Ask Enter_due_date]
            ++ due_date_messages typed_due ++ [Could_not_save ValueError])
       (Some Undecodable)).
Proof.
  intros Hne Hprints. rewrite add_task_builds by assumption.
  assert (Hd : dumps (tasks ++ [new_task today tasks typed_description
                                  typed_due]) = false).
  { rewrite dumps_app. unfold dumps at 2. cbn [forallb new_task id].
    now rewrite Hprints, andb_false_r. }
  rewrite Hprints. unfold saved, save_report. rewrite Hd. reflexivity.
Qed.
Lemma filter_keeps_ids tasks k :
  forallb has_id (filter (fun t => negb (id_is k t)) tasks)
  = forallb has_id tasks
  \/ forallb has_id tasks = false.
Proof.
  induction tasks as [|t l IH]; simpl; [now left|].
  destruct (has_id t) eqn:Eh; simpl; [|now right].
  destruct (negb (id_is k t)); simpl; rewrite ?Eh; simpl; exact IH.
Qed.

Lemma ids_filter tasks k :
  ids (filter (fun t => negb (id_is k t)) tasks)
  = filter (fun n => negb (n =? k)) (ids tasks).
Proof.
  induction tasks as [|t l IH]; simpl; [reflexivity|].
  unfold id_is at 1. destruct (id t) as [n|] eqn:E; simpl.
  - destruct (n =? k); simpl; [exact IH|].
    unfold ids at 1. simpl. rewrite E. simpl. f_equal. exact IH.
  - unfold ids at 1. simpl. rewrite E. simpl. exact IH.
Qed.

Lemma count_digits_pos fuel : forall n, 1 <= count_digits fuel n.
Proof.
  induction fuel as [|f IH]; intros n; cbn [count_digits]; [lia|].
  destruct (n <? 10); [lia|]. specialize (IH (n / 10)). lia.
Qed.

Lemma count_digits_spec fuel : forall n k,
  0 <= n -> 0 <= k -> Z.log2 n <= Z.of_nat fuel ->
  (count_digits fuel n <= k + 1 <-> n < 10 ^ (k + 1)).
Proof.
  induction fuel as [|f IH]; intros n k Hn Hk Hlog.
  - cbn [count_digits].
    assert (Hn1 : n <= 1).
    { apply Z.log2_null. pose proof (Z.log2_nonneg n). lia. }
    rewrite Z.pow_add_r by lia. change (10 ^ 1) with 10.
    pose proof (Z.pow_pos_nonneg 10 k ltac:(lia) Hk). lia.
  - cbn [count_digits]. rewrite Z.pow_add_r by lia. change (10 ^ 1) with 10.
    pose proof (Z.pow_pos_nonneg 10 k ltac:(lia) Hk) as Hpow.
    destruct (n <? 10) eqn:E.
    + apply Z.ltb_lt in E. lia.
    + apply Z.ltb_ge in E. pose proof (count_digits_pos f (n / 10)) as Hpos.
      destruct (Z.eq_dec k 0) as [->|Hk0].
      * change (10 ^ 0) with 1. lia.
      * assert (Hq : 0 <= n / 10) by (apply Z.div_pos; lia).
        assert (Hlogq : Z.log2 (n / 10) <= Z.of_nat f).
        { assert (Hq1 : 0 < n / 10)
            by (Z.to_euclidean_division_equations; lia).
          assert (Hle : 2 * (n / 10) <= n)
            by (Z.to_euclidean_division_equations; lia).
          apply Z.log2_le_mono in Hle.
          rewrite Z.log2_double in Hle by assumption. lia. }
        specialize (IH (n / 10) (k - 1) Hq ltac:(lia) Hlogq).
        replace (k - 1 + 1) with k in IH by lia.
        set (P := 10 ^ k) in *.
        assert (Hdiv : n / 10 < P <-> n < P * 10)
          by (Z.to_euclidean_division_equations; lia).
        lia.
Qed.

(** An [int] prints when it has at most [int_max_str_digits] digits. *)
Lemma int_prints_spec n :
  int_prints n = true <-> Z.abs n < 10 ^ int_max_str_digits.
Proof.
  unfold int_prints, decimal_digits. rewrite Z.leb_le.
  assert (Hk : 0 <= int_max_str_digits - 1)
    by (unfold int_max_str_digits; lia).
  pose proof (count_digits_spec (Z.to_nat (Z.log2 (Z.abs n))) (Z.abs n)
                (int_max_str_digits - 1) (Z.abs_nonneg n) Hk) as H.
  replace (int_max_str_digits - 1 + 1) with int_max_str_digits in H by lia.
  apply H. rewrite Z2Nat.id by apply Z.log2_nonneg. lia.
Qed.

(** C3: [get_next_id] returns 1 for the empty collection and one more
    than the greatest id otherwise; a task that is added gets that id:
    [add_task] returns the collection with that task when the id prints,
    that is when it has at most [int_max_str_digits] digits, and
    otherwise leaves the document unfinished and raises [ValueError];
    deleting by id leaves the other tasks, and so their ids, as they
    were; and once the task 3 of a collection with the ids 1, 2, 3, 4
    is deleted, the next task added gets the id 5. *)
Theorem next_id_policy (tasks : list task) :
  forallb has_id tasks = true ->
  (tasks = [] -> get_next_id tasks = 1)
  /\ (tasks <> [] -> is_max (get_next_id tasks - 1) (ids tasks))
  /\ (int_prints (get_next_id tasks) = true
      <-> Z.abs (get_next_id tasks) < 10 ^ int_max_str_digits)
  /\ (forall today typed_description typed_due rest out d,
        strip typed_description <> [] ->
        (int_prints (get_next_id tasks) = true ->
         exists t w,
           add_task today tasks
             (World (typed_description :: typed_due :: rest) out d)
           = (Ok (tasks ++ [t]), w)
           /\ id t = Some (get_next_id tasks))
        /\ (int_prints (get_next_id tasks) = false ->
            exists w,
              add_task today tasks
                (World (typed_description :: typed_due :: rest) out d)
              = (Raise ValueError, w)
              /\ disk w = Some Undecodable))
  /\ (forall k line rest out d,
        python_int (strip line) = Some k ->
        existsb (id_is k) tasks = true ->
        exists kept w,
          delete_task tasks (World (line :: rest) out d) = (Ok kept, w)
          /\ kept = filter (fun t => negb (id_is k t)) tasks
          /\ ids kept = filter (fun n => negb (n =? k)) (ids tasks))
  /\ (ids tasks = [1; 2; 3; 4] ->
      forall today typed_description typed_due rest out d,
        strip typed_description <> [] ->
        exists kept w1 t w2,
          delete_task tasks
            (World (lit "3" :: typed_description :: typed_due :: rest) out d)
          = (Ok kept, w1)
          /\ ids kept = [1; 2; 4]
          /\ add_task today kept w1 = (Ok (kept ++ [t]), w2)
          /\ id t = Some 5).
Proof.
  intros Hall. split; [intros ->; reflexivity|].
  split; [now apply get_next_id_max|].
  split; [apply int_prints_spec|].
  split.
  { intros today typed_description typed_due rest out d Hne. split.
    - intros Hprints. eexists _, _. split.
      + now apply add_task_described.
      + reflexivity.
    - intros Hprints. eexists. split.
      + now apply add_task_unprintable.
      + reflexivity. }
  split.
  { intros k line rest out d Hint Hex.
    eexists _, _. split; [|split].
    - exact (delete_task_found tasks k line rest out d Hall Hint Hex).
    - reflexivity.
    - apply ids_filter. }
  intros Hids today typed_description typed_due rest out d Hne.
  assert (Hex : existsb (id_is 3) tasks = true).
  { apply existsb_exists.
    assert (Hin : In 3 (ids tasks)) by (rewrite Hids; simpl; auto).
    unfold ids in Hin. apply in_flat_map in Hin as (t & Ht & Hin).
    exists t. split; [assumption|]. unfold id_is.
    destruct (id t); simpl in Hin; [|contradiction].
    destruct Hin as [->|[]]. reflexivity. }
  set (kept := filter (fun t => negb (id_is 3 t)) tasks).
  assert (Hk : ids kept = [1; 2; 4]).
  { unfold kept. rewrite ids_filter, Hids. reflexivity. }
  assert (Hallk : forallb has_id kept = true).
  { destruct (filter_keeps_ids tasks 3) as [H|H]; fold kept in H; congruence. }
  assert (Hnext : get_next_id kept = 5).
  { unfold get_next_id. rewrite (ids_all _ Hallk), Hk. reflexivity. }
  eexists kept, _, _, _. split; [|split; [exact Hk|split]].
  - apply delete_task_found; [assumption | reflexivity | assumption].
  - apply add_task_described; [exact Hne|]. rewrite Hnext. reflexivity.
  - cbn [new_task id]. now rewrite Hnext.
Qed.

Lemma next_id_policy_witness :
  forallb has_id four_tasks = true
  /\ is_max (get_next_id four_tasks - 1) (ids four_tasks).
Proof.
  split; [reflexivity|].
  apply (next_id_policy four_tasks); [reflexivity | discriminate].
Defined.



(** C9: when several tasks bear the id that is typed, [delete_task]
    removes all of them at once: what is left, and saved, is the
    collection filtered of that id, so the other tasks stay in their
    order and no task with the id is left.  The file holds what
    [save_tasks] leaves for that collection: the collection itself,
    since the ids of a collection that was loaded print. *)
Theorem delete_removes_every_task_with_id tasks k line rest out d :
  forallb has_id tasks = true ->
  python_int (strip line) = Some k ->
  existsb (id_is k) tasks = true ->
  let kept := filter (fun t => negb (id_is k t)) tasks in
  delete_task tasks (World (line :: rest) out d)
  = (Ok kept,
     World rest
       (out ++ [Ask Enter_id_delete] ++ save_report kept ++ [Task_deleted k])
       (Some (saved kept)))
  /\ (dumps tasks = true -> saved kept = Json kept /\ save_report kept = [])
  /\ existsb (id_is k) kept = false
  /\ (forall t, In t tasks -> id_is k t = false -> In t kept).
Proof.
  intros Hall Hint Hex kept. split; [|split; [|split]].
  - apply delete_task_found; assumption.
  - intros Hd. apply saved_dumps. now apply dumps_filter.
  - unfold kept. clear. induction tasks as [|t l IH]; simpl; [reflexivity|].
    destruct (id_is k t) eqn:E; simpl; [exact IH|]. now rewrite E.
  - intros t Hin Hid. unfold kept. apply filter_In. split; [assumption|].
    now rewrite Hid.
Qed.

Lemma delete_removes_every_task_with_id_witness :
  delete_task tasks_sharing_an_id (World [lit "2"] [] None)
  = (Ok [Task (Some 1) (lit "a") false (lit "2024-01-01") (Some []);
         Task (Some 3) (lit "d") false (lit "2024-01-01") (Some [])],
     World [] [Ask Enter_id_delete; Task_deleted 2]
       (Some (Json
          [Task (Some 1) (lit "a") false (lit "2024-01-01") (Some []);
           Task (Some 3) (lit "d") false (lit "2024-01-01") (Some [])]))).
Proof.
  apply (delete_removes_every_task_with_id tasks_sharing_an_id 2
           (lit "2") [] [] None); reflexivity.
Defined.
End TodoProofs.

(** * Properties of the contact book: search and index prompts *)

Module ContactProofs.
Import ContactBook ContactSpec.

Lemma print_entries_prints l : forall i ins out d,
  print_entries i l (World ins out d)
  = (Ok tt, World ins (out ++ entries i l) d).
Proof.
  induction l as [|c l IH]; intros i ins out d; simpl.
  - unfold ret. now rewrite app_nil_r.
  - unfold bind, print. simpl. rewrite IH. now rewrite <- app_assoc.
Qed.

Lemma view_contact_list_prints contacts ins out d :
  view_contact_list contacts (World ins out d)
  = (Ok tt, World ins (out ++ listing contacts) d).
Proof.
  destruct contacts as [|c l]; [reflexivity|].
  unfold view_contact_list, listing, bind, print. simpl stdin. simpl stdout.
  simpl disk. rewrite print_entries_prints. simpl.
  now rewrite <- !app_assoc.
Qed.

Lemma print_found_prints found : forall ins out d,
  print_found found (World ins out d)
  = (Ok tt, World ins (out ++ details found) d).
Proof.
  induction found as [|c l IH]; intros ins out d; simpl.
  - unfold ret. now rewrite app_nil_r.
  - unfold bind, print. simpl. rewrite IH. now rewrite <- !app_assoc.
Qed.

Lemma found_contacts_empty_term contacts :
  found_contacts [] contacts = Ok contacts.
Proof.
  induction contacts as [|c l IH]; simpl; [reflexivity|].
  rewrite IH. unfold search_test. simpl.
  destruct (lower (name c)); reflexivity.
Qed.

Lemma details_are_found found t : ~ In (No_contacts_found t) (details found).
Proof.
  unfold details. intros H. apply in_flat_map in H as (c & _ & H).
  simpl in H. intuition discriminate.
Qed.

(** C10: on a collection that is not empty, a search term that strips to
    the empty string selects every contact: the search prints the count
    and the details of the whole collection, and no message that nothing
    was found. *)
Theorem empty_term_matches_all contacts line rest out d :
  contacts <> [] ->
  strip line = [] ->
  found_contacts (lower (strip line)) contacts = Ok contacts
  /\ exists printed,
      search_contact contacts (World (line :: rest) out d)
      = (Ok tt, World rest (out ++ printed) d)
      /\ printed = [Ask Enter_search_term; Found_header (len contacts)]
                     ++ details contacts ++ [Found_footer]
      /\ forall t, ~ In (No_contacts_found t) printed.
Proof.
  intros Hne Hstrip. rewrite Hstrip. simpl lower.
  split; [apply found_contacts_empty_term|].
  eexists. split; [|split; [reflexivity|]].
  - destruct contacts as [|c l]; [congruence|].
    unfold search_contact, bind, input. simpl stdin. cbv iota.
    rewrite Hstrip. simpl lower.
    rewrite found_contacts_empty_term. unfold print.
    cbn [stdin stdout disk]. rewrite print_found_prints.
    cbn [stdin stdout disk]. rewrite <- !app_assoc. reflexivity.
  - intros t H. simpl in H. destruct H as [H|[H|H]]; try discriminate.
    apply in_app_or in H as [H|[H|[]]]; [|discriminate].
    exact (details_are_found _ _ H).
Qed.

Lemma empty_term_matches_all_witness :
  found_contacts (lower (strip (lit "   "))) three_contacts
  = Ok three_contacts.
Proof.
  apply (empty_term_matches_all three_contacts (lit "   ") [] [] None);
    [discriminate | reflexivity].
Defined.

(** C2: the search at the input of the specification's example.  The
    contact's phone is "(555) 123-4567" and the term typed is
    "5551234567": the search finds nothing, because only spaces and
    dashes are removed from the phone that is compared, and its
    parentheses stay. *)
Theorem digits_miss_phone_with_parentheses :
  let c := entered (lit "Ada") (lit "(555) 123-4567")
                   (lit "ada@example.org") [] in
  found_contacts (lit "5551234567") [c] = Ok []
  /\ search_contact [c] (World [lit "5551234567"] [] None)
     = (Ok tt,
        World [] [Ask Enter_search_term;
                  No_contacts_found (lit "5551234567")] None)
  /\ replace "-" [] (replace " " [] (lit "(555) 123-4567"))
     = lit "(555)1234567".
Proof. repeat split. Qed.

(** C6: when the number typed at the index prompt of [update_contact] or
    of [delete_contact] is not between 1 and the length of the list, the
    list is returned as it was, the backing file is not touched, and
    after the listing and the prompt the only thing printed is that the
    contact number is invalid. *)
Theorem index_out_of_range_changes_nothing contacts line k rest out d :
  contacts <> [] ->
  python_int (strip line) = Some k ->
  k < 1 \/ len contacts < k ->
  update_contact contacts (World (line :: rest) out d)
  = (Ok contacts,
     World rest
       (out ++ listing contacts
            ++ [Ask Enter_index_to_update; Invalid_contact_number]) d)
  /\ delete_contact contacts (World (line :: rest) out d)
     = (Ok contacts,
        World rest
          (out ++ listing contacts
               ++ [Ask Enter_index_to_delete; Invalid_contact_number]) d).
Proof.
  intros Hne Hint Hrange.
  assert (Htest : negb ((0 <=? k - 1) && (k - 1 <? len contacts)) = true).
  { apply negb_true_iff, andb_false_iff.
    destruct Hrange; [left; apply Z.leb_gt | right; apply Z.ltb_ge]; lia. }
  destruct contacts as [|c l]; [congruence|].
  split.
  - unfold update_contact, bind. rewrite view_contact_list_prints.
    unfold try_except, bind, input. simpl stdin. cbv iota.
    rewrite Hint. cbv iota beta. rewrite Htest.
    unfold print, ret. cbn [stdin stdout disk].
    rewrite <- !app_assoc. reflexivity.
  - unfold delete_contact, bind. rewrite view_contact_list_prints.
    unfold try_except, bind, input. simpl stdin. cbv iota.
    rewrite Hint. cbv iota beta. rewrite Htest.
    unfold print, ret. cbn [stdin stdout disk].
    rewrite <- !app_assoc. reflexivity.
Qed.

Lemma index_out_of_range_changes_nothing_witness :
  update_contact three_contacts (World [lit "99"] [] None)
  = (Ok three_contacts,
     World [] ([] ++ listing three_contacts
               ++ [Ask Enter_index_to_update; Invalid_contact_number]) None)
  /\ delete_contact three_contacts (World [lit "99"] [] None)
     = (Ok three_contacts,
        World [] ([] ++ listing three_contacts
                  ++ [Ask Enter_index_to_delete; Invalid_contact_number])
              None).
Proof.
  apply (index_out_of_range_changes_nothing three_contacts (lit "99") 99
           [] [] None);
    [discriminate | reflexivity | right; vm_compute; reflexivity].
Defined.
End ContactProofs.

(** * Properties of the calculator *)

Module CalcProofs.
Import Calc CalcSpec.

Section WithNumbers.
Context {N : Numbers}.

Lemma read_number_grows p invalid : grows (read_number p invalid).
Proof.
  unfold read_number. apply grows_try_except.
  - apply grows_bind; [apply grows_input|]. intros line.
    destruct (is_exit (strip line)); [apply grows_raise|].
    destruct (float_of_str (strip line)); [apply grows_ret | apply grows_raise].
  - intros e k H. destruct e; try discriminate. injection H as <-.
    apply grows_bind; [apply grows_print | intros _; apply grows_ret].
Qed.

Lemma read_number_opens p invalid : opens_with (Ask p) (read_number p invalid).
Proof.
  unfold read_number. apply opens_try_except.
  - apply opens_bind; [apply opens_input|]. intros line.
    destruct (is_exit (strip line)); [apply grows_raise|].
    destruct (float_of_str (strip line)); [apply grows_ret | apply grows_raise].
  - intros e k H. destruct e; try discriminate. injection H as <-.
    apply grows_bind; [apply grows_print | intros _; apply grows_ret].
Qed.

Lemma computation_grows (f : float -> float -> res number) a op b :
  grows
    (try_except
       (match f a b with
        | Raise e => raise e
        | Ok result =>
            bind (print Result_header)
                 (fun _ => print (Result a op b result))
        end)
       (fun e =>
          match e with
          | ZeroDivisionError msg =>
              Some (print (F := unit) (Calculation_error msg))
          | _ =>
              if is_Exception e then Some (print (Unexpected_error e))
              else None
          end)).
Proof.
  apply grows_try_except.
  - destruct (f a b); [|apply grows_raise].
    apply grows_bind; [apply grows_print | intros _; apply grows_print].
  - intros e k H. destruct e; simpl in H; try discriminate;
      injection H as <-; apply grows_print.
Qed.

Lemma after_first_number_grows (a : option float) :
  grows
    (match a with
     | None => ret tt
     | Some number_a =>
         bind (input (Ask Operation_symbol)) (fun line =>
           let operation := strip line in
           if is_exit operation then raise (SystemExit 0)
           else
             match lookup operation OPERATION_MAP with
             | None => print (Not_recognized operation)
             | Some calculation_function =>
                 bind (read_number Second_number Invalid_second_number)
                   (fun b =>
                      match b with
                      | None => ret tt
                      | Some number_b =>
                          try_except
                            (match calculation_function number_a number_b with
                             | Raise e => raise e
                             | Ok result =>
                                 bind (print Result_header)
                                   (fun _ => print (Result number_a operation
                                                      number_b result))
                             end)
                            (fun e =>
                               match e with
                               | ZeroDivisionError msg =>
                                   Some (print (Calculation_error msg))
                               | _ =>
                                   if is_Exception e
                                   then Some (print (Unexpected_error e))
                                   else None
                               end)
                      end)
             end)
     end : IO unit).
Proof.
  destruct a as [number_a|]; [|apply grows_ret].
  apply grows_bind; [apply grows_input|]. intros line. cbv zeta.
  destruct (is_exit (strip line)); [apply grows_raise|].
  destruct (lookup (strip line) OPERATION_MAP) as [f|]; [|apply grows_print].
  apply grows_bind; [apply read_number_grows|]. intros [number_b|].
  - apply computation_grows.
  - apply grows_ret.
Qed.

Lemma calculator_round_opens : opens_with (Ask First_number) calculator_round.
Proof.
  unfold calculator_round. apply opens_bind; [apply read_number_opens|].
  intros a. apply after_first_number_grows.
Qed.

Lemma calculator_loop_grows fuel : grows (calculator_loop fuel).
Proof.
  induction fuel as [|n IH]; simpl; [apply grows_raise|].
  apply grows_bind; [|intros _; exact IH].
  apply opens_grows with (m := Ask First_number), calculator_round_opens.
Qed.

Lemma calculator_loop_opens fuel :
  opens_with (Ask First_number) (calculator_loop (S fuel)).
Proof.
  simpl. apply opens_bind; [apply calculator_round_opens|].
  intros _. apply calculator_loop_grows.
Qed.

(** The round in which a division by zero is asked for. *)
Lemma round_dividing_by_zero typed_a typed_op typed_b a b rest out d :
  is_exit (strip typed_a) = false ->
  float_of_str (strip typed_a) = Some a ->
  strip typed_op = lit "/" ->
  is_exit (strip typed_b) = false ->
  float_of_str (strip typed_b) = Some b ->
  eq_zero b = true ->
  calculator_round (World (typed_a :: typed_op :: typed_b :: rest) out d)
  = (Ok tt,
     World rest
       (out ++ [Ask First_number; Ask Operation_symbol; Ask Second_number;
                Calculation_error divide_by_zero_text]) d).
Proof.
  intros Ha Hfa Hop Hb Hfb Hz.
  unfold calculator_round, read_number, bind, try_except, input.
  cbn [stdin stdout disk]. rewrite Ha, Hfa. unfold ret.
  cbn [stdin stdout disk]. rewrite Hop.
  change (is_exit (lit "/")) with false. cbv iota.
  change (lookup (lit "/") OPERATION_MAP) with (Some divide_numbers).
  cbv iota beta. cbn [stdin stdout disk]. rewrite Hb, Hfb.
  unfold divide_numbers. rewrite Hz. unfold raise, print.
  cbn [stdin stdout disk]. rewrite <- !app_assoc. reflexivity.
Qed.

(** The five symbols are looked up to their functions, and the functions
    apply the interpreter's operations. *)
Lemma operations_are_dispatched a b :
  (lookup (lit "+") OPERATION_MAP = Some add_numbers
   /\ add_numbers a b = Ok (inl (float_add a b)))
  /\ (lookup (lit "-") OPERATION_MAP = Some subtract_numbers
      /\ subtract_numbers a b = Ok (inl (float_sub a b)))
  /\ (lookup (lit "*") OPERATION_MAP = Some multiply_numbers
      /\ multiply_numbers a b = Ok (inl (float_mul a b)))
  /\ (lookup (lit "/") OPERATION_MAP = Some divide_numbers
      /\ (eq_zero b = false ->
          divide_numbers a b = Ok (inl (float_truediv a b))))
  /\ (lookup (lit "**") OPERATION_MAP = Some power_numbers
      /\ power_numbers a b = float_pow a b).
Proof.
  repeat split. intros H. unfold divide_numbers. now rewrite H.
Qed.

Lemma str_eqb_eq a : forall b, str_eqb a b = true -> a = b.
Proof.
  induction a as [|c a IH]; intros [|d b]; cbn [str_eqb]; try discriminate.
  - reflexivity.
  - intros H. apply andb_prop in H as [H1 H2].
    apply Ascii.eqb_eq in H1. subst. f_equal. now apply IH.
Qed.

(** No other symbol is an operation. *)
Lemma recognized_operations op f :
  lookup op OPERATION_MAP = Some f ->
  In op [lit "+"; lit "-"; lit "*"; lit "/"; lit "**"].
Proof.
  unfold OPERATION_MAP. cbn [lookup].
  repeat match goal with
    | |- context [str_eqb op ?k] =>
        let E := fresh "E" in
        destruct (str_eqb op k) eqn:E;
        [apply str_eqb_eq in E; subst; cbn; tauto|]
    end.
  discriminate.
Qed.

(** The rounds in which something typed is refused. *)
Lemma round_rejecting_first_number typed_a rest out d :
  is_exit (strip typed_a) = false ->
  float_of_str (strip typed_a) = None ->
  calculator_round (World (typed_a :: rest) out d)
  = (Ok tt, World rest (out ++ [Ask First_number; Invalid_first_number]) d).
Proof.
  intros Ha Hfa.
  unfold calculator_round, read_number, bind, try_except, input.
  cbn [stdin stdout disk]. rewrite Ha, Hfa. unfold raise, print, ret.
  cbn [stdin stdout disk]. rewrite <- !app_assoc. reflexivity.
Qed.

Lemma round_rejecting_operation typed_a typed_op a rest out d :
  is_exit (strip typed_a) = false ->
  float_of_str (strip typed_a) = Some a ->
  is_exit (strip typed_op) = false ->
  lookup (strip typed_op) OPERATION_MAP = None ->
  calculator_round (World (typed_a :: typed_op :: rest) out d)
  = (Ok tt,
     World rest
       (out ++ [Ask First_number; Ask Operation_symbol;
                Not_recognized (strip typed_op)]) d).
Proof.
  intros Ha Hfa Hop Hlook.
  unfold calculator_round, read_number, bind, try_except, input.
  cbn [stdin stdout disk]. rewrite Ha, Hfa. unfold ret.
  cbn [stdin stdout disk]. rewrite Hop, Hlook. unfold print.
  cbn [stdin stdout disk]. rewrite <- !app_assoc. reflexivity.
Qed.

Lemma round_rejecting_second_number typed_a typed_op typed_b a f rest out d :
  is_exit (strip typed_a) = false ->
  float_of_str (strip typed_a) = Some a ->
  is_exit (strip typed_op) = false ->
  lookup (strip typed_op) OPERATION_MAP = Some f ->
  is_exit (strip typed_b) = false ->
  float_of_str (strip typed_b) = None ->
  calculator_round (World (typed_a :: typed_op :: typed_b :: rest) out d)
  = (Ok tt,
     World rest
       (out ++ [Ask First_number; Ask Operation_symbol; Ask Second_number;
                Invalid_second_number]) d).
Proof.
  intros Ha Hfa Hop Hlook Hb Hfb.
  unfold calculator_round, read_number, bind, try_except, input.
  cbn [stdin stdout disk]. rewrite Ha, Hfa. unfold ret.
  cbn [stdin stdout disk]. rewrite Hop, Hlook.
  cbn [stdin stdout disk]. rewrite Hb, Hfb. unfold raise, print.
  cbn [stdin stdout disk]. rewrite <- !app_assoc. reflexivity.
Qed.

(** After a round that ends normally the loop asks for the first number. *)
(** Lines refused as a first number are answered one by one, and the
    loop goes on with the lines that follow. *)
Lemma first_number_retries bad : forall fuel rest out d,
  Forall (fun l => is_exit (strip l) = false
                   /\ float_of_str (strip l) = None) bad ->
  calculator_loop (List.length bad + fuel) (World (bad ++ rest) out d)
  = calculator_loop fuel
      (World rest
         (out ++ flat_map (fun _ => [Ask First_number; Invalid_first_number])
                   bad) d).
Proof.
  induction bad as [|l bad IH]; intros fuel rest out d Hbad.
  - cbn [List.length Nat.add app flat_map]. now rewrite app_nil_r.
  - inversion Hbad as [|l' bad' [Hl Hfl] Hrest]; subst.
    cbn [List.length Nat.add app flat_map].
    change (calculator_loop (S (List.length bad + fuel)))
      with (bind calculator_round
              (fun _ => calculator_loop (List.length bad + fuel))).
    unfold bind at 1.
    rewrite (round_rejecting_first_number l (bad ++ rest) out d Hl Hfl).
    rewrite (IH fuel rest _ d Hrest). now rewrite <- app_assoc.
Qed.

Lemma loop_after_round w w1 fuel :
  calculator_round w = (Ok tt, w1) ->
  exists more,
    stdout (snd (calculator_loop (S (S fuel)) w))
    = stdout w1 ++ Ask First_number :: more.
Proof.
  intros Hround.
  change (calculator_loop (S (S fuel)))
    with (bind calculator_round (fun _ => calculator_loop (S fuel))).
  unfold bind. rewrite Hround. apply calculator_loop_opens.
Qed.

(** C4: when the first number and the second number typed are read as
    floats, the operation typed is [/] and the second number equals zero,
    [divide_numbers] raises [ZeroDivisionError]; the round of the
    calculator that computes it prints the error under its label
    [Calculation_error] and ends normally; and the session goes on: the
    next thing [run_calculator] prints is the prompt for the first
    number. *)
Theorem division_by_zero_keeps_the_session
    typed_a typed_op typed_b a b rest out d :
  is_exit (strip typed_a) = false ->
  float_of_str (strip typed_a) = Some a ->
  strip typed_op = lit "/" ->
  is_exit (strip typed_b) = false ->
  float_of_str (strip typed_b) = Some b ->
  eq_zero b = true ->
  let w := World (typed_a :: typed_op :: typed_b :: rest) out d in
  divide_numbers a b = Raise (ZeroDivisionError divide_by_zero_text)
  /\ calculator_round w
     = (Ok tt,
        World rest
          (out ++ [Ask First_number; Ask Operation_symbol; Ask Second_number;
                   Calculation_error divide_by_zero_text]) d)
  /\ exists more,
       stdout (snd (run_calculator w))
       = out ++ [Banner; Ask First_number; Ask Operation_symbol;
                 Ask Second_number; Calculation_error divide_by_zero_text;
                 Ask First_number] ++ more.
Proof.
  intros Ha Hfa Hop Hb Hfb Hz w. split; [|split].
  - unfold divide_numbers. now rewrite Hz.
  - now apply round_dividing_by_zero with (a := a) (b := b).
  - unfold run_calculator, bind, print, fuel_of, w. cbn [stdin stdout disk].
    cbn [List.length].
    change (calculator_loop (S (S (S (S (List.length rest))))))
      with (bind calculator_round
              (fun _ => calculator_loop (S (S (S (List.length rest)))))).
    unfold bind at 1.
    rewrite (round_dividing_by_zero typed_a typed_op typed_b a b rest
               (out ++ [Banner]) d Ha Hfa Hop Hb Hfb Hz).
    destruct (calculator_loop_opens (S (S (List.length rest)))
                (World rest
                   ((out ++ [Banner]) ++
                    [Ask First_number; Ask Operation_symbol;
                     Ask Second_number;
                     Calculation_error divide_by_zero_text]) d))
      as [more Hmore].
    exists more. rewrite Hmore. cbn [stdout].
    rewrite <- !app_assoc. reflexivity.
Qed.
End WithNumbers.

Lemma division_by_zero_keeps_the_session_witness :
  @calculator_round sample_numbers
    (World [lit "5"; lit "/"; lit "0"; lit "quit"] [] None)
  = (Ok tt,
     World [lit "quit"]
       ([] ++ [Ask First_number; Ask Operation_symbol; Ask Second_number;
               Calculation_error divide_by_zero_text]) None).
Proof.
  apply (@division_by_zero_keeps_the_session sample_numbers
           (lit "5") (lit "/") (lit "0")
           (binary_normalize 53 1024 5 0 false) (S754_zero false)
           [lit "quit"] [] None); reflexivity.
Defined.
End CalcProofs.

(** * Properties of the prompts *)

Module PromptProofs.
Import ContactBook ContactSpec.

Lemma get_validated_input_loop_retries p vt good rest d :
  accepted vt good ->
  forall bad, Forall (rejected vt) bad ->
  forall fuel out, (List.length bad < fuel)%nat ->
  get_validated_input_loop fuel p vt (World (bad ++ good :: rest) out d)
  = (Ok (strip good), World rest (out ++ retries p vt bad ++ [Ask p]) d).
Proof.
  intros Hgood bad. induction bad as [|t bad IH]; intros Hbad fuel out Hfuel.
  - destruct fuel as [|fuel]; [inversion Hfuel|].
    cbn [get_validated_input_loop app].
    unfold bind, input. cbn [stdin stdout disk].
    unfold accepted, rejection in Hgood.
    destruct (strip good) as [|c s]; [discriminate|].
    destruct (str_eqb vt (lit "email")).
    + destruct (Re.re_match email_pattern (c :: s)); [|discriminate].
      reflexivity.
    + destruct (str_eqb vt (lit "phone")); [|reflexivity].
      destruct (Re.re_match phone_pattern (c :: s)); [|discriminate].
      reflexivity.
  - destruct fuel as [|fuel]; [inversion Hfuel|].
    inversion Hbad as [|? ? Ht Hbad']; subst.
    assert (Hrec : forall m, rejection vt t = Some m ->
      get_validated_input_loop fuel p vt
        (World (bad ++ good :: rest) ((out ++ [Ask p]) ++ [m]) d)
      = (Ok (strip good),
         World rest (out ++ retries p vt (t :: bad) ++ [Ask p]) d)).
    { intros m Hm. rewrite IH; [|assumption|simpl in Hfuel; lia].
      unfold retries. simpl. rewrite Hm. simpl.
      rewrite <- !app_assoc. reflexivity. }
    cbn [get_validated_input_loop app]. unfold bind at 1, input.
    cbn [stdin stdout disk].
    unfold rejected, rejection in Ht. unfold rejection in Hrec.
    destruct (strip t) as [|c s].
    + unfold bind, print. cbn [stdin stdout disk]. now apply Hrec.
    + destruct (str_eqb vt (lit "email")).
      * destruct (Re.re_match email_pattern (c :: s)); [congruence|].
        cbn [negb]. unfold bind, print. cbn [stdin stdout disk].
        now apply Hrec.
      * destruct (str_eqb vt (lit "phone")); [|congruence].
        destruct (Re.re_match phone_pattern (c :: s)); [congruence|].
        cbn [negb]. unfold bind, print. cbn [stdin stdout disk].
        now apply Hrec.
Qed.

(** [get_validated_input] asks again, as often as it takes. *)
Lemma get_validated_input_retries p vt bad good rest out d :
  Forall (rejected vt) bad -> accepted vt good ->
  get_validated_input p vt (World (bad ++ good :: rest) out d)
  = (Ok (strip good), World rest (out ++ retries p vt bad ++ [Ask p]) d).
Proof.
  intros Hbad Hgood. unfold get_validated_input, fuel_of.
  apply get_validated_input_loop_retries; try assumption.
  cbn [stdin]. rewrite length_app. simpl. lia.
Qed.
Lemma save_contacts_run contacts ins out d :
  save_contacts contacts (World ins out d)
  = (Ok tt, World ins (out ++ [save_message contacts])
                  (Some (saved_text contacts))).
Proof.
  unfold save_contacts, save_message, saved_text.
  destruct (writerows contacts) as [text [e|]]; reflexivity.
Qed.

(** [add_contact] keeps each field once it is accepted. *)
Lemma add_contact_retries contacts bad_names typed_name bad_phones typed_phone
    bad_emails typed_email typed_address rest out d :
  Forall (rejected (lit "text")) bad_names ->
  accepted (lit "text") typed_name ->
  Forall (rejected (lit "phone")) bad_phones ->
  accepted (lit "phone") typed_phone ->
  Forall (rejected (lit "email")) bad_emails ->
  accepted (lit "email") typed_email ->
  let c := entered (strip typed_name) (strip typed_phone) (strip typed_email)
                   (strip typed_address) in
  add_contact contacts
    (World (bad_names ++ typed_name :: bad_phones ++ typed_phone
              :: bad_emails ++ typed_email :: typed_address :: rest) out d)
  = (Ok (contacts ++ [c]),
     World rest
       (out ++ [Adding_new_contact]
            ++ retries Enter_name (lit "text") bad_names ++ [Ask Enter_name]
            ++ retries Enter_phone (lit "phone") bad_phones
            ++ [Ask Enter_phone]
            ++ retries Enter_email (lit "email") bad_emails
            ++ [Ask Enter_email; Ask Enter_address;
                save_message (contacts ++ [c]); Contact_added (strip typed_name)])
       (Some (saved_text (contacts ++ [c])))).
Proof.
  intros Hbn Hn Hbp Hp Hbe He c. unfold add_contact.
  unfold bind at 1, print. cbn [stdin stdout disk].
  unfold bind at 1. rewrite get_validated_input_retries by assumption.
  unfold bind at 1. rewrite get_validated_input_retries by assumption.
  unfold bind at 1. rewrite get_validated_input_retries by assumption.
  unfold bind at 1, input. cbn [stdin stdout disk].
  unfold bind at 1. rewrite save_contacts_run.
  unfold bind, print, ret. cbn [stdin stdout disk].
  unfold c, entered. rewrite <- !app_assoc. reflexivity.
Qed.
Lemma add_task_without_description today tasks line rest out d :
  strip line = [] ->
  Todo.add_task today tasks (World (line :: rest) out d)
  = (Ok tasks,
     World rest (out ++ [Todo.Ask Todo.Enter_description;
                         Todo.Description_empty]) d).
Proof.
  intros H. unfold Todo.add_task, bind, input. cbn [stdin stdout disk].
  rewrite H. unfold print, ret. cbn [stdin stdout disk].
  rewrite <- !app_assoc. reflexivity.
Qed.

(** C5, as the programs have it.  Two kinds of prompts ask for the same
    field again, as many times as a value is refused: the validated
    prompts of the contact book ([get_validated_input]), where
    [add_contact] keeps the fields accepted before, and the first number
    of the calculator.  In the calculator, an operation or a second
    number that is refused ends the round and the next round asks for
    the first number again; in the to-do list an empty description ends
    [add_task] with no task added; the due date is asked once, and a date
    that does not parse is dropped while the task is added. *)
Theorem reprompt_policy {N : Calc.Numbers} :
  (forall p vt bad good rest out d,
     Forall (rejected vt) bad -> accepted vt good ->
     get_validated_input p vt (World (bad ++ good :: rest) out d)
     = (Ok (strip good), World rest (out ++ retries p vt bad ++ [Ask p]) d))
  /\ (forall contacts bad_names typed_name bad_phones typed_phone
        bad_emails typed_email typed_address rest out d,
        Forall (rejected (lit "text")) bad_names ->
        accepted (lit "text") typed_name ->
        Forall (rejected (lit "phone")) bad_phones ->
        accepted (lit "phone") typed_phone ->
        Forall (rejected (lit "email")) bad_emails ->
        accepted (lit "email") typed_email ->
        exists w,
          add_contact contacts
            (World (bad_names ++ typed_name :: bad_phones ++ typed_phone
                      :: bad_emails ++ typed_email :: typed_address :: rest)
                   out d)
          = (Ok (contacts ++
                   [entered (strip typed_name) (strip typed_phone)
                            (strip typed_email) (strip typed_address)]), w)
          /\ stdin w = rest)
  /\ (forall bad rest out d,
        Forall (fun l => Calc.is_exit (strip l) = false
                         /\ Calc.float_of_str (strip l) = None) bad ->
        exists more,
          stdout (snd (Calc.run_calculator (World (bad ++ rest) out d)))
          = out ++ [Calc.Banner]
                ++ flat_map (fun _ => [Calc.Ask Calc.First_number;
                                       Calc.Invalid_first_number]) bad
                ++ Calc.Ask Calc.First_number :: more)
  /\ (forall typed_a typed_op a rest out d fuel,
        Calc.is_exit (strip typed_a) = false ->
        Calc.float_of_str (strip typed_a) = Some a ->
        Calc.is_exit (strip typed_op) = false ->
        Calc.lookup (strip typed_op) Calc.OPERATION_MAP = None ->
        exists more,
          stdout (snd (Calc.calculator_loop (S (S fuel))
                         (World (typed_a :: typed_op :: rest) out d)))
          = out ++ [Calc.Ask Calc.First_number;
                    Calc.Ask Calc.Operation_symbol;
                    Calc.Not_recognized (strip typed_op);
                    Calc.Ask Calc.First_number] ++ more)
  /\ (forall typed_a typed_op typed_b a f rest out d fuel,
        Calc.is_exit (strip typed_a) = false ->
        Calc.float_of_str (strip typed_a) = Some a ->
        Calc.is_exit (strip typed_op) = false ->
        Calc.lookup (strip typed_op) Calc.OPERATION_MAP = Some f ->
        Calc.is_exit (strip typed_b) = false ->
        Calc.float_of_str (strip typed_b) = None ->
        exists more,
          stdout (snd (Calc.calculator_loop (S (S fuel))
                         (World (typed_a :: typed_op :: typed_b :: rest)
                                out d)))
          = out ++ [Calc.Ask Calc.First_number;
                    Calc.Ask Calc.Operation_symbol;
                    Calc.Ask Calc.Second_number;
                    Calc.Invalid_second_number;
                    Calc.Ask Calc.First_number] ++ more)
  /\ (forall today tasks line rest out d,
        strip line = [] ->
        Todo.add_task today tasks (World (line :: rest) out d)
        = (Ok tasks,
           World rest (out ++ [Todo.Ask Todo.Enter_description;
                               Todo.Description_empty]) d))
  /\ (forall today tasks typed_description typed_due rest out d,
        strip typed_description <> [] ->
        strip typed_due <> [] ->
        Datetime.strptime (strip typed_due) = None ->
        int_prints (Todo.get_next_id tasks) = true ->
        exists t,
          Todo.add_task today tasks
            (World (typed_description :: typed_due :: rest) out d)
          = (Ok (tasks ++ [t]),
             World rest
               (out ++ [Todo.Ask Todo.Enter_description;
                        Todo.Ask Todo.Enter_due_date;
                        Todo.Invalid_date_format]
                    ++ TodoSpec.save_report (tasks ++ [t])
                    ++ [Todo.Task_added (Todo.get_next_id tasks)])
               (Some (TodoSpec.saved (tasks ++ [t]))))
          /\ Todo.due_date t = Some []).
Proof.
  split; [intros; now apply get_validated_input_retries|].
  split.
  { intros. eexists. split.
    - apply add_contact_retries; assumption.
    - reflexivity. }
  split.
  { intros bad rest out d Hbad.
    unfold Calc.run_calculator, bind at 1, print at 1.
    cbn [stdin stdout disk fst snd]. unfold fuel_of. cbn [stdin].
    rewrite length_app.
    replace (S (List.length bad + List.length rest))
      with (List.length bad + S (List.length rest))%nat by lia.
    rewrite (CalcProofs.first_number_retries bad _ rest _ d Hbad).
    destruct (CalcProofs.calculator_loop_opens (List.length rest)
                (World rest
                   ((out ++ [Calc.Banner]) ++
                    flat_map (fun _ => [Calc.Ask Calc.First_number;
                                        Calc.Invalid_first_number]) bad) d))
      as [more Hmore].
    exists more. rewrite Hmore. cbn [stdout].
    rewrite <- !app_assoc. reflexivity. }
  split.
  { intros typed_a typed_op a rest out d fuel Ha Hfa Hop Hlook.
    destruct (CalcProofs.loop_after_round _ _ fuel
                (CalcProofs.round_rejecting_operation typed_a typed_op a
                   rest out d Ha Hfa Hop Hlook)) as [more Hmore].
    exists more. rewrite Hmore. cbn [stdout].
    rewrite <- !app_assoc. reflexivity. }
  split.
  { intros typed_a typed_op typed_b a f rest out d fuel Ha Hfa Hop Hlook Hb Hfb.
    destruct (CalcProofs.loop_after_round _ _ fuel
                (CalcProofs.round_rejecting_second_number typed_a typed_op
                   typed_b a f rest out d Ha Hfa Hop Hlook Hb Hfb))
      as [more Hmore].
    exists more. rewrite Hmore. cbn [stdout].
    rewrite <- !app_assoc. reflexivity. }
  split; [intros; now apply add_task_without_description|].
  intros today tasks typed_description typed_due rest out d Hdesc Hdue Hparse
    Hprints.
  eexists. rewrite TodoProofs.add_task_described by assumption.
  unfold TodoSpec.new_task, TodoSpec.kept_due_date, TodoSpec.due_date_messages.
  rewrite Hparse. destruct (strip typed_due); [congruence|].
  split; reflexivity.
Qed.

Lemma reprompt_policy_witness :
  get_validated_input Enter_phone (lit "phone")
    (World [lit "call me"; lit ""; lit "555-1234"; lit "next"] [] None)
  = (Ok (lit "555-1234"),
     World [lit "next"]
       [Ask Enter_phone; Invalid_phone_format;
        Ask Enter_phone; Input_cannot_be_empty; Ask Enter_phone] None).
Proof.
  apply (proj1 (@reprompt_policy CalcSpec.sample_numbers)
           Enter_phone (lit "phone") [lit "call me"; lit ""] (lit "555-1234")
           [lit "next"] [] None).
  - repeat constructor; discriminate.
  - reflexivity.
Defined.

(** C5 as it is stated fails.  In the to-do list an empty description is
    not asked for again: the line typed next is read as a menu choice.  In
    the calculator an operation that is not recognized is not asked for
    again: the next prompt is the one of the first number. *)
Lemma some_prompts_do_not_repeat :
  Todo.main_menu (lit "2024-05-01")
    (World [lit "2"; lit ""; lit "buy milk"; lit "5"] [] None)
  = (Ok tt,
     World []
       [Todo.Menu; Todo.Ask Todo.Enter_choice;
        Todo.Ask Todo.Enter_description; Todo.Description_empty;
        Todo.Menu; Todo.Ask Todo.Enter_choice; Todo.Invalid_choice;
        Todo.Menu; Todo.Ask Todo.Enter_choice; Todo.Exiting]
       (Some (Todo.Json [])))
  /\ @Calc.run_calculator CalcSpec.sample_numbers
       (World [lit "5"; lit "x"; lit "quit"] [] None)
     = (Raise (SystemExit 0),
        World []
          [Calc.Banner; Calc.Ask Calc.First_number;
           Calc.Ask Calc.Operation_symbol; Calc.Not_recognized (lit "x");
           Calc.Ask Calc.First_number] None).
Proof. split; reflexivity. Qed.
End PromptProofs.

(** * The reader reads what the writer wrote *)

Module CsvProofs.
Import Csv CsvSpec.

Lemma reader_on_line l : forall r rest,
  reader_on r (map Some l ++ rest)
  = match feed_line r l with
    | None => Throw CsvError
    | Some r1 => reader_on r1 rest
    end.
Proof.
  induction l as [|c l IH]; intros r rest; [reflexivity|].
  cbn [map app reader_on feed_line].
  destruct (parse_process_char r (Some c)); [apply IH | reflexivity].
Qed.

Lemma reader_from_symbols lines : forall r,
  reader_from r lines = reader_on r (symbols lines).
Proof.
  induction lines as [|l ls IH]; intros r; [reflexivity|].
  unfold symbols. cbn [flat_map]. fold (symbols ls).
  rewrite <- app_assoc, reader_on_line. cbn [reader_from].
  destruct (feed_line r l) as [r1|]; [|reflexivity].
  cbn [app reader_on].
  destruct (parse_process_char r1 None) as [r2|]; [|reflexivity].
  rewrite !IH. reflexivity.
Qed.

Lemma symbols_of_lines s : forall cur after_cr,
  (after_cr = true -> cur <> []) ->
  symbols (lines_from cur after_cr s)
  = map Some (rev cur) ++ text_symbols (nonempty cur) after_cr s.
Proof.
  induction s as [|c s IH]; intros cur acr Hcr.
  - destruct cur; [reflexivity|]. cbn [lines_from text_symbols nonempty].
    unfold symbols. simpl. now rewrite app_nil_r.
  - cbn [lines_from text_symbols].
    destruct (acr && ch c LF) eqn:E1.
    + unfold symbols. cbn [flat_map]. fold (symbols (lines_from [] false s)).
      rewrite IH by discriminate. cbn [rev map app nonempty].
      rewrite map_app, <- !app_assoc. reflexivity.
    + destruct acr.
      * destruct cur as [|c0 cur]; [now destruct Hcr|].
        simpl in E1. rewrite E1.
        unfold symbols. cbn [flat_map app].
        fold (symbols (lines_from [c] (ch c CR) s)).
        rewrite IH by discriminate. cbn [nonempty rev map app].
        rewrite <- !app_assoc. reflexivity.
      * cbn [app]. destruct (ch c LF).
        -- unfold symbols. cbn [flat_map].
           fold (symbols (lines_from [] false s)).
           rewrite IH by discriminate. cbn [rev map app nonempty].
           rewrite map_app, <- !app_assoc. reflexivity.
        -- rewrite IH by discriminate. cbn [rev nonempty].
           rewrite map_app, <- !app_assoc. reflexivity.
Qed.

(** The reader on the lines of a text. *)
Lemma reader_of_text text :
  reader_of (file_lines text) = reader_on parse_reset (text_symbols false false text).
Proof.
  unfold reader_of, file_lines.
  rewrite reader_from_symbols, symbols_of_lines by discriminate.
  reflexivity.
Qed.
(** ** The steps of the parser *)

Lemma special_false c :
  special c = false ->
  ch c delimiter = false /\ ch c quotechar = false
  /\ ch c LF = false /\ ch c CR = false.
Proof.
  unfold special. intros H.
  apply orb_false_iff in H as [H H4]. apply orb_false_iff in H as [H H3].
  apply orb_false_iff in H as [H1 H2]. auto.
Qed.

Lemma add_char_room flds buf st c :
  len buf < field_size_limit ->
  parse_add_char (Reader flds buf st) c = Some (Reader flds (buf ++ [c]) st).
Proof.
  intros H. unfold parse_add_char, field_len. cbn [field fields state].
  fold (len buf). destruct (Z.leb_spec field_size_limit (len buf)); [lia|].
  reflexivity.
Qed.

Ltac step :=
  unfold parse_process_char, parse_save_field, set_state;
  cbn -[parse_add_char field_size_limit];
  repeat match goal with
    | H : ch _ _ = _ |- _ => progress (cbn in H)
    end;
  repeat match goal with
    | H : ch _ _ = _ |- _ => rewrite H
    end;
  cbn -[parse_add_char field_size_limit];
  rewrite ?add_char_room by assumption;
  try reflexivity.

Lemma step_in_field flds buf c :
  special c = false -> len buf < field_size_limit ->
  parse_process_char (Reader flds buf IN_FIELD) (Some c)
  = Some (Reader flds (buf ++ [c]) IN_FIELD).
Proof. intros (H1 & H2 & H3 & H4)%special_false Hroom. step. Qed.

Lemma step_field_full flds buf c :
  special c = false -> field_size_limit <= len buf ->
  parse_process_char (Reader flds buf IN_FIELD) (Some c) = None.
Proof.
  intros (H1 & H2 & H3 & H4)%special_false Hfull.
  assert (Hadd : parse_add_char (Reader flds buf IN_FIELD) c = None).
  { unfold parse_add_char, field_len. cbn [field]. fold (len buf).
    destruct (Z.leb_spec field_size_limit (len buf)); [reflexivity | lia]. }
  unfold parse_process_char, parse_save_field, set_state.
  cbn -[parse_add_char field_size_limit].
  repeat match goal with
    | H : ch _ _ = _ |- _ => progress (cbn in H)
    end.
  rewrite H1, H3, H4. cbn -[parse_add_char field_size_limit].
  now rewrite Hadd.
Qed.

Lemma step_start_field flds buf c :
  special c = false -> len buf < field_size_limit ->
  parse_process_char (Reader flds buf START_FIELD) (Some c)
  = Some (Reader flds (buf ++ [c]) IN_FIELD).
Proof. intros (H1 & H2 & H3 & H4)%special_false Hroom. step. Qed.

Lemma step_open_quote flds buf :
  parse_process_char (Reader flds buf START_FIELD) (Some quotechar)
  = Some (Reader flds buf IN_QUOTED_FIELD).
Proof. reflexivity. Qed.

Lemma step_in_quotes flds buf c :
  ch c quotechar = false -> len buf < field_size_limit ->
  parse_process_char (Reader flds buf IN_QUOTED_FIELD) (Some c)
  = Some (Reader flds (buf ++ [c]) IN_QUOTED_FIELD).
Proof. intros H Hroom. step. Qed.

Lemma step_quote_in_quotes flds buf :
  parse_process_char (Reader flds buf IN_QUOTED_FIELD) (Some quotechar)
  = Some (Reader flds buf QUOTE_IN_QUOTED_FIELD).
Proof. reflexivity. Qed.

Lemma step_doubled_quote flds buf :
  len buf < field_size_limit ->
  parse_process_char (Reader flds buf QUOTE_IN_QUOTED_FIELD) (Some quotechar)
  = Some (Reader flds (buf ++ [quotechar]) IN_QUOTED_FIELD).
Proof. intros Hroom. step. Qed.

Lemma step_eol_in_quotes flds buf :
  parse_process_char (Reader flds buf IN_QUOTED_FIELD) None
  = Some (Reader flds buf IN_QUOTED_FIELD).
Proof. reflexivity. Qed.

Lemma step_start_record flds buf c :
  ch c LF = false -> ch c CR = false ->
  parse_process_char (Reader flds buf START_RECORD) (Some c)
  = parse_process_char (Reader flds buf START_FIELD) (Some c).
Proof. intros H1 H2. step. Qed.

Lemma holds_start_field flds : holds (Reader flds [] START_FIELD) [].
Proof. split; reflexivity. Qed.

Lemma holds_in_field flds buf : holds (Reader flds buf IN_FIELD) buf.
Proof. split; reflexivity. Qed.

Lemma holds_after_quote flds buf :
  holds (Reader flds buf QUOTE_IN_QUOTED_FIELD) buf.
Proof. split; reflexivity. Qed.
(** ** Reading a field *)

Lemma len_app {A} (l1 l2 : list A) : len (l1 ++ l2) = len l1 + len l2.
Proof. unfold len. rewrite length_app. lia. Qed.

Lemma len_cons {A} (a : A) l : len (a :: l) = 1 + len l.
Proof. unfold len. cbn [List.length]. lia. Qed.

Lemma len_nonneg {A} (l : list A) : 0 <= len l.
Proof. unfold len. lia. Qed.

Lemma text_symbols_plain pending c s :
  ch c LF = false ->
  text_symbols pending false (c :: s)
  = Some c :: text_symbols true (ch c CR) s.
Proof. intros H. cbn [text_symbols andb app]. now rewrite H. Qed.

(** A field written without quotes. *)
Lemma read_plain f : existsb special f = false ->
  forall flds buf pending rest,
  len buf + len f <= field_size_limit ->
  reader_on (Reader flds buf IN_FIELD) (text_symbols pending false (f ++ rest))
  = reader_on (Reader flds (buf ++ f) IN_FIELD)
      (text_symbols (pending || nonempty f) false rest).
Proof.
  induction f as [|c f IH]; intros Hf flds buf pending rest Hlen.
  - cbn [app nonempty]. now rewrite app_nil_r, orb_false_r.
  - cbn [existsb] in Hf. apply orb_false_iff in Hf as [Hc Hf].
    rewrite len_cons in Hlen. pose proof (len_nonneg f).
    destruct (special_false _ Hc) as (_ & _ & H3 & H4).
    cbn [app]. rewrite text_symbols_plain, H4 by assumption.
    cbn [reader_on]. rewrite step_in_field by (assumption || lia).
    rewrite IH by (assumption || (rewrite len_app, len_cons; cbn; lia)).
    rewrite <- app_assoc. cbn [app nonempty]. now rewrite orb_true_r.
Qed.

Lemma doubled_plain f : existsb special f = false -> doubled f = f.
Proof.
  induction f as [|c f IH]; [reflexivity|]. cbn [existsb]. intros H.
  apply orb_false_iff in H as [Hc Hf].
  destruct (special_false _ Hc) as (_ & H2 & _).
  unfold doubled. cbn [flat_map]. rewrite H2. cbn [app]. f_equal.
  now apply IH.
Qed.

Lemma skip_eol_in_quotes flds buf (b : bool) syms :
  reader_on (Reader flds buf IN_QUOTED_FIELD) ((if b then [None] else []) ++ syms)
  = reader_on (Reader flds buf IN_QUOTED_FIELD) syms.
Proof. destruct b; reflexivity. Qed.

Lemma text_symbols_quote pending after_cr s :
  text_symbols pending after_cr (quotechar :: s)
  = (if after_cr then [None] else []) ++
    Some quotechar :: text_symbols true false s.
Proof.
  cbn [text_symbols]. change (ch quotechar LF) with false.
  change (ch quotechar CR) with false. now rewrite andb_false_r.
Qed.

(** A field written between quotes, after the opening quote. *)
Lemma read_quoted f : forall flds buf pending after_cr rest,
  len buf + len f <= field_size_limit ->
  reader_on (Reader flds buf IN_QUOTED_FIELD)
    (text_symbols pending after_cr (doubled f ++ quotechar :: rest))
  = reader_on (Reader flds (buf ++ f) QUOTE_IN_QUOTED_FIELD)
      (text_symbols true false rest).
Proof.
  induction f as [|c f IH]; intros flds buf pending acr rest Hlen.
  - cbn [doubled flat_map app]. rewrite text_symbols_quote.
    rewrite skip_eol_in_quotes, app_nil_r. reflexivity.
  - rewrite len_cons in Hlen. pose proof (len_nonneg f).
    assert (Hnext : len (buf ++ [c]) + len f <= field_size_limit)
      by (rewrite len_app, len_cons; cbn; lia).
    unfold doubled. cbn [flat_map]. fold (doubled f).
    destruct (ch c quotechar) eqn:Eq.
    + apply Ascii.eqb_eq in Eq. subst c. cbn [app].
      rewrite text_symbols_quote, skip_eol_in_quotes.
      rewrite text_symbols_plain by reflexivity. cbn [reader_on].
      rewrite step_quote_in_quotes. cbn [reader_on].
      rewrite step_doubled_quote by lia.
      rewrite IH by assumption. now rewrite <- app_assoc.
    + cbn [app text_symbols]. destruct (acr && ch c LF) eqn:E1.
      * cbn [reader_on]. rewrite step_in_quotes by (assumption || lia).
        rewrite step_eol_in_quotes. cbn [state parser_state_eqb].
        rewrite IH by assumption. now rewrite <- app_assoc.
      * rewrite skip_eol_in_quotes. cbn [reader_on].
        rewrite step_in_quotes by (assumption || lia).
        destruct (ch c LF).
        -- cbn [reader_on]. rewrite step_eol_in_quotes.
           cbn [state parser_state_eqb].
           rewrite IH by assumption. now rewrite <- app_assoc.
        -- rewrite IH by assumption. now rewrite <- app_assoc.
Qed.

Lemma join_append_data_spec f :
  join_append_data f = (doubled f, existsb special f).
Proof.
  induction f as [|c f IH]; [reflexivity|].
  cbn [join_append_data]. rewrite IH. unfold doubled. cbn [flat_map existsb].
  unfold special at 2. destruct (ch c quotechar) eqn:Eq.
  - rewrite orb_true_r. reflexivity.
  - rewrite orb_false_r.
    destruct (ch c delimiter || ch c LF || ch c CR); reflexivity.
Qed.

(** What the writer writes for a field. *)
Lemma join_append_spec f :
  join_append (Some f) false
  = if existsb special f then quotechar :: doubled f ++ [quotechar] else f.
Proof.
  unfold join_append. rewrite join_append_data_spec. cbn [orb].
  destruct (existsb special f) eqn:E; [reflexivity|].
  now apply doubled_plain.
Qed.

(** From the start of a field, the reader comes to hold the field. *)
Lemma read_field f flds pending rest :
  fits f ->
  exists r pending',
    fields r = flds /\ holds r f
    /\ reader_on (Reader flds [] START_FIELD)
         (text_symbols pending false (join_append (Some f) false ++ rest))
       = reader_on r (text_symbols pending' false rest).
Proof.
  unfold fits. intros Hfit. rewrite join_append_spec.
  destruct (existsb special f) eqn:E.
  - exists (Reader flds ([] ++ f) QUOTE_IN_QUOTED_FIELD), true.
    split; [reflexivity|]. split; [apply holds_after_quote|].
    cbn [app]. rewrite text_symbols_plain by reflexivity.
    cbn [reader_on]. rewrite step_open_quote.
    rewrite <- app_assoc. cbn [app]. now apply read_quoted.
  - destruct f as [|c f].
    + exists (Reader flds [] START_FIELD), pending.
      split; [reflexivity|]. split; [apply holds_start_field|reflexivity].
    + exists (Reader flds (([] ++ [c]) ++ f) IN_FIELD), (true || nonempty f).
      split; [reflexivity|]. split; [apply holds_in_field|].
      cbn [existsb] in E. apply orb_false_iff in E as [Hc Hf].
      destruct (special_false _ Hc) as (_ & _ & H3 & H4).
      rewrite len_cons in Hfit. pose proof (len_nonneg f).
      cbn [app]. rewrite text_symbols_plain, H4 by assumption.
      cbn [reader_on]. rewrite step_start_field by (assumption || reflexivity).
      apply read_plain; [assumption|].
      cbn [app]. rewrite len_cons. change (len (@nil ascii)) with 0. lia.
Qed.
(** ** Reading a record *)

Lemma text_symbols_end_of_record pending rest :
  text_symbols pending false (lineterminator ++ rest)
  = Some CR :: Some LF :: None :: text_symbols false false rest.
Proof. reflexivity. Qed.

(** The end of the record, for a reader that holds its last field. *)
Lemma read_end_of_record r g pending rest :
  holds r g ->
  reader_on r (text_symbols pending false (lineterminator ++ rest))
  = Yield (fields r ++ [g])
      (reader_on parse_reset (text_symbols false false rest)).
Proof.
  intros [_ Hcr]. rewrite text_symbols_end_of_record.
  cbn [reader_on]. rewrite Hcr. reflexivity.
Qed.

(** The fields after the first, each after its delimiter. *)
Lemma read_more_fields row : Forall fits row ->
  forall r g pending rest,
  holds r g ->
  reader_on r
    (text_symbols pending false
       (join_fields false (map Some row) ++ lineterminator ++ rest))
  = Yield (fields r ++ g :: row)
      (reader_on parse_reset (text_symbols false false rest)).
Proof.
  induction row as [|f row IH]; intros Hrow r g pending rest Hr.
  - cbn [map join_fields app]. now apply read_end_of_record.
  - inversion Hrow as [|? ? Hf Hrow']; subst.
    cbn [map join_fields]. rewrite <- !app_assoc. cbn [app].
    rewrite text_symbols_plain by reflexivity.
    cbn [reader_on]. rewrite (proj1 Hr).
    destruct (read_field f (fields r ++ [g]) true
                (join_fields false (map Some row) ++ lineterminator ++ rest)
                Hf)
      as (r' & pending' & Hflds & Hholds & Hread).
    change (ch delimiter CR) with false. rewrite Hread.
    rewrite (IH Hrow' r' f pending' rest Hholds), Hflds.
    now rewrite <- app_assoc.
Qed.

Lemma join_fields_first f row :
  join_fields true (Some f :: row)
  = join_append (Some f) false ++ join_fields false row.
Proof. reflexivity. Qed.

Lemma reader_on_start_record c syms flds buf :
  ch c LF = false -> ch c CR = false ->
  reader_on (Reader flds buf START_RECORD) (Some c :: syms)
  = reader_on (Reader flds buf START_FIELD) (Some c :: syms).
Proof.
  intros H1 H2. cbn [reader_on]. now rewrite step_start_record.
Qed.

(** The first character a record is written with is not a line end. *)
Lemma first_character f row c text :
  join_fields true (map Some (f :: row)) = c :: text ->
  ch c LF = false /\ ch c CR = false.
Proof.
  cbn [map]. rewrite join_fields_first, join_append_spec.
  destruct (existsb special f) eqn:E.
  - cbn [app]. intros [= <- _]. split; reflexivity.
  - destruct f as [|c' f].
    + destruct row as [|f' row]; [discriminate|].
      cbn [map join_fields app]. intros [= <- _]. split; reflexivity.
    + cbn [app]. intros [= <- _]. cbn [existsb] in E.
      apply orb_false_iff in E as [Hc _].
      destruct (special_false _ Hc) as (_ & _ & H3 & H4). auto.
Qed.

(** A record that is written is read back, and the reader is ready for the
    next record. *)
Lemma read_row row rest :
  Forall fits row ->
  reader_on parse_reset
    (text_symbols false false (writerow (map Some row) ++ rest))
  = Yield row (reader_on parse_reset (text_symbols false false rest)).
Proof.
  intros Hrow. unfold writerow. destruct row as [|f row]; [reflexivity|].
  inversion Hrow as [|? ? Hf Hrow']; subst.
  destruct (join_fields true (map Some (f :: row))) as [|c text] eqn:E.
  - (* one empty field, written as a pair of quotes *)
    cbn [map] in E. rewrite join_fields_first, join_append_spec in E.
    apply app_eq_nil in E as [E1 E2].
    destruct (existsb special f); [discriminate|]. subst f.
    destruct row; [|discriminate]. reflexivity.
  - destruct (first_character _ _ _ _ E) as [H1 H2].
    cbn [map]. rewrite <- E, <- app_assoc.
    assert (Hhead : forall s, text_symbols false false ((c :: text) ++ s)
                     = Some c :: text_symbols true (ch c CR) (text ++ s)).
    { intros s. cbn [app]. now apply text_symbols_plain. }
    unfold parse_reset.
    rewrite E at 1. rewrite Hhead, reader_on_start_record by assumption.
    rewrite <- Hhead, <- E. cbn [map].
    rewrite join_fields_first, <- app_assoc.
    destruct (read_field f [] false
                (join_fields false (map Some row) ++ lineterminator ++ rest)
                Hf)
      as (r' & pending' & Hflds & Hholds & Hread).
    rewrite Hread, (read_more_fields row Hrow' r' f pending' rest Hholds).
    now rewrite Hflds.
Qed.

(** The records that are written are read back. *)
Theorem read_rows rows :
  Forall (Forall fits) rows ->
  reader_of (file_lines (flat_map (fun row => writerow (map Some row)) rows))
  = yield_all rows.
Proof.
  intros Hrows. rewrite reader_of_text.
  induction Hrows as [|row rows Hrow _ IH]; [reflexivity|].
  cbn [flat_map yield_all]. rewrite read_row by assumption. now rewrite IH.
Qed.
End CsvProofs.

(** * Saving and loading the contacts *)

Module PersistenceProofs.
Import ContactBook ContactSpec CsvSpec.

Lemma storable_row c :
  storable c ->
  exists p e a,
    c = entered (name c) p e a /\ Forall fits [name c; p; e; a].
Proof.
  unfold storable, record_fields. destruct c as [n [p|] [e|] [a|] [x|]];
    cbn [phone email address extra name]; try contradiction.
  intros H. now exists p, e, a.
Qed.

Lemma writerows_storable contacts :
  Forall storable contacts ->
  writerows contacts = (flat_map record_line contacts, None).
Proof.
  induction 1 as [|c l Hc _ IH]; [reflexivity|].
  destruct (storable_row c Hc) as (p & e & a & Hceq & _).
  cbn [writerows flat_map]. rewrite IH, Hceq. reflexivity.
Qed.

Lemma saved_text_rows contacts :
  Forall storable contacts ->
  saved_text contacts
  = flat_map (fun row => Csv.writerow (map Some row))
             (header_row :: map row_of contacts).
Proof.
  intros H. unfold saved_text. rewrite writerows_storable by assumption.
  cbn [flat_map fst]. f_equal.
  induction H as [|c l Hc _ IH]; [reflexivity|].
  cbn [flat_map map]. rewrite IH. f_equal.
  destruct (storable_row c Hc) as (p & e & a & Hceq & _).
  rewrite Hceq. reflexivity.
Qed.

Lemma rows_fit contacts :
  Forall storable contacts ->
  Forall (Forall fits) (header_row :: map row_of contacts).
Proof.
  intros H. constructor.
  - repeat constructor; discriminate.
  - induction H as [|c l Hc _ IH]; constructor; [|exact IH].
    unfold storable, row_of in *. destruct (record_fields c); tauto.
Qed.

Lemma DictReader_rows contacts :
  Forall storable contacts ->
  DictReader (yield_all (map row_of contacts)) = yield_all contacts.
Proof.
  induction 1 as [|c l Hc _ IH]; [reflexivity|].
  destruct (storable_row c Hc) as (p & e & a & Hceq & _).
  cbn [map yield_all]. rewrite Hceq at 1. cbn [row_of record_fields entered
    phone email address extra name DictReader].
  rewrite IH. f_equal. now rewrite Hceq at 2.
Qed.

Lemma append_rows_all l : forall acc,
  append_rows acc (yield_all l) = (acc ++ l, None).
Proof.
  induction l as [|c l IH]; intros acc; cbn [yield_all append_rows].
  - now rewrite app_nil_r.
  - rewrite IH, <- app_assoc. reflexivity.
Qed.

(** Loading the text that [save_contacts] wrote. *)
Lemma load_saved contacts ins out :
  Forall storable contacts ->
  load_contacts (World ins out (Some (saved_text contacts)))
  = (Ok contacts, World ins out (Some (saved_text contacts))).
Proof.
  intros H. unfold load_contacts, bind, read_file. cbn [disk].
  rewrite (saved_text_rows contacts H).
  rewrite (CsvProofs.read_rows _ (rows_fit contacts H)).
  cbn [yield_all DictReader header_row CONTACT_FIELDS map].
  rewrite (DictReader_rows contacts H).
  change (negb (str_eqb (name (row_dict (key_text K_name)
            [key_text K_phone; key_text K_email; key_text K_address]))
            (lit "name"))) with false.
  cbv iota. rewrite append_rows_all. reflexivity.
Qed.
(** ** No field longer than the limit is ever read *)

Lemma parse_add_char_bounded r c r' :
  bounded r -> Csv.parse_add_char r c = Some r' -> bounded r'.
Proof.
  unfold Csv.parse_add_char, Csv.field_len, bounded. intros [Hfs Hf].
  fold (len (Csv.field r)).
  destruct (Z.leb_spec Csv.field_size_limit (len (Csv.field r))) as [|Hlt];
    [discriminate|].
  intros [= <-]. cbn [Csv.fields Csv.field]. split; [assumption|].
  unfold fits. rewrite CsvProofs.len_app, CsvProofs.len_cons.
  change (len (@nil ascii)) with 0. lia.
Qed.

Lemma parse_save_field_bounded r :
  bounded r -> bounded (Csv.parse_save_field r).
Proof.
  unfold bounded, Csv.parse_save_field. cbn [Csv.fields Csv.field].
  intros [Hfs Hf]. split.
  - apply Forall_app. split; [assumption|]. now constructor.
  - unfold fits. discriminate.
Qed.

Lemma set_state_bounded r s : bounded r -> bounded (Csv.set_state r s).
Proof. intros H. exact H. Qed.

Lemma parse_process_char_bounded r x r' :
  bounded r -> Csv.parse_process_char r x = Some r' -> bounded r'.
Proof.
  intros Hr. unfold Csv.parse_process_char.
  assert (Hadd : forall r0 s r1, bounded r0 ->
    match x with
    | Some d => option_map (fun r2 => Csv.set_state r2 s)
                  (Csv.parse_add_char r0 d)
    | None => Some (Csv.set_state r0 s)
    end = Some r1 -> bounded r1).
  { intros r0 s r1 Hr0. destruct x as [d|].
    - destruct (Csv.parse_add_char r0 d) as [r2|] eqn:E; [|discriminate].
      intros [= <-]. apply set_state_bounded.
      exact (parse_add_char_bounded _ _ _ Hr0 E).
    - intros [= <-]. exact Hr0. }
  pose proof (parse_save_field_bounded r Hr) as Hsave.
  pose proof (parse_save_field_bounded (Csv.set_state r Csv.START_FIELD) Hr)
    as Hsave'.
  destruct (Csv.state r);
    repeat match goal with
      | |- context [if ?b then _ else _] => destruct b
      end;
    try (intros [= <-]; assumption);
    try discriminate;
    try (apply Hadd; assumption).
Qed.

Lemma feed_line_bounded l : forall r r',
  bounded r -> Csv.feed_line r l = Some r' -> bounded r'.
Proof.
  induction l as [|c l IH]; intros r r' Hr; cbn [Csv.feed_line].
  - now intros [= <-].
  - destruct (Csv.parse_process_char r (Some c)) as [r1|] eqn:E;
      [|discriminate].
    apply IH. exact (parse_process_char_bounded _ _ _ Hr E).
Qed.

Lemma parse_reset_bounded : bounded Csv.parse_reset.
Proof. split; [constructor | unfold fits; discriminate]. Qed.

Lemma reader_from_bounded lines : forall r,
  bounded r -> iter_all (Forall fits) (Csv.reader_from r lines).
Proof.
  induction lines as [|l ls IH]; intros r Hr; cbn [Csv.reader_from].
  - destruct (_ || _); cbn [iter_all]; [|exact I].
    split; [|exact I]. apply (parse_save_field_bounded r Hr).
  - destruct (Csv.feed_line r l) as [r1|] eqn:E1; [|exact I].
    pose proof (feed_line_bounded _ _ _ Hr E1) as Hr1.
    destruct (Csv.parse_process_char r1 None) as [r2|] eqn:E2; [|exact I].
    pose proof (parse_process_char_bounded _ _ _ Hr1 E2) as Hr2.
    destruct (Csv.parser_state_eqb (Csv.state r2) Csv.START_RECORD).
    + cbn [iter_all]. split; [apply Hr2|].
      apply IH, parse_reset_bounded.
    + now apply IH.
Qed.

Lemma DictReader_bounded rows :
  iter_all (Forall fits) rows -> iter_all name_fits (DictReader rows).
Proof.
  induction rows as [| row next IH |]; cbn [DictReader iter_all]; auto.
  intros [Hrow Hnext]. destruct row as [|first others]; [now apply IH|].
  cbn [iter_all]. split; [|now apply IH].
  now inversion Hrow.
Qed.

Lemma append_rows_bounded reader : forall acc,
  Forall name_fits acc -> iter_all name_fits reader ->
  Forall name_fits (fst (append_rows acc reader)).
Proof.
  induction reader as [| row next IH |]; intros acc Hacc;
    cbn [append_rows iter_all fst]; auto.
  intros [Hrow Hnext]. apply IH; [|assumption].
  apply Forall_app. split; [assumption|]. now constructor.
Qed.

(** Whatever the backing file holds, the names that are loaded are within
    the field size limit. *)
Lemma loaded_names_fit w l w' :
  load_contacts w = (Ok l, w') -> Forall name_fits l.
Proof.
  unfold load_contacts, bind, read_file.
  destruct (disk w) as [text|]; [|intros [= <- _]; constructor].
  pose proof (DictReader_bounded _
    (reader_from_bounded (file_lines text) _ parse_reset_bounded)) as Hall.
  fold (Csv.reader_of (file_lines text)) in Hall.
  destruct (DictReader (Csv.reader_of (file_lines text)))
    as [| first_row next |e].
  - intros [= <- _]. constructor.
  - destruct Hall as [Hfirst Hnext].
    assert (Hres : Forall name_fits
      (fst (append_rows
              (if negb (str_eqb (name first_row) (lit "name"))
               then [first_row] else []) next))).
    { apply append_rows_bounded; [|assumption].
      destruct (negb _); repeat constructor; assumption. }
    destruct (append_rows _ next) as [contacts_list [e|]];
      cbn [fst] in Hres; unfold print, ret; cbn; intros [= <- _]; assumption.
  - unfold print, ret. cbn. intros [= <- _]. constructor.
Qed.

Lemma len_iter n (c : ascii) : len (N.iter n (cons c) []) = Z.of_N n.
Proof.
  unfold len. induction n as [|n IH] using N.peano_ind; [reflexivity|].
  rewrite N.iter_succ. cbn [List.length]. rewrite Nat2Z.inj_succ, IH. lia.
Qed.

Lemma name_entered n p e a : name (entered n p e a) = n.
Proof. reflexivity. Qed.

Lemma long_name_does_not_fit : ~ fits long_name.
Proof.
  unfold fits, long_name. rewrite len_iter. unfold Csv.field_size_limit. lia.
Qed.



(** ** A name that is too long *)

Lemma iter_snoc n (c : ascii) :
  N.iter (N.succ n) (cons c) [] = N.iter n (cons c) [] ++ [c].
Proof.
  induction n as [|n IH] using N.peano_ind; [reflexivity|].
  rewrite N.iter_succ, IH at 1. rewrite (N.iter_succ n). reflexivity.
Qed.

Lemma iter_plain n c :
  special c = false -> existsb special (N.iter n (cons c) []) = false.
Proof.
  intros Hc. induction n as [|n IH] using N.peano_ind; [reflexivity|].
  rewrite N.iter_succ. cbn [existsb]. now rewrite Hc, IH.
Qed.

Lemma long_name_split :
  long_name = "a"%char :: N.iter 131071 (cons "a"%char) [] ++ ["a"%char].
Proof.
  unfold long_name. change 131073%N with (N.succ (N.succ 131071)).
  now rewrite N.iter_succ, iter_snoc.
Qed.

(** The reader fails on a first field of more characters than the limit. *)
Lemma too_long_is_refused first middle last rest :
  special first = false -> existsb special middle = false ->
  special last = false ->
  len middle = Csv.field_size_limit - 1 ->
  reader_on Csv.parse_reset
    (text_symbols false false ((first :: middle ++ [last]) ++ rest))
  = Throw CsvError.
Proof.
  intros Hfirst Hmiddle Hlast Hlen.
  destruct (CsvProofs.special_false _ Hfirst) as (_ & _ & H3 & H4).
  destruct (CsvProofs.special_false _ Hlast) as (_ & _ & H3' & _).
  cbn [app]. rewrite CsvProofs.text_symbols_plain by assumption.
  unfold Csv.parse_reset.
  rewrite CsvProofs.reader_on_start_record by assumption.
  cbn [reader_on]. rewrite CsvProofs.step_start_field by easy.
  rewrite H4, <- app_assoc.
  rewrite CsvProofs.read_plain;
    [| assumption
     | rewrite Hlen; cbn [app]; rewrite CsvProofs.len_cons;
       change (len (@nil ascii)) with 0; lia ].
  cbn [app]. rewrite CsvProofs.text_symbols_plain by assumption.
  cbn [reader_on].
  rewrite CsvProofs.step_field_full; [reflexivity | assumption |].
  cbn [app]. rewrite CsvProofs.len_cons, Hlen. lia.
Qed.

Lemma long_name_is_refused rest :
  reader_on Csv.parse_reset (text_symbols false false (long_name ++ rest))
  = Throw CsvError.
Proof.
  rewrite long_name_split. apply too_long_is_refused.
  - reflexivity.
  - apply iter_plain. reflexivity.
  - reflexivity.
  - rewrite len_iter. reflexivity.
Qed.

Lemma writerow_plain_first f row :
  f <> [] -> existsb special f = false ->
  Csv.writerow (Some f :: row)
  = f ++ Csv.join_fields false row ++ Csv.lineterminator.
Proof.
  intros Hne Hplain. unfold Csv.writerow.
  rewrite CsvProofs.join_fields_first, CsvProofs.join_append_spec, Hplain.
  destruct f as [|c f]; [congruence|]. cbn [app].
  now rewrite <- app_assoc.
Qed.

Lemma writerows_one n p e a :
  n <> [] -> existsb special n = false ->
  fst (writerows [entered n p e a])
  = n ++ Csv.join_fields false [Some p; Some e; Some a]
      ++ Csv.lineterminator.
Proof.
  intros Hne Hplain.
  cbn [writerows dict_to_list entered extra name phone email address fst].
  rewrite (writerow_plain_first _ _ Hne Hplain), app_nil_r. reflexivity.
Qed.

Lemma long_name_plain : long_name <> [] /\ existsb special long_name = false.
Proof.
  split.
  - rewrite long_name_split. discriminate.
  - apply iter_plain. reflexivity.
Qed.

(** Loading the file in which a contact with that name was saved: the
    header is read, the reader fails on the line of the contact, and
    nothing is loaded. *)
Lemma load_long_name p e a ins out :
  load_contacts
    (World ins out (Some (saved_text [entered long_name p e a])))
  = (Ok [],
     World ins (out ++ [Error_loading CsvError])
       (Some (saved_text [entered long_name p e a]))).
Proof.
  unfold load_contacts, bind, read_file. cbn [disk].
  assert (Hread :
    Csv.reader_of (file_lines (saved_text [entered long_name p e a]))
    = Yield header_row (Throw CsvError)).
  { rewrite CsvProofs.reader_of_text. unfold saved_text, writeheader.
    destruct long_name_plain as [Hne Hplain].
    rewrite (writerows_one long_name p e a Hne Hplain).
    change (map (fun k : key => Some (key_text k)) CONTACT_FIELDS)
      with (map Some header_row).
    rewrite CsvProofs.read_row by (repeat constructor; discriminate).
    apply f_equal, long_name_is_refused. }
  rewrite Hread. reflexivity.
Qed.


(** The rule of [load_contacts] for the first row, on a file that has no
    header row: a first contact whose name is the word name is taken for
    the header and is not loaded. *)
Example first_contact_named_name_is_skipped :
  load_contacts
    (World [] []
       (Some (lit "name,1,n@example.org," ++ [CR; LF]
                ++ lit "Bob,2,bob@example.org," ++ [CR; LF])))
  = (Ok [entered (lit "Bob") (lit "2") (lit "bob@example.org") []],
     World [] []
       (Some (lit "name,1,n@example.org," ++ [CR; LF]
                ++ lit "Bob,2,bob@example.org," ++ [CR; LF]))).
Proof. reflexivity. Qed.
End PersistenceProofs.

(** * The loops do not run out of fuel *)

Section Fuel.
Variables O F : Type.

Lemma within_mono A n m (r : res A * world O F) :
  (n <= m)%nat -> within n r -> within m r.
Proof. intros Hnm [H1 H2]. split; [assumption | lia]. Qed.

Lemma tame_ret A (a : A) : tame (@ret O F A a).
Proof. intros w. split; [discriminate | reflexivity]. Qed.

Lemma tame_raise A e : e <> OutOfFuel -> tame (@raise O F A e).
Proof. intros He w. split; [intros [= H]; contradiction | reflexivity]. Qed.

Lemma tame_print m : tame (@print O F m).
Proof. intros w. split; [discriminate | reflexivity]. Qed.

Lemma tame_read_file : tame (@read_file O F).
Proof. intros w. split; [discriminate | reflexivity]. Qed.

Lemma tame_write_file f : tame (@write_file O F f).
Proof. intros w. split; [discriminate | reflexivity]. Qed.

Lemma tame_input p : tame (@input O F p).
Proof.
  intros w. unfold input. destruct (stdin w); split; cbn; try discriminate; lia.
Qed.

Lemma within_bind A B n (c : M O F A) (k : A -> M O F B) w :
  within n (c w) ->
  (forall a w', (List.length (stdin w') <= n)%nat -> within n (k a w')) ->
  within n (bind c k w).
Proof.
  unfold bind. intros [H1 H2] Hk. destruct (c w) as [[a|e] w']; cbn in *.
  - now apply Hk.
  - split; [|assumption]. intros [= ->]. now apply H1.
Qed.

Lemma tame_bind A B (c : M O F A) (k : A -> M O F B) :
  tame c -> (forall a, tame (k a)) -> tame (bind c k).
Proof.
  intros Hc Hk w. apply within_bind; [apply Hc|].
  intros a w' Hw'. eapply within_mono; [exact Hw' | apply Hk].
Qed.

Lemma tame_try_except A (c : M O F A) h :
  tame c -> (forall e k, h e = Some k -> tame k) -> tame (try_except c h).
Proof.
  intros Hc Hh w. unfold try_except. destruct (Hc w) as [H1 H2].
  destruct (c w) as [[a|e] w']; cbn in *; [now split|].
  destruct (h e) as [k|] eqn:E; [|now split].
  eapply within_mono; [exact H2 | apply (Hh e k E)].
Qed.

(** After [input] one line less is left. *)
Lemma within_input_bind B n p (k : str -> M O F B) w :
  (forall l ls, stdin w = l :: ls ->
     within n (k l (World ls (stdout w ++ [p]) (disk w)))) ->
  within n (bind (input p) k w).
Proof.
  intros Hk. unfold bind, input. destruct (stdin w) as [|l ls] eqn:E.
  - split; cbn; [discriminate | lia].
  - now apply Hk.
Qed.

Lemma reads_input p : reads (@input O F p).
Proof.
  intros w. unfold input. destruct (stdin w); cbn; [now left | right; lia].
Qed.

Lemma reads_bind A B (c : M O F A) (k : A -> M O F B) :
  reads c -> (forall a, tame (k a)) -> reads (bind c k).
Proof.
  intros Hc Hk w. unfold bind. destruct (Hc w) as [H|H];
    destruct (c w) as [[a|e] w']; cbn in *.
  - discriminate.
  - left. now injection H as ->.
  - right. destruct (Hk a w') as [_ H']. lia.
  - now right.
Qed.

(** A loop whose body reads a line ends before its fuel does. *)
Lemma loop_within A (loop : nat -> M O F A) (body : M O F unit) :
  loop 0%nat = raise OutOfFuel ->
  (forall n, loop (S n) = bind body (fun _ => loop n)) ->
  tame body -> reads body ->
  forall fuel w,
    (List.length (stdin w) < fuel)%nat ->
    within (List.length (stdin w)) (loop fuel w).
Proof.
  intros H0 HS Htame Hreads fuel.
  induction fuel as [|n IH]; intros w Hlt; [lia|].
  rewrite HS. unfold bind.
  destruct (Htame w) as [H1 H2]. destruct (Hreads w) as [H|H];
    destruct (body w) as [[[]|e] w']; cbn in *.
  - discriminate.
  - injection H as ->. split; [discriminate | assumption].
  - eapply within_mono; [|apply IH]; lia.
  - split; [|assumption]. intros [= ->]. now apply H1.
Qed.

Lemma reads_try_except A (c : M O F A) h :
  reads c ->
  (forall e k, h e = Some k -> e <> EOFError /\ tame k) ->
  reads (try_except c h).
Proof.
  intros Hc Hh w. unfold try_except. destruct (Hc w) as [H|H];
    destruct (c w) as [[a|e] w']; cbn in *.
  - discriminate.
  - injection H as ->. destruct (h EOFError) as [k|] eqn:E; [|now left].
    now destruct (Hh _ _ E) as [Hne _].
  - now right.
  - destruct (h e) as [k|] eqn:E; [|now right].
    destruct (Hh _ _ E) as [_ Hk]. destruct (Hk w') as [_ H']. right. lia.
Qed.
End Fuel.

Ltac tame_handler :=
  let e := fresh "e" in
  let k := fresh "k" in
  let H := fresh "H" in
  intros e k H; destruct e; cbn in H; try discriminate;
  injection H as <-.

Create HintDb tame.

Ltac tame :=
  repeat first
    [ assumption
    | solve [auto with tame nocore]
    | apply tame_ret
    | apply tame_print
    | apply tame_input
    | apply tame_read_file
    | apply tame_write_file
    | apply tame_raise; discriminate
    | apply tame_bind; [|intros ?]
    | apply tame_try_except; [|tame_handler]
    | match goal with
      | |- tame (match ?x with _ => _ end) => destruct x
      | |- tame (let _ := _ in _) => cbv zeta
      end ].

Module FuelProofs.

Section CalculatorFuel.
Import Calc.
Context {N : Numbers}.

Lemma operation_raises op f a b e :
  lookup op OPERATION_MAP = Some f ->
  f a b = Raise e -> is_Exception e = true.
Proof.
  unfold OPERATION_MAP. cbn [lookup].
  repeat match goal with
    | |- context [str_eqb op ?k] => destruct (str_eqb op k)
    end;
    try discriminate; intros [= <-].
  - discriminate.
  - discriminate.
  - discriminate.
  - unfold divide_numbers. destruct (eq_zero b); [|discriminate].
    intros [= <-]. reflexivity.
  - apply float_pow_raises.
Qed.

Lemma read_number_tame p invalid : tame (read_number p invalid).
Proof. unfold read_number. tame. Qed.

Lemma read_number_reads p invalid : reads (read_number p invalid).
Proof.
  unfold read_number. apply reads_try_except.
  - apply reads_bind; [apply reads_input|]. intros line. tame.
  - intros e k H. destruct e; try discriminate. injection H as <-.
    split; [discriminate | tame].
Qed.

Lemma computation_tame op f a b :
  lookup op OPERATION_MAP = Some f ->
  tame
    (try_except
       (match f a b with
        | Raise e => raise e
        | Ok result =>
            bind (print Result_header)
                 (fun _ => print (Result a op b result))
        end)
       (fun e =>
          match e with
          | ZeroDivisionError msg =>
              Some (print (F := unit) (Calculation_error msg))
          | _ =>
              if is_Exception e then Some (print (Unexpected_error e))
              else None
          end)).
Proof.
  intros Hop. apply tame_try_except.
  - destruct (f a b) as [result|e] eqn:E; [tame|].
    apply tame_raise. intros ->.
    now pose proof (operation_raises _ _ _ _ _ Hop E).
  - tame_handler; tame.
Qed.

Lemma calculator_round_tame : tame calculator_round.
Proof.
  unfold calculator_round. apply tame_bind; [apply read_number_tame|].
  intros [number_a|]; [|tame]. apply tame_bind; [tame|]. intros line.
  cbv zeta. destruct (is_exit (strip line)); [tame|].
  destruct (lookup (strip line) OPERATION_MAP) as [f|] eqn:Hop; [|tame].
  apply tame_bind; [apply read_number_tame|]. intros [number_b|]; [|tame].
  now apply computation_tame.
Qed.

Lemma calculator_round_reads : reads calculator_round.
Proof.
  unfold calculator_round. apply reads_bind; [apply read_number_reads|].
  intros [number_a|]; [|tame]. apply tame_bind; [tame|]. intros line.
  cbv zeta. destruct (is_exit (strip line)); [tame|].
  destruct (lookup (strip line) OPERATION_MAP) as [f|] eqn:Hop; [|tame].
  apply tame_bind; [apply read_number_tame|]. intros [number_b|]; [|tame].
  now apply computation_tame.
Qed.

(** The calculator never runs out of fuel: it ends when it is told to
    exit or when standard input ends. *)
Theorem run_calculator_has_fuel w :
  fst (run_calculator w) <> Raise OutOfFuel
  /\ fst (main w) <> Raise OutOfFuel.
Proof.
  assert (Hrun : tame run_calculator).
  { unfold run_calculator. apply tame_bind; [tame|]. intros _ w1.
    unfold fuel_of.
    apply (loop_within _ _ _ calculator_loop calculator_round);
      [reflexivity | reflexivity | apply calculator_round_tame
      | apply calculator_round_reads | lia]. }
  split; [apply Hrun|].
  assert (Hmain : tame main).
  { unfold main. apply tame_try_except; [exact Hrun|]. tame_handler. tame. }
  apply Hmain.
Qed.
End CalculatorFuel.

Section ContactBookFuel.
Import ContactBook.

Lemma save_contacts_tame contacts : tame (save_contacts contacts).
Proof. unfold save_contacts. destruct (writerows contacts). tame. Qed.

Lemma load_contacts_tame : tame load_contacts.
Proof.
  unfold load_contacts. apply tame_bind; [tame|]. intros [text|]; [|tame].
  destruct (DictReader _) as [| first_row next |e].
  - tame.
  - destruct (append_rows _ next) as [contacts_list [e|]]; tame.
  - tame.
Qed.

Lemma get_validated_input_loop_within p vt fuel : forall w,
  (List.length (stdin w) < fuel)%nat ->
  within (List.length (stdin w)) (get_validated_input_loop fuel p vt w).
Proof.
  induction fuel as [|n IH]; intros w Hlt; [lia|].
  cbn [get_validated_input_loop]. apply within_input_bind.
  intros l ls Hw. rewrite Hw in *. cbn [List.length] in *.
  assert (Hagain : forall m,
    within (S (List.length ls))
      (bind (print m) (fun _ => get_validated_input_loop n p vt)
         (World ls (stdout w ++ [Ask p]) (disk w)))).
  { intros m. apply within_mono with (n := List.length ls); [lia|].
    apply within_bind.
    - apply (tame_print _ _ m (World ls (stdout w ++ [Ask p]) (disk w))).
    - intros _ w' Hw'. eapply within_mono; [exact Hw' | apply IH; lia]. }
  assert (Hret : forall v,
    within (S (List.length ls))
      (@ret message str str v (World ls (stdout w ++ [Ask p]) (disk w)))).
  { intros v. eapply within_mono; [|apply tame_ret]. cbn. lia. }
  cbv zeta. destruct (strip l) as [|c s]; [apply Hagain|].
  destruct (str_eqb vt (lit "email")).
  - destruct (negb _); [apply Hagain | apply Hret].
  - destruct (str_eqb vt (lit "phone")); [|apply Hret].
    destruct (negb _); [apply Hagain | apply Hret].
Qed.

Lemma get_validated_input_tame p vt : tame (get_validated_input p vt).
Proof.
  intros w. unfold get_validated_input, fuel_of.
  apply get_validated_input_loop_within. lia.
Qed.

#[local] Hint Resolve save_contacts_tame load_contacts_tame
  get_validated_input_tame : tame.

Lemma add_contact_tame contacts : tame (add_contact contacts).
Proof. unfold add_contact. tame. Qed.

Lemma print_entries_tame l : forall i, tame (print_entries i l).
Proof. induction l as [|c l IH]; intros i; cbn [print_entries]; tame. Qed.

#[local] Hint Resolve print_entries_tame : tame.

Lemma view_contact_list_tame contacts : tame (view_contact_list contacts).
Proof. unfold view_contact_list. tame. Qed.

Lemma print_found_tame l : tame (print_found l).
Proof. induction l as [|c l IH]; cbn [print_found]; tame. Qed.

Lemma found_contacts_raises term l e :
  found_contacts term l = Raise e -> e = AttributeError.
Proof.
  induction l as [|c l IH]; cbn [found_contacts]; [discriminate|].
  unfold search_test. destruct (contains term (lower (name c))).
  - destruct (found_contacts term l); [discriminate|]. intros [= <-]. auto.
  - destruct (phone c); [|now intros [= <-]].
    destruct (found_contacts term l); [discriminate|]. intros [= <-]. auto.
Qed.

#[local] Hint Resolve view_contact_list_tame print_found_tame : tame.

Lemma search_contact_tame contacts : tame (search_contact contacts).
Proof.
  unfold search_contact. destruct contacts as [|c l]; [tame|].
  apply tame_bind; [tame|]. intros line. cbv zeta.
  destruct (found_contacts _ _) as [found|e] eqn:E.
  - tame.
  - apply found_contacts_raises in E. subst. tame.
Qed.

Lemma update_field_tame c field : tame (update_field c field).
Proof. unfold update_field. tame. Qed.

#[local] Hint Resolve update_field_tame : tame.

Lemma update_fields_tame fields : forall c, tame (update_fields c fields).
Proof.
  induction fields as [|field rest IH]; intros c; cbn [update_fields]; tame.
Qed.

#[local] Hint Resolve update_fields_tame add_contact_tame
  search_contact_tame : tame.

Lemma update_contact_tame contacts : tame (update_contact contacts).
Proof. unfold update_contact. tame. Qed.

Lemma delete_contact_tame contacts : tame (delete_contact contacts).
Proof. unfold delete_contact. tame. Qed.

Lemma menu_loop_within fuel : forall contacts w,
  (List.length (stdin w) < fuel)%nat ->
  within (List.length (stdin w)) (menu_loop fuel contacts w).
Proof.
  induction fuel as [|n IH]; intros contacts w Hlt; [lia|].
  cbn [menu_loop]. apply within_bind; [apply tame_print|].
  intros _ w1 Hw1. apply within_mono with (n := List.length (stdin w1));
    [exact Hw1|].
  apply within_input_bind. intros l ls Hls. rewrite Hls in *.
  cbn [List.length] in *.
  apply within_mono with (n := List.length ls); [lia|].
  set (w2 := World ls (stdout w1 ++ [Ask Enter_choice]) (disk w1)).
  assert (Hnext : forall A (action : IO A) (k : A -> list contact),
            tame action ->
            within (List.length ls)
              (bind action (fun a => menu_loop n (k a)) w2)).
  { intros A action k Haction. apply within_bind; [apply (Haction w2)|].
    intros a w' Hw'. eapply within_mono; [exact Hw' | apply IH; lia]. }
  cbv zeta.
  repeat match goal with
    | |- context [if str_eqb ?a ?b then _ else _] => destruct (str_eqb a b)
    end.
  - apply (Hnext unit _ (fun _ => contacts)), view_contact_list_tame.
  - apply (Hnext _ _ (fun c => c)), add_contact_tame.
  - apply (Hnext unit _ (fun _ => contacts)), search_contact_tame.
  - apply (Hnext _ _ (fun c => c)), update_contact_tame.
  - apply (Hnext _ _ (fun c => c)), delete_contact_tame.
  - assert (H : tame (bind (print Exiting)
                        (fun _ => save_contacts contacts))) by tame.
    apply (H w2).
  - apply (Hnext unit _ (fun _ => contacts)), tame_print.
Qed.

(** The contact book never runs out of fuel: it ends at the exit choice,
    or when standard input ends. *)
Theorem contact_book_has_fuel w : fst (main_menu w) <> Raise OutOfFuel.
Proof.
  assert (H : tame main_menu).
  { unfold main_menu. apply tame_bind; [tame|]. intros contacts w1.
    unfold fuel_of. apply menu_loop_within. lia. }
  apply H.
Qed.
End ContactBookFuel.

Section TodoFuel.
Import Todo.

Lemma task_id_of_raises t e : task_id_of t = Raise e -> e <> OutOfFuel.
Proof. unfold task_id_of. destruct (id t); [discriminate|]. now intros [= <-]. Qed.

Lemma first_with_id_raises l k : forall i e,
  first_with_id l k i = Raise e -> e <> OutOfFuel.
Proof.
  induction l as [|t l IH]; intros i e; cbn [first_with_id]; [discriminate|].
  destruct (task_id_of t) as [n|e'] eqn:E.
  - destruct (n =? k); [discriminate | apply IH].
  - intros [= <-]. exact (task_id_of_raises _ _ E).
Qed.

Lemma find_task_by_id_raises l task_id e :
  find_task_by_id l task_id = Raise e -> e <> OutOfFuel.
Proof.
  unfold find_task_by_id. destruct (python_int task_id); [|discriminate].
  apply first_with_id_raises.
Qed.

Lemma without_id_raises l k e : without_id l k = Raise e -> e <> OutOfFuel.
Proof.
  induction l as [|t l IH]; cbn [without_id]; [discriminate|].
  destruct (task_id_of t) as [n|e'] eqn:E.
  - destruct (without_id l k); [discriminate|]. intros [= <-]. now apply IH.
  - intros [= <-]. exact (task_id_of_raises _ _ E).
Qed.

Lemma load_tasks_tame : tame load_tasks.
Proof. unfold load_tasks. tame. Qed.

Lemma save_tasks_tame l : tame (save_tasks l).
Proof. unfold save_tasks. tame. Qed.

#[local] Hint Resolve load_tasks_tame save_tasks_tame : tame.

Lemma add_task_tame today l : tame (add_task today l).
Proof. unfold add_task. tame. Qed.

Lemma print_tasks_tame l : tame (print_tasks l).
Proof.
  induction l as [|t l IH]; cbn [print_tasks]; [tame|]. cbv zeta.
  destruct (task_id_of t) as [n|e] eqn:E; [tame|].
  apply tame_raise. exact (task_id_of_raises _ _ E).
Qed.

#[local] Hint Resolve print_tasks_tame : tame.

Lemma view_tasks_tame l : tame (view_tasks l).
Proof. unfold view_tasks. tame. Qed.

Lemma mark_task_done_tame l : tame (mark_task_done l).
Proof.
  unfold mark_task_done. apply tame_bind; [tame|]. intros line. cbv zeta.
  destruct (find_task_by_id l (strip line)) as [[[i t]|]|e] eqn:E.
  - apply tame_bind; [tame|]. intros _.
    destruct (task_id_of _) as [n|e] eqn:E'; [tame|].
    apply tame_raise. exact (task_id_of_raises _ _ E').
  - tame.
  - apply tame_raise. exact (find_task_by_id_raises _ _ _ E).
Qed.

Lemma delete_task_tame l : tame (delete_task l).
Proof.
  unfold delete_task. apply tame_bind; [tame|]. intros line. cbv zeta.
  destruct (find_task_by_id l (strip line)) as [[[i t]|]|e] eqn:E.
  - destruct (task_id_of t) as [k|e] eqn:E';
      [|apply tame_raise; exact (task_id_of_raises _ _ E')].
    destruct (without_id l k) as [kept|e] eqn:E'';
      [tame | apply tame_raise; exact (without_id_raises _ _ _ E'')].
  - tame.
  - apply tame_raise. exact (find_task_by_id_raises _ _ _ E).
Qed.

#[local] Hint Resolve view_tasks_tame add_task_tame mark_task_done_tame
  delete_task_tame : tame.

Lemma todo_menu_loop_within today fuel : forall tasks w,
  (List.length (stdin w) < fuel)%nat ->
  within (List.length (stdin w)) (menu_loop fuel today tasks w).
Proof.
  induction fuel as [|n IH]; intros tasks w Hlt; [lia|].
  cbn [menu_loop]. apply within_bind; [apply tame_print|].
  intros _ w1 Hw1. apply within_mono with (n := List.length (stdin w1));
    [exact Hw1|].
  apply within_input_bind. intros l ls Hls. rewrite Hls in *.
  cbn [List.length] in *.
  apply within_mono with (n := List.length ls); [lia|].
  set (w2 := World ls (stdout w1 ++ [Ask Enter_choice]) (disk w1)).
  assert (Hnext : forall A (action : IO A) (k : A -> list task),
            tame action ->
            within (List.length ls)
              (bind action (fun a => menu_loop n today (k a)) w2)).
  { intros A action k Haction. apply within_bind; [apply (Haction w2)|].
    intros a w' Hw'. eapply within_mono; [exact Hw' | apply IH; lia]. }
  assert (Hshown : forall (action : IO (list task)),
            tame action ->
            within (List.length ls)
              (bind (view_tasks tasks)
                 (fun _ => bind action (fun a => menu_loop n today a)) w2)).
  { intros action Haction. apply within_bind; [apply (view_tasks_tame tasks w2)|].
    intros _ w3 Hw3. apply within_bind.
    - eapply within_mono; [exact Hw3 | apply Haction].
    - intros a w' Hw'. eapply within_mono; [exact Hw' | apply IH; lia]. }
  cbv zeta.
  repeat match goal with
    | |- context [if str_eqb ?a ?b then _ else _] => destruct (str_eqb a b)
    end.
  - apply (Hnext unit _ (fun _ => tasks)), view_tasks_tame.
  - apply (Hnext _ _ (fun a => a)), add_task_tame.
  - apply Hshown, mark_task_done_tame.
  - apply Hshown, delete_task_tame.
  - assert (H : tame (bind (print Exiting) (fun _ => save_tasks tasks)))
      by tame.
    apply (H w2).
  - apply (Hnext unit _ (fun _ => tasks)), tame_print.
Qed.

(** The to-do list never runs out of fuel: it ends at the exit choice, or
    when standard input ends. *)
Theorem todo_has_fuel today w : fst (main_menu today w) <> Raise OutOfFuel.
Proof.
  assert (H : tame (main_menu today)).
  { unfold main_menu. apply tame_bind; [tame|]. intros tasks w1.
    unfold fuel_of. apply todo_menu_loop_within. lia. }
  apply H.
Qed.
End TodoFuel.
End FuelProofs.

(** * Results of a computation *)

Section Results.
Variables O F : Type.

Lemma bind_ok A B (c : M O F A) (k : A -> M O F B) w b w' :
  bind c k w = (Ok b, w') ->
  exists a w1, c w = (Ok a, w1) /\ k a w1 = (Ok b, w').
Proof.
  unfold bind. destruct (c w) as [[a|e] w1]; [|discriminate].
  intros H. now exists a, w1.
Qed.

Lemma bind_raise A B (c : M O F A) (k : A -> M O F B) w e w' :
  c w = (Raise e, w') -> bind c k w = (Raise e, w').
Proof. unfold bind. now intros ->. Qed.

Lemma bind_step A B (c : M O F A) (k : A -> M O F B) w a w1 :
  c w = (Ok a, w1) -> bind c k w = k a w1.
Proof. unfold bind. now intros ->. Qed.

Lemma bind_raised A B (c : M O F A) (k : A -> M O F B) w e w' :
  bind c k w = (Raise e, w') ->
  c w = (Raise e, w')
  \/ exists a w1, c w = (Ok a, w1) /\ k a w1 = (Raise e, w').
Proof.
  unfold bind. destruct (c w) as [[a|e1] w1];
    [|intros [= -> ->]; now left].
  intros H. right. now exists a, w1.
Qed.

Lemma input_ok p w line w' :
  @input O F p w = (Ok line, w') ->
  exists rest,
    stdin w = line :: rest /\ w' = World rest (stdout w ++ [p]) (disk w).
Proof.
  unfold input. destruct (stdin w) as [|l ls]; [discriminate|].
  intros [= <- <-]. now exists ls.
Qed.
Lemma only_raises_ret A P (a : A) : only_raises P (@ret O F A a).
Proof. intros w e w'. discriminate. Qed.

Lemma only_raises_print P m : only_raises P (@print O F m).
Proof. intros w e w'. discriminate. Qed.

Lemma only_raises_write_file P f : only_raises P (@write_file O F f).
Proof. intros w e w'. discriminate. Qed.

Lemma only_raises_raise A (P : exn -> Prop) e :
  P e -> only_raises P (@raise O F A e).
Proof. intros He w e' w'. now intros [= <- _]. Qed.

Lemma only_raises_input (P : exn -> Prop) p :
  P EOFError -> only_raises P (@input O F p).
Proof.
  intros He w e w'. unfold input. destruct (stdin w); [|discriminate].
  now intros [= <- _].
Qed.

Lemma only_raises_bind A B P (Q : A -> Prop) (c : M O F A)
    (k : A -> M O F B) :
  only_raises P c -> returns Q c ->
  (forall a, Q a -> only_raises P (k a)) ->
  only_raises P (bind c k).
Proof.
  intros Hc Hq Hk w e w' H.
  apply bind_raised in H as [H|(a & w1 & Ha & H)].
  - exact (Hc _ _ _ H).
  - exact (Hk a (Hq _ _ _ Ha) _ _ _ H).
Qed.

Lemma only_raises_then A B P (c : M O F A) (k : A -> M O F B) :
  only_raises P c -> (forall a, only_raises P (k a)) ->
  only_raises P (bind c k).
Proof.
  intros Hc Hk. apply only_raises_bind with (Q := fun _ => True);
    [assumption | now intros w a w' _ | intros a _; apply Hk].
Qed.

Lemma only_raises_try_except A (P P' : exn -> Prop) (c : M O F A) h :
  only_raises P' c ->
  (forall e, P' e -> match h e with
                     | Some k => only_raises P k
                     | None => P e
                     end) ->
  only_raises P (try_except c h).
Proof.
  intros Hc Hh w e w'. unfold try_except.
  destruct (c w) as [[a|e1] w1] eqn:E; [discriminate|].
  specialize (Hh e1 (Hc _ _ _ E)). destruct (h e1) as [k|].
  - apply Hh.
  - now intros [= <- _].
Qed.

Lemma only_raises_weaken A (P P' : exn -> Prop) (c : M O F A) :
  (forall e, P e -> P' e) -> only_raises P c -> only_raises P' c.
Proof. intros Himp Hc w e w' H. exact (Himp _ (Hc _ _ _ H)). Qed.

Lemma returns_ret A (Q : A -> Prop) a : Q a -> returns Q (@ret O F A a).
Proof. intros Ha w a' w'. now intros [= <- _]. Qed.

Lemma returns_raise A (Q : A -> Prop) e : returns Q (@raise O F A e).
Proof. intros w a w'. discriminate. Qed.

Lemma returns_bind A B (R : A -> Prop) (Q : B -> Prop) (c : M O F A)
    (k : A -> M O F B) :
  returns R c -> (forall a, R a -> returns Q (k a)) ->
  returns Q (bind c k).
Proof.
  intros Hc Hk w b w' H. apply bind_ok in H as (a & w1 & Ha & H).
  exact (Hk a (Hc _ _ _ Ha) _ _ _ H).
Qed.

Lemma returns_then A B (Q : B -> Prop) (c : M O F A) (k : A -> M O F B) :
  (forall a, returns Q (k a)) -> returns Q (bind c k).
Proof.
  intros Hk. apply returns_bind with (R := fun _ => True);
    [now intros w a w' _ | intros a _; apply Hk].
Qed.

Lemma returns_try_except A (Q : A -> Prop) (c : M O F A) h :
  returns Q c -> (forall e k, h e = Some k -> returns Q k) ->
  returns Q (try_except c h).
Proof.
  intros Hc Hh w a w'. unfold try_except.
  destruct (c w) as [[a1|e1] w1] eqn:E.
  - intros [= <- _]. exact (Hc _ _ _ E).
  - destruct (h e1) as [k|] eqn:Eh; [|discriminate].
    apply (Hh _ _ Eh).
Qed.

(** A computation that does not run out of fuel raises the end of
    standard input only, when it raises the end of input only. *)
Lemma only_raises_tame A (c : M O F A) :
  tame c -> only_raises end_of_input c -> only_raises (eq EOFError) c.
Proof.
  intros Htame Hc w e w' H. destruct (Hc _ _ _ H) as [->| ->];
    [reflexivity|].
  destruct (Htame w) as [Hfuel _]. rewrite H in Hfuel. now elim Hfuel.
Qed.

End Results.

(** * More on the to-do list: marking, deleting, adding *)

Module TodoActions.
Import Todo TodoSpec TodoActionSpec.

Lemma first_with_id_absent tasks k :
  forallb has_id tasks = true -> existsb (id_is k) tasks = false ->
  forall i, first_with_id tasks k i = Ok None.
Proof.
  induction tasks as [|t l IH]; cbn [forallb existsb first_with_id];
    [reflexivity|].
  intros Hall Hex i. apply andb_prop in Hall as [Ht Hl].
  apply orb_false_iff in Hex as [Hk Hex].
  unfold task_id_of, has_id, id_is in *.
  destruct (id t) as [n|]; [|discriminate]. rewrite Hk. now apply IH.
Qed.

Lemma first_with_id_marks tasks k : forall i j t,
  first_with_id tasks k i = Ok (Some (j, t)) ->
  (i <= j)%nat /\ id t = Some k
  /\ set_nth tasks (j - i) (set_done t) = mark_first k tasks.
Proof.
  induction tasks as [|t0 l IH]; intros i j t; cbn [first_with_id];
    [discriminate|].
  unfold task_id_of. destruct (id t0) as [n|] eqn:E; [|discriminate].
  cbn [mark_first]. unfold id_is. rewrite E.
  destruct (n =? k) eqn:Enk.
  - intros [= <- <-]. apply Z.eqb_eq in Enk. subst n.
    rewrite Nat.sub_diag. auto.
  - intros H. apply IH in H as (Hle & Hid & Hset).
    split; [lia|]. split; [assumption|].
    replace (j - i)%nat with (S (j - S i)) by lia.
    cbn [set_nth]. now rewrite Hset.
Qed.

Lemma ids_mark_first k tasks : ids (mark_first k tasks) = ids tasks.
Proof.
  induction tasks as [|t l IH]; [reflexivity|]. cbn [mark_first].
  destruct (id_is k t); unfold ids in *; cbn [flat_map set_done id];
    [reflexivity | now rewrite IH].
Qed.

Lemma has_id_mark_first k tasks :
  forallb has_id (mark_first k tasks) = forallb has_id tasks.
Proof.
  induction tasks as [|t l IH]; [reflexivity|]. cbn [mark_first].
  destruct (id_is k t); cbn [forallb]; [reflexivity | now rewrite IH].
Qed.

Lemma length_mark_first k tasks :
  List.length (mark_first k tasks) = List.length tasks.
Proof.
  induction tasks as [|t l IH]; [reflexivity|]. cbn [mark_first].
  destruct (id_is k t); cbn [List.length]; [reflexivity | now rewrite IH].
Qed.

Lemma others_mark_first k tasks t :
  In t tasks -> id_is k t = false -> In t (mark_first k tasks).
Proof.
  induction tasks as [|t0 l IH]; intros Hin Hk; [contradiction|].
  cbn [mark_first]. destruct Hin as [<-|Hin].
  - rewrite Hk. now left.
  - destruct (id_is k t0); right; [assumption | now apply IH].
Qed.

Lemma dumps_mark_first k tasks : dumps (mark_first k tasks) = dumps tasks.
Proof.
  unfold dumps.
  induction tasks as [|t l IH]; [reflexivity|]. cbn [mark_first].
  destruct (id_is k t); cbn [forallb set_done id];
    [reflexivity | now rewrite IH].
Qed.

Lemma mark_task_done_found tasks k line rest out d :
  forallb has_id tasks = true ->
  python_int (strip line) = Some k ->
  existsb (id_is k) tasks = true ->
  mark_task_done tasks (World (line :: rest) out d)
  = (Ok (mark_first k tasks),
     World rest
       (out ++ [Ask Enter_id_done] ++ save_report (mark_first k tasks)
            ++ [Task_marked_done k])
       (Some (saved (mark_first k tasks)))).
Proof.
  intros Hall Hint Hex.
  destruct (TodoProofs.first_with_id_found _ _ Hall Hex 0%nat)
    as (j & t & Hf & Hid).
  destruct (first_with_id_marks _ _ _ _ _ Hf) as (_ & _ & Hset).
  rewrite Nat.sub_0_r in Hset.
  unfold mark_task_done, bind at 1, input, find_task_by_id.
  cbn [stdin stdout disk]. rewrite Hint, Hf. cbv iota beta.
  fold (set_done t). rewrite Hset.
  unfold bind at 1. rewrite TodoProofs.save_tasks_run.
  unfold task_id_of. cbn [set_done id]. rewrite Hid.
  unfold bind, print, ret.
  cbn [stdin stdout disk]. rewrite <- !app_assoc. reflexivity.
Qed.

Lemma find_task_by_id_unknown tasks task_id :
  forallb has_id tasks = true ->
  (forall k, python_int task_id = Some k ->
             existsb (id_is k) tasks = false) ->
  find_task_by_id tasks task_id = Ok None.
Proof.
  intros Hall Hunknown. unfold find_task_by_id.
  destruct (python_int task_id) as [k|] eqn:E; [|reflexivity].
  apply first_with_id_absent; auto.
Qed.

Lemma mark_task_done_unknown tasks line rest out d :
  find_task_by_id tasks (strip line) = Ok None ->
  mark_task_done tasks (World (line :: rest) out d)
  = (Ok tasks,
     World rest (out ++ [Ask Enter_id_done; Task_not_found (strip line)]) d).
Proof.
  intros Hfind. unfold mark_task_done, bind, input. cbn [stdin stdout disk].
  rewrite Hfind. unfold print, ret. cbn [stdin stdout disk].
  rewrite <- !app_assoc. reflexivity.
Qed.

Lemma delete_task_unknown tasks line rest out d :
  find_task_by_id tasks (strip line) = Ok None ->
  delete_task tasks (World (line :: rest) out d)
  = (Ok tasks,
     World rest (out ++ [Ask Enter_id_delete; Task_not_found (strip line)])
       d).
Proof.
  intros Hfind. unfold delete_task, bind, input. cbn [stdin stdout disk].
  rewrite Hfind. unfold print, ret. cbn [stdin stdout disk].
  rewrite <- !app_assoc. reflexivity.
Qed.

(** What [mark_task_done] can return. *)
Lemma mark_task_done_cases tasks w l w' :
  forallb has_id tasks = true ->
  mark_task_done tasks w = (Ok l, w') ->
  (l = tasks /\ disk w' = disk w)
  \/ exists k, existsb (id_is k) tasks = true
               /\ l = mark_first k tasks /\ disk w' = Some (saved l).
Proof.
  intros Hall. destruct w as [[|line rest] out d]; [discriminate|].
  destruct (python_int (strip line)) as [k|] eqn:Ek.
  - destruct (existsb (id_is k) tasks) eqn:Ex.
    + rewrite (mark_task_done_found _ _ _ _ _ _ Hall Ek Ex).
      intros [= <- <-]. right. now exists k.
    + rewrite mark_task_done_unknown.
      * intros [= <- <-]. now left.
      * apply find_task_by_id_unknown; [assumption|]. congruence.
  - rewrite mark_task_done_unknown.
    + intros [= <- <-]. now left.
    + apply find_task_by_id_unknown; [assumption|]. congruence.
Qed.

(** What [delete_task] can return. *)
Lemma delete_task_cases tasks w l w' :
  forallb has_id tasks = true ->
  delete_task tasks w = (Ok l, w') ->
  (l = tasks /\ disk w' = disk w)
  \/ exists k, l = filter (fun t => negb (id_is k t)) tasks
               /\ disk w' = Some (saved l).
Proof.
  intros Hall. destruct w as [[|line rest] out d]; [discriminate|].
  destruct (python_int (strip line)) as [k|] eqn:Ek.
  - destruct (existsb (id_is k) tasks) eqn:Ex.
    + rewrite (TodoProofs.delete_task_found _ _ _ _ _ _ Hall Ek Ex).
      intros [= <- <-]. right. now exists k.
    + rewrite delete_task_unknown.
      * intros [= <- <-]. now left.
      * apply find_task_by_id_unknown; [assumption|]. congruence.
  - rewrite delete_task_unknown.
    + intros [= <- <-]. now left.
    + apply find_task_by_id_unknown; [assumption|]. congruence.
Qed.

(** What [add_task] can return. *)
Lemma add_task_cases today tasks w l w' :
  add_task today tasks w = (Ok l, w') ->
  (l = tasks /\ disk w' = disk w)
  \/ exists typed_description typed_due,
       strip typed_description <> []
       /\ l = tasks ++ [new_task today tasks typed_description typed_due]
       /\ disk w' = Some (saved l)
       /\ int_prints (get_next_id tasks) = true.
Proof.
  destruct w as [[|a rest] out d]; [discriminate|].
  destruct (strip a) as [|c s] eqn:Ea.
  - unfold add_task, bind, input. cbn [stdin stdout disk]. rewrite Ea.
    unfold print, ret. cbn [stdin stdout disk]. intros [= <- <-].
    now left.
  - destruct rest as [|b rest].
    + unfold add_task, bind, input. cbn [stdin stdout disk]. rewrite Ea.
      discriminate.
    + assert (Hne : strip a <> []) by (rewrite Ea; discriminate).
      destruct (int_prints (get_next_id tasks)) eqn:Hp.
      * rewrite (TodoProofs.add_task_described today tasks a b rest out d
                   Hne Hp).
        intros [= <- <-]. right. now exists a, b.
      * rewrite (TodoProofs.add_task_unprintable today tasks a b rest out d
                   Hne Hp).
        discriminate.
Qed.

Lemma next_id_is_fresh tasks :
  forallb has_id tasks = true -> ~ In (get_next_id tasks) (ids tasks).
Proof.
  intros Hall Hin. destruct tasks as [|t l] eqn:E; [exact Hin|].
  rewrite <- E in *.
  assert (Hne : tasks <> []) by (rewrite E; discriminate).
  destruct (TodoProofs.get_next_id_max tasks Hall Hne) as [_ Hmax].
  specialize (Hmax _ Hin). lia.
Qed.

Lemma unique_ids_add today tasks typed_description typed_due :
  unique_ids tasks ->
  unique_ids (tasks ++ [new_task today tasks typed_description typed_due]).
Proof.
  intros [Hall Hnodup]. split.
  - rewrite forallb_app, Hall. reflexivity.
  - rewrite TodoProofs.ids_app. unfold ids at 2. cbn [flat_map new_task id].
    rewrite app_nil_r.
    apply NoDup_app; [assumption | repeat constructor; intros [] |].
    intros n Hn [<-|[]]. exact (next_id_is_fresh tasks Hall Hn).
Qed.

Lemma unique_ids_mark k tasks :
  unique_ids tasks -> unique_ids (mark_first k tasks).
Proof.
  intros [Hall Hnodup]. split.
  - now rewrite has_id_mark_first.
  - now rewrite ids_mark_first.
Qed.

Lemma unique_ids_filter k tasks :
  unique_ids tasks ->
  unique_ids (filter (fun t => negb (id_is k t)) tasks).
Proof.
  intros [Hall Hnodup]. split.
  - destruct (TodoProofs.filter_keeps_ids tasks k) as [H|H]; congruence.
  - rewrite TodoProofs.ids_filter. now apply NoDup_filter.
Qed.

Lemma strptime_date_ok s year month day :
  Datetime.strptime s = Some (year, month, day) ->
  Datetime.date_ok year month day = true.
Proof.
  unfold Datetime.strptime.
  destruct (Datetime.directive_Y s) as [[y s1]|]; [|discriminate].
  destruct (Datetime.literal "-" s1) as [s2|]; [|discriminate].
  destruct (Datetime.directive_m s2) as [[m s3]|]; [|discriminate].
  destruct (Datetime.literal "-" s3) as [s4|]; [|discriminate].
  destruct (Datetime.directive_d s4) as [[dd [|c r]]|]; [|discriminate..].
  destruct (Datetime.date_ok y m dd) eqn:E; [|discriminate].
  now intros [= <- <- <-].
Qed.

Lemma kept_due_date_ok typed : due_date_ok (kept_due_date typed).
Proof.
  unfold kept_due_date, due_date_ok.
  destruct (Datetime.strptime (strip typed)) as [[[y m] dd]|] eqn:E;
    [|now left].
  right. exists y, m, dd. split; [assumption|].
  exact (strptime_date_ok _ _ _ _ E).
Qed.

Lemma print_tasks_missing_id tasks :
  forallb has_id tasks = false ->
  forall w, exists w',
    print_tasks tasks w = (Raise (KeyError (lit "id")), w')
    /\ disk w' = disk w /\ stdin w' = stdin w.
Proof.
  induction tasks as [|t l IH]; cbn [forallb print_tasks]; [discriminate|].
  intros H w. unfold has_id, task_id_of in *. cbv zeta.
  destruct (id t) as [n|].
  - destruct (IH H (World (stdin w)
                      (stdout w ++ [List_entry n (done t) (description t)
                         match due_date t with
                         | Some (c :: d) => Some (c :: d)
                         | _ => None
                         end]) (disk w))) as (w' & Hw' & Hd & Hs).
    exists w'. unfold bind, print.
    split; [exact Hw' | split; [exact Hd | exact Hs]].
  - exists w. now unfold raise.
Qed.

Lemma view_tasks_missing_id tasks :
  forallb has_id tasks = false ->
  forall w, exists w',
    view_tasks tasks w = (Raise (KeyError (lit "id")), w')
    /\ disk w' = disk w /\ stdin w' = stdin w.
Proof.
  intros H w.
  destruct (print_tasks_missing_id tasks H
              (World (stdin w) (stdout w ++ [List_header]) (disk w)))
    as (w' & Hw' & Hd & Hs).
  exists w'. destruct tasks as [|t l]; [discriminate|].
  unfold view_tasks, bind, print. rewrite Hw'.
  split; [reflexivity | split; [exact Hd | exact Hs]].
Qed.

Lemma without_id_dumps tasks k : forall kept,
  without_id tasks k = Ok kept -> dumps tasks = true -> dumps kept = true.
Proof.
  unfold dumps.
  induction tasks as [|t l IH]; cbn [without_id forallb]; intros kept.
  - now intros [= <-].
  - destruct (task_id_of t) as [n|e]; [|discriminate].
    destruct (without_id l k) as [kept'|e]; [|discriminate].
    intros [= <-] H. apply andb_prop in H as [Ht Hl].
    destruct (negb (n =? k)); cbn [forallb]; [rewrite Ht|]; now apply IH.
Qed.

Lemma dumps_add today tasks typed_description typed_due :
  int_prints (get_next_id tasks) = true ->
  dumps (tasks ++ [new_task today tasks typed_description typed_due])
  = dumps tasks.
Proof.
  intros Hp. rewrite TodoProofs.dumps_app. unfold dumps at 2.
  cbn [forallb new_task id]. rewrite Hp. now rewrite !andb_true_r.
Qed.

(** Each of the three actions leaves in the backing file the collection
    it returns, when it touches the file at all, and a collection whose
    ids print stays one. *)
Lemma actions_save today tasks w l w' :
  add_task today tasks w = (Ok l, w')
  \/ mark_task_done tasks w = (Ok l, w')
  \/ delete_task tasks w = (Ok l, w') ->
  (l = tasks /\ disk w' = disk w)
  \/ (disk w' = Some (saved l) /\ (dumps tasks = true -> dumps l = true)).
Proof.
  intros [H|[H|H]].
  - apply add_task_cases in H as [H|(a & b & _ & -> & H & Hp)]; [now left|].
    right. split; [assumption|]. now rewrite dumps_add.
  - destruct w as [[|line rest] out d]; [discriminate|].
    unfold mark_task_done, bind at 1, input in H.
    cbn [stdin stdout disk] in H. unfold find_task_by_id in H.
    destruct (python_int (strip line)) as [k|].
    + destruct (first_with_id tasks k 0) as [[[i t]|]|e] eqn:Hf.
      * destruct (first_with_id_marks _ _ _ _ _ Hf) as (_ & Hid & Hset).
        rewrite Nat.sub_0_r in Hset. fold (set_done t) in H.
        rewrite Hset in H. unfold bind at 1 in H.
        rewrite TodoProofs.save_tasks_run in H.
        unfold task_id_of in H. cbn [set_done id] in H. rewrite Hid in H.
        unfold bind, print, ret in H. cbn [stdin stdout disk] in H.
        injection H as <- <-. right. split; [reflexivity|].
        now rewrite dumps_mark_first.
      * unfold bind, print, ret in H. cbn [stdin stdout disk] in H.
        injection H as <- <-. now left.
      * discriminate.
    + unfold bind, print, ret in H. cbn [stdin stdout disk] in H.
      injection H as <- <-. now left.
  - destruct w as [[|line rest] out d]; [discriminate|].
    unfold delete_task, bind at 1, input in H. cbn [stdin stdout disk] in H.
    destruct (find_task_by_id tasks (strip line)) as [[[i t]|]|e].
    + destruct (task_id_of t) as [k|e]; [|discriminate].
      destruct (without_id tasks k) as [kept|e] eqn:Hk; [|discriminate].
      unfold bind at 1 in H. rewrite TodoProofs.save_tasks_run in H.
      unfold bind, print, ret in H. cbn [stdin stdout disk] in H.
      injection H as <- <-. right. split; [reflexivity|].
      exact (without_id_dumps _ _ _ Hk).
    + unfold bind, print, ret in H. cbn [stdin stdout disk] in H.
      injection H as <- <-. now left.
    + discriminate.
Qed.

Lemma menu_loop_keeps_ids_unique today fuel : forall tasks w w',
  unique_ids tasks ->
  menu_loop fuel today tasks w = (Ok tt, w') ->
  exists l, disk w' = Some (saved l) /\ unique_ids l
            /\ (dumps tasks = true -> dumps l = true).
Proof.
  induction fuel as [|n IH]; intros tasks w w' Hinv; cbn [menu_loop];
    [discriminate|].
  intros H. apply bind_ok in H as (_ & w1 & _ & H).
  apply bind_ok in H as (line & w2 & _ & H). cbv zeta in H.
  repeat match type of H with
    | context [if str_eqb ?a ?b then _ else _] => destruct (str_eqb a b)
    end.
  - apply bind_ok in H as (_ & w3 & _ & H). now apply IH in H.
  - apply bind_ok in H as (l & w3 & Hadd & H).
    assert (Hd : dumps tasks = true -> dumps l = true).
    { destruct (actions_save today tasks w2 l w3 (or_introl Hadd))
        as [[-> _]|[_ Hd]]; auto. }
    apply add_task_cases in Hadd as [[-> _]|(a & b & _ & -> & _)].
    + now apply IH in H.
    + apply IH in H as (l & Hl & Hu & Hdl); [|now apply unique_ids_add].
      exists l. auto.
  - apply bind_ok in H as (_ & w3 & _ & H).
    apply bind_ok in H as (l & w4 & Hmark & H).
    assert (Hd : dumps tasks = true -> dumps l = true).
    { destruct (actions_save today tasks w3 l w4
                  (or_intror (or_introl Hmark))) as [[-> _]|[_ Hd]]; auto. }
    apply mark_task_done_cases in Hmark as [[-> _]|(k & _ & -> & _)];
      [now apply IH in H | | apply Hinv].
    apply IH in H as (l & Hl & Hu & Hdl); [|now apply unique_ids_mark].
    exists l. auto.
  - apply bind_ok in H as (_ & w3 & _ & H).
    apply bind_ok in H as (l & w4 & Hdel & H).
    assert (Hd : dumps tasks = true -> dumps l = true).
    { destruct (actions_save today tasks w3 l w4
                  (or_intror (or_intror Hdel))) as [[-> _]|[_ Hd]]; auto. }
    apply delete_task_cases in Hdel as [[-> _]|(k & -> & _)];
      [now apply IH in H | | apply Hinv].
    apply IH in H as (l & Hl & Hu & Hdl); [|now apply unique_ids_filter].
    exists l. auto.
  - apply bind_ok in H as (u & w3 & Hp & H).
    unfold print in Hp. injection Hp as _ <-.
    rewrite TodoProofs.save_tasks_run in H. injection H as <-.
    exists tasks. auto.
  - apply bind_ok in H as (_ & w3 & _ & H). now apply IH in H.
Qed.

(** X1: when the id typed is the id of a task, [mark_task_done] sets the
    flag of the first task with that id and of no other task, keeps the
    ids and the length of the collection, saves it and prints the id.
    The save writes the collection and prints nothing when the ids of
    the collection print. *)
Theorem mark_task_done_marks_first tasks k line rest out d :
  forallb has_id tasks = true ->
  python_int (strip line) = Some k ->
  existsb (id_is k) tasks = true ->
  mark_task_done tasks (World (line :: rest) out d)
  = (Ok (mark_first k tasks),
     World rest
       (out ++ [Ask Enter_id_done] ++ save_report (mark_first k tasks)
            ++ [Task_marked_done k])
       (Some (saved (mark_first k tasks))))
  /\ (dumps tasks = true ->
      saved (mark_first k tasks) = Json (mark_first k tasks)
      /\ save_report (mark_first k tasks) = [])
  /\ ids (mark_first k tasks) = ids tasks
  /\ List.length (mark_first k tasks) = List.length tasks
  /\ (forall t, In t tasks -> id_is k t = false -> In t (mark_first k tasks)).
Proof.
  intros Hall Hint Hex. split; [now apply mark_task_done_found|].
  split.
  { intros Hd. apply TodoProofs.saved_dumps. now rewrite dumps_mark_first. }
  split; [apply ids_mark_first|].
  split; [apply length_mark_first | intros t; apply others_mark_first].
Qed.

Lemma mark_task_done_marks_first_witness :
  mark_task_done four_tasks (World [lit " 2 "] [] None)
  = (Ok (mark_first 2 four_tasks),
     World [] ([] ++ [Ask Enter_id_done; Task_marked_done 2])
       (Some (Json (mark_first 2 four_tasks)))).
Proof.
  apply (mark_task_done_marks_first four_tasks 2 (lit " 2 ") [] [] None);
    reflexivity.
Defined.

(** X2: when what is typed is no number, or is the id of no task,
    [mark_task_done] and [delete_task] leave the collection and the
    backing file as they are and print that the task was not found. *)
Theorem unknown_id_changes_nothing tasks line rest out d :
  forallb has_id tasks = true ->
  (forall k, python_int (strip line) = Some k ->
             existsb (id_is k) tasks = false) ->
  mark_task_done tasks (World (line :: rest) out d)
  = (Ok tasks,
     World rest (out ++ [Ask Enter_id_done; Task_not_found (strip line)]) d)
  /\ delete_task tasks (World (line :: rest) out d)
     = (Ok tasks,
        World rest (out ++ [Ask Enter_id_delete; Task_not_found (strip line)])
          d).
Proof.
  intros Hall Hunknown.
  pose proof (find_task_by_id_unknown tasks (strip line) Hall Hunknown).
  split; [now apply mark_task_done_unknown | now apply delete_task_unknown].
Qed.

Lemma unknown_id_changes_nothing_witness :
  mark_task_done four_tasks (World [lit "two"] [] None)
  = (Ok four_tasks,
     World [] ([] ++ [Ask Enter_id_done; Task_not_found (strip (lit "two"))])
       None)
  /\ delete_task four_tasks (World [lit "two"] [] None)
     = (Ok four_tasks,
        World [] ([] ++ [Ask Enter_id_delete;
                         Task_not_found (strip (lit "two"))]) None).
Proof.
  apply (unknown_id_changes_nothing four_tasks (lit "two") [] [] None);
    [reflexivity | discriminate].
Defined.



(** X4: whatever is typed, [add_task] returns the collection as it was or
    the collection followed by one task, which has the next id, a
    description that is not empty, is not done, was created today, and
    whose due date is empty or a date of the calendar. *)
Theorem add_task_appends_a_well_formed_task today tasks w l w' :
  add_task today tasks w = (Ok l, w') ->
  l = tasks
  \/ exists t, l = tasks ++ [t] /\ well_formed_after today tasks t.
Proof.
  intros H. apply add_task_cases in H as [[-> _]|(a & b & Hne & -> & _)];
    [now left|].
  right. eexists. split; [reflexivity|]. unfold well_formed_after, new_task.
  cbn [id description done created_on due_date].
  repeat split; try assumption.
  eexists. split; [reflexivity | apply kept_due_date_ok].
Qed.

Lemma add_task_appends_a_well_formed_task_witness :
  four_tasks ++ [new_task (lit "2024-05-01") four_tasks (lit "call home")
                   (lit "2024-02-30")] = four_tasks
  \/ exists t,
       four_tasks ++ [new_task (lit "2024-05-01") four_tasks
                        (lit "call home") (lit "2024-02-30")]
       = four_tasks ++ [t]
       /\ well_formed_after (lit "2024-05-01") four_tasks t.
Proof.
  apply (add_task_appends_a_well_formed_task (lit "2024-05-01") four_tasks
           (World [lit "call home"; lit "2024-02-30"] [] None) _
           (World [] [Ask Enter_description; Ask Enter_due_date;
                      Invalid_date_format; Task_added 5]
              (Some (Json (four_tasks ++
                 [new_task (lit "2024-05-01") four_tasks (lit "call home")
                    (lit "2024-02-30")]))))).
  reflexivity.
Defined.

(** X5: each of adding, marking and deleting either returns the collection
    it was given and does not touch the backing file, or leaves in the
    backing file what the save of the collection it returns writes: that
    collection, when the ids of the collection it was given print. *)
Theorem actions_keep_the_file_in_step today tasks w l w' :
  add_task today tasks w = (Ok l, w')
  \/ mark_task_done tasks w = (Ok l, w')
  \/ delete_task tasks w = (Ok l, w') ->
  (l = tasks /\ disk w' = disk w)
  \/ (disk w' = Some (saved l)
      /\ (dumps tasks = true -> disk w' = Some (Json l))).
Proof.
  intros H. destruct (actions_save today tasks w l w' H) as [H'|[Hs Hd]];
    [now left|].
  right. split; [assumption|]. intros Hdumps. rewrite Hs.
  now destruct (TodoProofs.saved_dumps l (Hd Hdumps)) as [-> _].
Qed.

Lemma actions_keep_the_file_in_step_witness :
  (mark_first 3 tasks_sharing_an_id = tasks_sharing_an_id
   /\ Some (Json (mark_first 3 tasks_sharing_an_id)) = Some Undecodable)
  \/ (Some (Json (mark_first 3 tasks_sharing_an_id))
      = Some (saved (mark_first 3 tasks_sharing_an_id))
      /\ (dumps tasks_sharing_an_id = true ->
          Some (Json (mark_first 3 tasks_sharing_an_id))
          = Some (Json (mark_first 3 tasks_sharing_an_id)))).
Proof.
  apply (actions_keep_the_file_in_step [] tasks_sharing_an_id
           (World [lit "3"] [] (Some Undecodable)) _
           (World [] [Ask Enter_id_done; Task_marked_done 3]
              (Some (Json (mark_first 3 tasks_sharing_an_id))))).
  right. left. reflexivity.
Defined.



(** X7: when a task of the backing file has no id, the choices that list
    the tasks (1, 3 and 4) end the session with [KeyError] for the key
    [id]; nothing more is read and the backing file is left as it was. *)
Theorem task_without_id_stops_the_session today tasks line rest out :
  forallb has_id tasks = false ->
  In (strip line) [lit "1"; lit "3"; lit "4"] ->
  exists w',
    main_menu today (World (line :: rest) out (Some (Json tasks)))
    = (Raise (KeyError (lit "id")), w')
    /\ stdin w' = rest
    /\ disk w' = Some (Json tasks).
Proof.
  intros Hmissing Hchoice.
  destruct (view_tasks_missing_id tasks Hmissing
              (World rest ((out ++ [Menu]) ++ [Ask Enter_choice])
                 (Some (Json tasks)))) as (w' & Hw' & Hd & Hs).
  exists w'. split; [|split; assumption].
  unfold main_menu.
  erewrite bind_step; [|reflexivity].
  unfold fuel_of. cbn [stdin List.length menu_loop].
  erewrite bind_step; [|reflexivity].
  erewrite bind_step; [|reflexivity].
  cbv zeta. cbn [stdin stdout disk].
  destruct Hchoice as [<-|[<-|[<-|[]]]];
    repeat match goal with
      | |- context [str_eqb ?a ?b] =>
          let v := eval vm_compute in (str_eqb a b) in
          change (str_eqb a b) with v
      end; cbv iota; apply bind_raise; exact Hw'.
Qed.

Lemma task_without_id_stops_the_session_witness :
  exists w',
    main_menu (lit "2024-05-01")
      (World [lit "3"; lit "1"] [] (Some (Json tasks_with_a_missing_id)))
    = (Raise (KeyError (lit "id")), w')
    /\ stdin w' = [lit "1"]
    /\ disk w' = Some (Json tasks_with_a_missing_id).
Proof.
  apply (task_without_id_stops_the_session (lit "2024-05-01")
           tasks_with_a_missing_id (lit "3") [lit "1"] []).
  - reflexivity.
  - right. left. reflexivity.
Defined.
End TodoActions.

(** * More on the calculator: reports, exit words, how a session ends *)

Module CalcSessions.
Import Calc CalcSpec CalcSessionSpec.

Section WithNumbers.
Context {N : Numbers}.

Lemma computation_reports op f a b w :
  lookup op OPERATION_MAP = Some f ->
  try_except
    (match f a b with
     | Raise e => raise e
     | Ok result =>
         bind (print Result_header) (fun _ => print (Result a op b result))
     end)
    (fun e =>
       match e with
       | ZeroDivisionError msg =>
           Some (print (F := unit) (Calculation_error msg))
       | _ =>
           if is_Exception e then Some (print (Unexpected_error e))
           else None
       end) w
  = (Ok tt, World (stdin w) (stdout w ++ report a op b (f a b)) (disk w)).
Proof.
  intros Hop. unfold try_except.
  destruct (f a b) as [result|e] eqn:E.
  - unfold bind, print. cbn [stdin stdout disk report].
    rewrite <- app_assoc. reflexivity.
  - pose proof (FuelProofs.operation_raises _ _ _ _ _ Hop E) as He.
    unfold raise. destruct e; try discriminate He; reflexivity.
Qed.

Lemma read_number_leaves p invalid w e w' :
  read_number p invalid w = (Raise e, w') -> leaves e w'.
Proof.
  unfold read_number, try_except, bind, input, leaves.
  destruct (stdin w) as [|line rest].
  - intros [= <- <-]. now right.
  - cbn [stdin stdout disk]. destruct (is_exit (strip line)).
    + intros [= <- <-]. now left.
    + destruct (float_of_str (strip line)); discriminate.
Qed.

Lemma calculator_round_leaves w e w' :
  calculator_round w = (Raise e, w') -> leaves e w'.
Proof.
  unfold calculator_round. intros H.
  apply bind_raised in H as [H|(a & w1 & _ & H)];
    [exact (read_number_leaves _ _ _ _ _ H)|].
  destruct a as [number_a|]; [|discriminate].
  apply bind_raised in H as [H|(line & w2 & _ & H)].
  - unfold input in H. destruct (stdin w1); [|discriminate].
    injection H as <- <-. now right.
  - cbv zeta in H. destruct (is_exit (strip line)).
    + injection H as <- <-. now left.
    + destruct (lookup (strip line) OPERATION_MAP) as [f|] eqn:Hop;
        [|discriminate].
      apply bind_raised in H as [H|(b & w3 & _ & H)];
        [exact (read_number_leaves _ _ _ _ _ H)|].
      destruct b as [number_b|]; [|discriminate].
      rewrite (computation_reports _ _ _ _ _ Hop) in H. discriminate.
Qed.

(** The loop does not come to an end by itself. *)
Lemma calculator_loop_leaves fuel : forall w r w',
  calculator_loop fuel w = (r, w') ->
  exists e, r = Raise e /\ (e = OutOfFuel \/ leaves e w').
Proof.
  induction fuel as [|n IH]; intros w r w'; cbn [calculator_loop].
  - intros [= <- <-]. exists OutOfFuel. auto.
  - unfold bind at 1. destruct (calculator_round w) as [[[]|e] w1] eqn:E.
    + apply IH.
    + intros [= <- <-]. exists e. split; [reflexivity|]. right.
      exact (calculator_round_leaves _ _ _ E).
Qed.

Lemma exit_at_first_number word rest out d :
  is_exit (strip word) = true ->
  calculator_round (World (word :: rest) out d)
  = (Raise (SystemExit 0), World rest (out ++ [Ask First_number]) d).
Proof.
  intros Hword.
  unfold calculator_round, read_number, bind, try_except, input.
  cbn [stdin stdout disk]. now rewrite Hword.
Qed.

Lemma exit_at_operation typed_a a word rest out d :
  is_exit (strip typed_a) = false ->
  float_of_str (strip typed_a) = Some a ->
  is_exit (strip word) = true ->
  calculator_round (World (typed_a :: word :: rest) out d)
  = (Raise (SystemExit 0),
     World rest (out ++ [Ask First_number; Ask Operation_symbol]) d).
Proof.
  intros Ha Hfa Hword.
  unfold calculator_round, read_number, bind, try_except, input.
  cbn [stdin stdout disk]. rewrite Ha, Hfa. unfold ret.
  cbn [stdin stdout disk]. rewrite Hword. unfold raise.
  rewrite <- !app_assoc. reflexivity.
Qed.

Lemma exit_at_second_number typed_a a typed_op f word rest out d :
  is_exit (strip typed_a) = false ->
  float_of_str (strip typed_a) = Some a ->
  is_exit (strip typed_op) = false ->
  lookup (strip typed_op) OPERATION_MAP = Some f ->
  is_exit (strip word) = true ->
  calculator_round (World (typed_a :: typed_op :: word :: rest) out d)
  = (Raise (SystemExit 0),
     World rest
       (out ++ [Ask First_number; Ask Operation_symbol; Ask Second_number])
       d).
Proof.
  intros Ha Hfa Hop Hlook Hword.
  unfold calculator_round, read_number, bind, try_except, input.
  cbn [stdin stdout disk]. rewrite Ha, Hfa. unfold ret.
  cbn [stdin stdout disk]. rewrite Hop, Hlook.
  cbn [stdin stdout disk]. rewrite Hword. unfold raise.
  rewrite <- !app_assoc. reflexivity.
Qed.

(** X8: a round in which two numbers and the symbol of an operation are
    typed ends normally and reports what the function stored for the
    symbol returned or raised: the result, the text of a
    [ZeroDivisionError], or the exception, which is never left
    uncaught. *)
Theorem computed_round_reports
    typed_a typed_op typed_b a f b rest out d :
  is_exit (strip typed_a) = false ->
  float_of_str (strip typed_a) = Some a ->
  is_exit (strip typed_op) = false ->
  lookup (strip typed_op) OPERATION_MAP = Some f ->
  is_exit (strip typed_b) = false ->
  float_of_str (strip typed_b) = Some b ->
  calculator_round (World (typed_a :: typed_op :: typed_b :: rest) out d)
  = (Ok tt,
     World rest
       (out ++ [Ask First_number; Ask Operation_symbol; Ask Second_number]
            ++ report a (strip typed_op) b (f a b)) d).
Proof.
  intros Ha Hfa Hop Hlook Hb Hfb.
  unfold calculator_round, read_number at 1, bind at 1, try_except at 1,
    bind at 1, input at 1.
  cbn [stdin stdout disk]. rewrite Ha, Hfa. unfold ret at 1.
  unfold bind at 1, input at 1. cbn [stdin stdout disk]. rewrite Hop, Hlook.
  unfold read_number at 1, bind at 1, try_except at 1, bind at 1, input at 1.
  cbn [stdin stdout disk]. rewrite Hb, Hfb. unfold ret at 1.
  rewrite (computation_reports _ _ _ _ _ Hlook).
  cbn [stdin stdout disk]. rewrite <- !app_assoc. reflexivity.
Qed.

(** The loop goes through the rounds that come to their end: each of
    them reads a line, so the fuel lasts. *)
Lemma loop_after_rounds w w1 :
  rounds w w1 ->
  forall fuel, (List.length (stdin w) < fuel)%nat ->
  exists fuel',
    (List.length (stdin w1) < fuel')%nat
    /\ calculator_loop fuel w = calculator_loop fuel' w1.
Proof.
  induction 1 as [w|w w1 w' Hround _ IH]; intros fuel Hfuel.
  - now exists fuel.
  - destruct fuel as [|n]; [lia|].
    destruct (FuelProofs.calculator_round_reads w) as [Hr|Hr];
      rewrite Hround in Hr; cbn [fst snd] in Hr; [discriminate|].
    destruct (IH n ltac:(lia)) as (fuel' & Hfuel' & Hloop).
    exists fuel'. split; [assumption|].
    cbn [calculator_loop]. unfold bind at 1. now rewrite Hround.
Qed.

(** A round that an exit word ends closes the session, after any rounds
    that came to their end. *)
Lemma exit_round_closes w w1 w2 :
  rounds (World (stdin w) (stdout w ++ [Banner]) (disk w)) w1 ->
  calculator_round w1 = (Raise (SystemExit 0), w2) ->
  main w
  = (Ok tt, World (stdin w2) (stdout w2 ++ [Calculator_closed]) (disk w2)).
Proof.
  intros Hrounds Hexit.
  destruct (loop_after_rounds _ _ Hrounds
              (S (List.length (stdin w))) ltac:(cbn [stdin]; lia))
    as (fuel' & Hfuel' & Hloop).
  destruct fuel' as [|n]; [lia|].
  unfold main, try_except, run_calculator, bind at 1, print at 1.
  unfold fuel_of. cbn [stdin stdout disk]. rewrite Hloop.
  cbn [calculator_loop]. unfold bind at 1. rewrite Hexit.
  reflexivity.
Qed.

(** X9: an exit word typed at any of the three prompts, in any case and
    with blanks around it, ends the session normally, in the first round
    as after any number of rounds that came to their end: the closing
    message is printed and nothing more is read. *)
Theorem exit_word_closes_the_calculator w ins out d word rest :
  rounds (World (stdin w) (stdout w ++ [Banner]) (disk w))
         (World ins out d) ->
  is_exit (strip word) = true ->
  (ins = word :: rest ->
   main w
   = (Ok tt, World rest (out ++ [Ask First_number; Calculator_closed]) d))
  /\ (forall typed_a a,
        is_exit (strip typed_a) = false ->
        float_of_str (strip typed_a) = Some a ->
        ins = typed_a :: word :: rest ->
        main w
        = (Ok tt,
           World rest
             (out ++ [Ask First_number; Ask Operation_symbol;
                      Calculator_closed]) d))
  /\ (forall typed_a a typed_op f,
        is_exit (strip typed_a) = false ->
        float_of_str (strip typed_a) = Some a ->
        is_exit (strip typed_op) = false ->
        lookup (strip typed_op) OPERATION_MAP = Some f ->
        ins = typed_a :: typed_op :: word :: rest ->
        main w
        = (Ok tt,
           World rest
             (out ++ [Ask First_number; Ask Operation_symbol;
                      Ask Second_number; Calculator_closed]) d)).
Proof.
  intros Hrounds Hword.
  split; [|split].
  - intros ->.
    rewrite (exit_round_closes _ _ _ Hrounds
               (exit_at_first_number word rest out d Hword)).
    cbn [stdin stdout disk]. now rewrite <- app_assoc.
  - intros typed_a a Ha Hfa ->.
    rewrite (exit_round_closes _ _ _ Hrounds
               (exit_at_operation typed_a a word rest out d Ha Hfa Hword)).
    cbn [stdin stdout disk]. now rewrite <- app_assoc.
  - intros typed_a a typed_op f Ha Hfa Hop Hlook ->.
    rewrite (exit_round_closes _ _ _ Hrounds
               (exit_at_second_number typed_a a typed_op f word rest out d
                  Ha Hfa Hop Hlook Hword)).
    cbn [stdin stdout disk]. now rewrite <- app_assoc.
Qed.

(** X10: on lines that [input] returns (a standard input that decodes
    as text), a session of the calculator ends in one of two ways only:
    at an exit word, normally and with the closing message printed last,
    or with [EOFError] when standard input is at its end.  No other
    exception leaves it. *)
Theorem calculator_ends_closed_or_at_end_of_input
    (w : world message unit) :
  (exists w', main w = (Ok tt, w')
              /\ exists printed, stdout w' = printed ++ [Calculator_closed])
  \/ (exists w', main w = (Raise EOFError, w') /\ stdin w' = []).
Proof.
  pose proof (FuelProofs.run_calculator_has_fuel w) as [Hfuel _].
  unfold main, try_except.
  destruct (run_calculator w) as [r w1] eqn:Hrun.
  assert (H : exists e, r = Raise e /\ (e = OutOfFuel \/ leaves e w1)).
  { unfold run_calculator, bind at 1, print at 1 in Hrun.
    exact (calculator_loop_leaves _ _ _ _ Hrun). }
  destruct H as (e & -> & [->|[->|[-> Hend]]]).
  - now cbn [fst] in Hfuel.
  - left. eexists. split; [reflexivity|]. now eexists.
  - right. eexists. split; [reflexivity | assumption].
Qed.
End WithNumbers.

Lemma computed_round_reports_witness :
  @calculator_round sample_numbers (World [lit "6"; lit "*"; lit "7"] [] None)
  = (Ok tt,
     World []
       ([] ++ [Ask First_number; Ask Operation_symbol; Ask Second_number]
           ++ @report sample_numbers
                (binary_normalize 53 1024 6 0 false) (strip (lit "*"))
                (binary_normalize 53 1024 7 0 false)
                (@multiply_numbers sample_numbers
                   (binary_normalize 53 1024 6 0 false)
                   (binary_normalize 53 1024 7 0 false)))
       None).
Proof.
  apply (@computed_round_reports sample_numbers
           (lit "6") (lit "*") (lit "7")
           (binary_normalize 53 1024 6 0 false)
           (@multiply_numbers sample_numbers)
           (binary_normalize 53 1024 7 0 false) [] [] None); reflexivity.
Defined.

Lemma exit_word_closes_the_calculator_witness :
  @main sample_numbers
    (World [lit "6"; lit "x"; lit "2"; lit "  QuIt "; lit "1"] [] None)
  = (Ok tt,
     World [lit "1"]
       ([Banner; Ask First_number; Ask Operation_symbol;
         Not_recognized (lit "x")]
        ++ [Ask First_number; Ask Operation_symbol; Calculator_closed])
       None).
Proof.
  apply (proj1 (proj2
           (@exit_word_closes_the_calculator sample_numbers
              (World [lit "6"; lit "x"; lit "2"; lit "  QuIt "; lit "1"]
                 [] None)
              [lit "2"; lit "  QuIt "; lit "1"]
              [Banner; Ask First_number; Ask Operation_symbol;
               Not_recognized (lit "x")]
              None (lit "  QuIt ") [lit "1"]
              (@rounds_more sample_numbers
                 (World [lit "6"; lit "x"; lit "2"; lit "  QuIt "; lit "1"]
                    [Banner] None)
                 (World [lit "2"; lit "  QuIt "; lit "1"]
                    [Banner; Ask First_number; Ask Operation_symbol;
                     Not_recognized (lit "x")] None)
                 _ eq_refl (rounds_none _))
              eq_refl))
         (lit "2") (binary_normalize 53 1024 2 0 false));
    reflexivity.
Defined.
End CalcSessions.

(** * More on the contact book: searching, deleting, what is saved *)

Module ContactActions.
Import ContactBook ContactSpec ContactActionSpec CsvSpec.

Lemma found_contacts_spec term contacts :
  found_contacts term contacts
  = if forallb (searchable term) contacts
    then Ok (filter (search_matches term) contacts)
    else Raise AttributeError.
Proof.
  induction contacts as [|c l IH]; [reflexivity|].
  cbn [found_contacts forallb filter]. rewrite IH.
  destruct (forallb (searchable term) l);
    unfold search_test, searchable, search_matches;
    destruct (contains term (lower (name c)));
    destruct (phone c) as [p|]; reflexivity.
Qed.

Lemma search_contact_found contacts line rest out d :
  contacts <> [] ->
  forallb (searchable (lower (strip line))) contacts = true ->
  search_contact contacts (World (line :: rest) out d)
  = (Ok tt,
     World rest
       (out ++ Ask Enter_search_term
            :: search_report (lower (strip line))
                 (filter (search_matches (lower (strip line))) contacts))
       d).
Proof.
  intros Hne Hall. destruct contacts as [|c0 l0]; [congruence|].
  unfold search_contact.
  unfold bind at 1, input. cbn [stdin stdout disk]. cbv zeta.
  rewrite found_contacts_spec, Hall.
  destruct (filter _ (c0 :: l0)) as [|c l] eqn:Ef.
  - unfold print. cbn [stdin stdout disk search_report].
    rewrite <- app_assoc. reflexivity.
  - unfold bind at 1, print at 1. cbn [stdin stdout disk].
    unfold bind at 1. rewrite ContactProofs.print_found_prints.
    unfold print. cbn [stdin stdout disk search_report].
    rewrite <- !app_assoc. reflexivity.
Qed.

Lemma contains_incl t : forall s x,
  contains t s = true -> In x t -> In x s.
Proof.
  assert (Hstarts : forall t s x,
            startswith t s = true -> In x t -> In x s).
  { clear. induction t as [|c t IH]; intros s x H Hin; [contradiction|].
    destruct s as [|e s]; [discriminate|]. cbn [startswith] in H.
    apply andb_prop in H as [Hc H]. apply Ascii.eqb_eq in Hc. subst e.
    destruct Hin as [<-|Hin]; [now left | right; now apply (IH s)]. }
  induction s as [|e s IH]; intros x H Hin; cbn [contains] in H.
  - rewrite orb_false_r in H. exact (Hstarts _ _ _ H Hin).
  - apply orb_prop in H as [H|H]; [exact (Hstarts _ _ _ H Hin)|].
    right. now apply IH.
Qed.

Lemma replace_removes (old : ascii) s : ~ In old (replace old [] s).
Proof.
  unfold replace. induction s as [|c s IH]; [intros []|].
  cbn [flat_map]. destruct (ch c old) eqn:E; [exact IH|].
  intros [->|H]; [|now apply IH].
  unfold ch in E. now rewrite Ascii.eqb_refl in E.
Qed.

Lemma replace_keeps_out (old x : ascii) s :
  ~ In x s -> ~ In x (replace old [] s).
Proof.
  unfold replace. induction s as [|c s IH]; [intros _ []|].
  intros Hx. cbn [flat_map]. destruct (ch c old).
  - apply IH. intros H. apply Hx. now right.
  - intros [->|H]; [apply Hx; now left|].
    apply IH; [|assumption]. intros H'. apply Hx. now right.
Qed.

Lemma nth_error_in_range {A} (l : list A) k :
  1 <= k <= len l -> exists a, nth_error l (Z.to_nat (k - 1)) = Some a.
Proof.
  intros Hk. destruct (nth_error l (Z.to_nat (k - 1))) as [a|] eqn:E;
    [now exists a|].
  apply nth_error_None in E. unfold len in Hk. lia.
Qed.

Lemma remove_nth_firstn_skipn {A} (l : list A) : forall n,
  remove_nth l n = firstn n l ++ skipn (S n) l.
Proof.
  induction l as [|a l IH]; intros [|n]; cbn [remove_nth firstn skipn app];
    try reflexivity.
  rewrite IH. reflexivity.
Qed.

Lemma delete_contact_chosen contacts line k c rest out d :
  python_int (strip line) = Some k ->
  1 <= k <= len contacts ->
  nth_error contacts (Z.to_nat (k - 1)) = Some c ->
  delete_contact contacts (World (line :: rest) out d)
  = (Ok (remove_nth contacts (Z.to_nat (k - 1))),
     World rest
       (out ++ listing contacts
            ++ [Ask Enter_index_to_delete;
                save_message (remove_nth contacts (Z.to_nat (k - 1)));
                Contact_deleted (name c)])
       (Some (saved_text (remove_nth contacts (Z.to_nat (k - 1)))))).
Proof.
  intros Hint Hk Hc.
  assert (Htest : negb ((0 <=? k - 1) && (k - 1 <? len contacts)) = false).
  { apply negb_false_iff, andb_true_iff.
    split; [apply Z.leb_le | apply Z.ltb_lt]; lia. }
  destruct contacts as [|c0 l0];
    [destruct (Z.to_nat (k - 1)); discriminate|].
  unfold delete_contact.
  unfold bind at 1. rewrite ContactProofs.view_contact_list_prints.
  unfold bind at 1, try_except, bind at 1, input. cbn [stdin stdout disk].
  cbv zeta. rewrite Hint. cbv iota beta. rewrite Htest. unfold ret at 1.
  cbv iota beta. rewrite Hc.
  unfold bind at 1. rewrite PromptProofs.save_contacts_run.
  unfold bind, print, ret. cbn [stdin stdout disk].
  rewrite <- !app_assoc. reflexivity.
Qed.

Lemma writerows_stops l1 c l2 :
  Forall storable l1 -> extra c <> None ->
  writerows (l1 ++ c :: l2) = (flat_map record_line l1, Some ValueError).
Proof.
  intros H Hc. induction H as [|c1 l Hc1 _ IH].
  - cbn [app writerows flat_map]. unfold dict_to_list.
    destruct (extra c); [reflexivity | congruence].
  - destruct (PersistenceProofs.storable_row c1 Hc1) as (p & e & a & Hceq & _).
    cbn [app writerows flat_map]. rewrite IH, Hceq. reflexivity.
Qed.

Lemma record_line_filled c : record_line (filled c) = record_line c.
Proof.
  unfold record_line, filled, entered, written.
  cbn [name phone email address].
  destruct (phone c), (email c), (address c); reflexivity.
Qed.

Lemma writerows_filled contacts :
  Forall (fun c => extra c = None) contacts ->
  writerows contacts = writerows (map filled contacts).
Proof.
  induction 1 as [|c l Hc _ IH]; [reflexivity|].
  cbn [map writerows]. rewrite <- IH. unfold dict_to_list. rewrite Hc.
  cbn [filled entered extra name phone email address written].
  destruct (writerows l) as [text raised]. f_equal.
  change (Csv.writerow [Some (name c); phone c; email c; address c])
    with (record_line c).
  rewrite <- record_line_filled. reflexivity.
Qed.
Lemma record_lines_rows contacts :
  Forall storable contacts ->
  flat_map record_line contacts
  = flat_map (fun row => Csv.writerow (map Some row)) (map row_of contacts).
Proof.
  induction 1 as [|c l Hc _ IH]; [reflexivity|].
  cbn [flat_map map]. rewrite IH. f_equal.
  destruct (PersistenceProofs.storable_row c Hc) as (p & e & a & Hceq & _).
  rewrite Hceq. reflexivity.
Qed.

Lemma saved_text_stops l1 c l2 :
  Forall storable l1 -> extra c <> None ->
  saved_text (l1 ++ c :: l2) = saved_text l1
  /\ save_message (l1 ++ c :: l2) = Could_not_save ValueError.
Proof.
  intros H Hc. unfold saved_text, save_message.
  rewrite (writerows_stops l1 c l2 H Hc).
  rewrite (PersistenceProofs.writerows_storable l1 H). now split.
Qed.

(** X11: when every contact has a phone number, or holds the term in its
    name, [search_contact] reports the contacts that pass the test of the
    search, in the order of the list: their number and their details, or
    that none was found.  The term is what was typed, stripped and in
    lower case. *)
Theorem search_reports_the_matching_contacts contacts line rest out d :
  contacts <> [] ->
  forallb (searchable (lower (strip line))) contacts = true ->
  found_contacts (lower (strip line)) contacts
  = Ok (filter (search_matches (lower (strip line))) contacts)
  /\ search_contact contacts (World (line :: rest) out d)
     = (Ok tt,
        World rest
          (out ++ Ask Enter_search_term
               :: search_report (lower (strip line))
                    (filter (search_matches (lower (strip line))) contacts))
          d).
Proof.
  intros Hne Hall. split; [|now apply search_contact_found].
  now rewrite found_contacts_spec, Hall.
Qed.

Lemma search_reports_the_matching_contacts_witness :
  search_contact three_contacts (World [lit " BOB "] [] None)
  = (Ok tt,
     World []
       ([] ++ Ask Enter_search_term
           :: search_report (lower (strip (lit " BOB ")))
                (filter (search_matches (lower (strip (lit " BOB "))))
                   three_contacts))
       None).
Proof.
  apply (search_reports_the_matching_contacts three_contacts (lit " BOB ")
           [] [] None); [discriminate | reflexivity].
Defined.

(** X12: a contact without a phone number (one read from a line that
    holds a name only) whose name does not hold the term ends the search,
    and with it the session, with [AttributeError]; nothing is printed
    after the prompt. *)
Theorem search_stops_at_a_contact_without_phone
    contacts c line rest out d :
  In c contacts ->
  phone c = None ->
  contains (lower (strip line)) (lower (name c)) = false ->
  search_contact contacts (World (line :: rest) out d)
  = (Raise AttributeError, World rest (out ++ [Ask Enter_search_term]) d).
Proof.
  intros Hin Hphone Hname.
  assert (Hall : forallb (searchable (lower (strip line))) contacts = false).
  { destruct (forallb (searchable (lower (strip line))) contacts) eqn:E;
      [|reflexivity].
    rewrite forallb_forall in E. specialize (E c Hin).
    unfold searchable in E. now rewrite Hname, Hphone in E. }
  destruct contacts as [|c0 l0]; [contradiction|].
  unfold search_contact. unfold bind at 1, input. cbn [stdin stdout disk].
  cbv zeta. now rewrite found_contacts_spec, Hall.
Qed.

Lemma search_stops_at_a_contact_without_phone_witness :
  search_contact (three_contacts ++ [name_only]) (World [lit "bob"] [] None)
  = (Raise AttributeError, World [] ([] ++ [Ask Enter_search_term]) None).
Proof.
  apply (search_stops_at_a_contact_without_phone
           (three_contacts ++ [name_only]) name_only (lit "bob") [] [] None).
  - right. right. right. left. reflexivity.
  - reflexivity.
  - reflexivity.
Defined.

(** X13: a term with a blank or a dash in it never matches a phone
    number, because the blanks and dashes are taken out of the phone
    number and not out of the term: a contact found with such a term
    holds it in its name. *)
Theorem separator_in_term_misses_phones term c :
  In " "%char term \/ In "-"%char term ->
  search_test term c = Ok true ->
  contains term (lower (name c)) = true.
Proof.
  intros Hsep. unfold search_test.
  destruct (contains term (lower (name c))); [reflexivity|].
  destruct (phone c) as [p|]; [|discriminate].
  destruct (contains term (replace "-" [] (replace " " [] p))) eqn:E;
    [|discriminate].
  exfalso. destruct Hsep as [H|H].
  - apply (contains_incl _ _ _ E) in H. revert H.
    apply replace_keeps_out, replace_removes.
  - apply (contains_incl _ _ _ E) in H. revert H. apply replace_removes.
Qed.

Lemma separator_in_term_misses_phones_witness :
  contains (lit "555-0100")
    (lower (name (entered (lit "Desk 555-0100") (lit "555-0100")
                    (lit "desk@example.org") []))) = true.
Proof.
  apply (separator_in_term_misses_phones (lit "555-0100")
           (entered (lit "Desk 555-0100") (lit "555-0100")
              (lit "desk@example.org") [])).
  - right. right. right. right. left. reflexivity.
  - reflexivity.
Defined.

(** X14: when the number typed is the place of a contact in the listing,
    [delete_contact] takes that contact, and no other, out of the list,
    keeps the order of the others, saves the list and prints the name of
    the contact. *)
Theorem delete_removes_the_chosen_contact contacts line k rest out d :
  python_int (strip line) = Some k ->
  1 <= k <= len contacts ->
  exists c,
    nth_error contacts (Z.to_nat (k - 1)) = Some c
    /\ let kept := firstn (Z.to_nat (k - 1)) contacts
                   ++ skipn (Z.to_nat k) contacts in
       delete_contact contacts (World (line :: rest) out d)
       = (Ok kept,
          World rest
            (out ++ listing contacts
                 ++ [Ask Enter_index_to_delete; save_message kept;
                     Contact_deleted (name c)])
            (Some (saved_text kept))).
Proof.
  intros Hint Hk. destruct (nth_error_in_range contacts k Hk) as [c Hc].
  exists c. split; [assumption|]. cbv zeta.
  replace (Z.to_nat k) with (S (Z.to_nat (k - 1))) by lia.
  rewrite <- remove_nth_firstn_skipn.
  now apply delete_contact_chosen.
Qed.

Lemma delete_removes_the_chosen_contact_witness :
  exists c,
    nth_error three_contacts (Z.to_nat (2 - 1)) = Some c
    /\ let kept := firstn (Z.to_nat (2 - 1)) three_contacts
                   ++ skipn (Z.to_nat 2) three_contacts in
       delete_contact three_contacts (World [lit "2"] [] None)
       = (Ok kept,
          World []
            ([] ++ listing three_contacts
                ++ [Ask Enter_index_to_delete; save_message kept;
                    Contact_deleted (name c)])
            (Some (saved_text kept))).
Proof.
  apply (delete_removes_the_chosen_contact three_contacts (lit "2") 2
           [] [] None); [reflexivity | split; [lia | vm_compute; discriminate]].
Defined.

(** X15: a contact with values beyond the four fields (one read from a
    line of more than four fields) stops [save_contacts]: the file is left
    with the header and the contacts before that one, the contacts from
    that one on are not in it, and the failure is only printed.  The
    fields are strings of characters below U+0100, which [utf-8]
    encodes. *)
Theorem extra_column_stops_the_save l1 c l2 ins out d :
  Forall storable l1 ->
  extra c <> None ->
  save_contacts (l1 ++ c :: l2) (World ins out d)
  = (Ok tt,
     World ins (out ++ [Could_not_save ValueError]) (Some (saved_text l1)))
  /\ load_contacts
       (World ins (out ++ [Could_not_save ValueError])
          (Some (saved_text l1)))
     = (Ok l1,
        World ins (out ++ [Could_not_save ValueError])
          (Some (saved_text l1))).
Proof.
  intros H Hc. destruct (saved_text_stops l1 c l2 H Hc) as [Htext Hmsg].
  split; [|now apply PersistenceProofs.load_saved].
  now rewrite PromptProofs.save_contacts_run, Htext, Hmsg.
Qed.

Lemma extra_column_stops_the_save_witness :
  save_contacts (three_contacts ++ five_fields :: three_contacts)
    (World [] [] None)
  = (Ok tt,
     World [] ([] ++ [Could_not_save ValueError])
       (Some (saved_text three_contacts))).
Proof.
  apply (extra_column_stops_the_save three_contacts five_fields
           three_contacts [] [] None).
  - repeat constructor; discriminate.
  - discriminate.
Defined.

(** X16: a value that is missing from a contact (one read from a line of
    fewer than four fields) is written as the empty string: saving and
    loading again gives the contacts with the empty string in its
    place.  The fields are strings of characters below U+0100, which
    [utf-8] encodes, each of at most 131072 characters. *)
Theorem missing_values_are_saved_as_empty contacts ins out d :
  Forall (fun c => extra c = None) contacts ->
  Forall storable (map filled contacts) ->
  save_contacts contacts (World ins out d)
  = (Ok tt,
     World ins (out ++ [Contacts_saved])
       (Some (saved_text (map filled contacts))))
  /\ load_contacts
       (World ins (out ++ [Contacts_saved])
          (Some (saved_text (map filled contacts))))
     = (Ok (map filled contacts),
        World ins (out ++ [Contacts_saved])
          (Some (saved_text (map filled contacts)))).
Proof.
  intros Hextra Hfit. split; [|now apply PersistenceProofs.load_saved].
  rewrite PromptProofs.save_contacts_run. unfold save_message, saved_text.
  rewrite (writerows_filled contacts Hextra).
  now rewrite (PersistenceProofs.writerows_storable _ Hfit).
Qed.

Lemma missing_values_are_saved_as_empty_witness :
  load_contacts
    (snd (save_contacts (name_only :: three_contacts) (World [] [] None)))
  = (Ok (entered (lit "Ada") [] [] [] :: three_contacts),
     snd (save_contacts (name_only :: three_contacts) (World [] [] None))).
Proof.
  assert (Hextra : Forall (fun c => extra c = None)
                     (name_only :: three_contacts))
    by (repeat constructor).
  assert (Hfit : Forall storable (map filled (name_only :: three_contacts)))
    by (repeat constructor; discriminate).
  destruct (missing_values_are_saved_as_empty (name_only :: three_contacts)
              [] [] None Hextra Hfit) as [Hsave Hload].
  rewrite Hsave. exact Hload.
Defined.

(** X17: from a file that holds a line for each contact and no header,
    [load_contacts] reads the contacts, except that it takes the first
    line for the header, and drops it, when its first field is the text
    [name]. *)
Theorem file_without_header_is_loaded contacts ins out :
  Forall storable contacts ->
  load_contacts (World ins out (Some (flat_map record_line contacts)))
  = (Ok (kept_without_header contacts),
     World ins out (Some (flat_map record_line contacts))).
Proof.
  intros H. unfold load_contacts, bind, read_file. cbn [disk].
  rewrite (record_lines_rows contacts H).
  rewrite (CsvProofs.read_rows _
             (Forall_inv_tail (PersistenceProofs.rows_fit contacts H))).
  rewrite (PersistenceProofs.DictReader_rows contacts H).
  destruct contacts as [|c l]; [reflexivity|].
  cbn [yield_all kept_without_header].
  rewrite PersistenceProofs.append_rows_all.
  destruct (str_eqb (name c) (lit "name")); reflexivity.
Qed.

Lemma file_without_header_is_loaded_witness :
  load_contacts
    (World [] [] (Some (flat_map record_line awkward_contacts)))
  = (Ok (kept_without_header awkward_contacts),
     World [] [] (Some (flat_map record_line awkward_contacts))).
Proof.
  apply (file_without_header_is_loaded awkward_contacts [] []).
  repeat constructor; discriminate.
Defined.
Lemma update_field_answered c field a rest out d :
  answer_ok field a ->
  update_field c field (World (answer_lines a ++ rest) out d)
  = (Ok (answered c field a),
     World rest (out ++ answer_prints c field a) d).
Proof.
  destruct a as [line|first refused confirmed]; cbn [answer_ok answer_lines].
  - intros Hblank. unfold update_field, bind, input.
    cbn [app stdin stdout disk]. rewrite Hblank. reflexivity.
  - intros (Hfirst & Hrefused & Hconfirmed).
    unfold update_field, bind at 1, input.
    cbn [app stdin stdout disk]. cbv zeta.
    destruct (strip first) as [|x s] eqn:E; [congruence|].
    fold (validation_of field). unfold try_except, bind.
    rewrite <- app_assoc. cbn [app].
    rewrite PromptProofs.get_validated_input_retries by assumption.
    unfold ret. cbn [answered answer_prints].
    rewrite <- !app_assoc. reflexivity.
Qed.

Lemma update_fields_answered fields : forall answers c rest out d,
  Forall2 answer_ok fields answers ->
  update_fields c fields (World (flat_map answer_lines answers ++ rest) out d)
  = (Ok (answered_all c fields answers),
     World rest (out ++ all_prints c fields answers) d).
Proof.
  induction fields as [|field fields IH]; intros answers c rest out d H;
    inversion H as [|f a fs answers' Ha Hrest]; subst.
  - cbn. now rewrite app_nil_r.
  - cbn [update_fields flat_map answered_all all_prints].
    unfold bind. rewrite <- app_assoc.
    rewrite (update_field_answered c field a _ out d Ha).
    rewrite (IH answers' _ rest _ d Hrest).
    rewrite <- !app_assoc. reflexivity.
Qed.

Lemma answered_all_kept fields : forall answers c,
  Forall (fun a => exists line, a = Keep line) answers ->
  answered_all c fields answers = c.
Proof.
  induction fields as [|field fields IH]; intros answers c H; [reflexivity|].
  destruct H as [|a answers' [line ->] H]; [reflexivity|].
  cbn [answered_all answered]. now apply IH.
Qed.

Lemma set_nth_same {A} (l : list A) : forall n a,
  nth_error l n = Some a -> set_nth l n a = l.
Proof.
  induction l as [|b l IH]; intros [|n] a; cbn [nth_error set_nth];
    try discriminate.
  - now intros [= ->].
  - intros H. now rewrite IH.
Qed.

Lemma update_contact_chosen contacts line k c answers rest out d :
  python_int (strip line) = Some k ->
  1 <= k <= len contacts ->
  nth_error contacts (Z.to_nat (k - 1)) = Some c ->
  Forall2 answer_ok CONTACT_FIELDS answers ->
  update_contact contacts
    (World (line :: flat_map answer_lines answers ++ rest) out d)
  = (Ok (set_nth contacts (Z.to_nat (k - 1))
           (answered_all c CONTACT_FIELDS answers)),
     World rest
       (out ++ listing contacts
            ++ [Ask Enter_index_to_update; Updating_contact (name c)]
            ++ all_prints c CONTACT_FIELDS answers
            ++ [save_message
                  (set_nth contacts (Z.to_nat (k - 1))
                     (answered_all c CONTACT_FIELDS answers));
                Contact_updated
                  (name (answered_all c CONTACT_FIELDS answers))])
       (Some (saved_text
                (set_nth contacts (Z.to_nat (k - 1))
                   (answered_all c CONTACT_FIELDS answers))))).
Proof.
  intros Hint Hk Hc Hanswers.
  assert (Htest : negb ((0 <=? k - 1) && (k - 1 <? len contacts)) = false).
  { apply negb_false_iff, andb_true_iff.
    split; [apply Z.leb_le | apply Z.ltb_lt]; lia. }
  destruct contacts as [|c0 l0];
    [destruct (Z.to_nat (k - 1)); discriminate|].
  unfold update_contact.
  unfold bind at 1. rewrite ContactProofs.view_contact_list_prints.
  unfold bind at 1, try_except, bind at 1, input. cbn [stdin stdout disk].
  cbv zeta. rewrite Hint. cbv iota beta. rewrite Htest. unfold ret at 1.
  cbv iota beta. rewrite Hc.
  unfold bind at 1, print at 1. cbn [stdin stdout disk].
  unfold bind at 1. rewrite (update_fields_answered _ _ _ _ _ _ Hanswers).
  unfold bind at 1. rewrite PromptProofs.save_contacts_run.
  unfold bind, print, ret. cbn [stdin stdout disk].
  rewrite <- !app_assoc. reflexivity.
Qed.

(** X18: when the number typed is the place of a contact in the listing,
    and each of the four fields is answered by a blank line or by a line
    that is not blank followed by lines refused at the confirmation and a
    line accepted there, [update_contact] replaces that contact, and no
    other, by the contact in which each changed field holds the line that
    was confirmed (not the line typed first), saves the list and prints
    the name; when every field is answered by a blank line the list is
    the same, and it is saved all the same. *)
Theorem update_stores_the_confirmed_values
    contacts line k answers rest out d :
  python_int (strip line) = Some k ->
  1 <= k <= len contacts ->
  Forall2 answer_ok CONTACT_FIELDS answers ->
  exists c,
    nth_error contacts (Z.to_nat (k - 1)) = Some c
    /\ let c' := answered_all c CONTACT_FIELDS answers in
       let updated := set_nth contacts (Z.to_nat (k - 1)) c' in
       update_contact contacts
         (World (line :: flat_map answer_lines answers ++ rest) out d)
       = (Ok updated,
          World rest
            (out ++ listing contacts
                 ++ [Ask Enter_index_to_update; Updating_contact (name c)]
                 ++ all_prints c CONTACT_FIELDS answers
                 ++ [save_message updated; Contact_updated (name c')])
            (Some (saved_text updated)))
       /\ (Forall (fun a => exists l, a = Keep l) answers ->
           updated = contacts).
Proof.
  intros Hint Hk Hanswers.
  destruct (nth_error_in_range contacts k Hk) as [c Hc].
  exists c. split; [assumption|]. cbv zeta.
  split; [now apply update_contact_chosen|].
  intros Hkept. rewrite (answered_all_kept _ _ _ Hkept).
  now apply set_nth_same.
Qed.

Lemma update_stores_the_confirmed_values_witness :
  update_contact three_contacts
    (World [lit "2"; []; lit "call me"; lit "no"; lit "555 0000";
            lit " "; lit "x"; lit "1 Low Street"; lit "6"] [] None)
  = (Ok [ entered (lit "Ada") (lit "(555) 123-4567")
            (lit "ada@example.org") [];
          entered (lit "Bob") (lit "555 0000") (lit "bob@example.org")
            (lit "1 Low Street");
          entered (lit "Cy") (lit "0123") (lit "cy@example.org") [] ],
     World [lit "6"]
       (listing three_contacts
        ++ [Ask Enter_index_to_update; Updating_contact (lit "Bob");
            Ask (Enter_new K_name (Some (lit "Bob")));
            Ask (Enter_new K_phone (Some (lit "555 9876")));
            Ask (Confirm_new K_phone); Invalid_phone_format;
            Ask (Confirm_new K_phone);
            Ask (Enter_new K_email (Some (lit "bob@example.org")));
            Ask (Enter_new K_address (Some (lit "12 High Street")));
            Ask (Confirm_new K_address);
            Contacts_saved; Contact_updated (lit "Bob")])
       (Some (saved_text
          [ entered (lit "Ada") (lit "(555) 123-4567")
              (lit "ada@example.org") [];
            entered (lit "Bob") (lit "555 0000") (lit "bob@example.org")
              (lit "1 Low Street");
            entered (lit "Cy") (lit "0123") (lit "cy@example.org") [] ]))).
Proof.
  destruct (update_stores_the_confirmed_values three_contacts (lit "2") 2
              [Keep []; Change (lit "call me") [lit "no"] (lit "555 0000");
               Keep (lit " "); Change (lit "x") [] (lit "1 Low Street")]
              [lit "6"] [] None)
    as (c & Hc & Hrun & _).
  - reflexivity.
  - split; [lia | vm_compute; discriminate].
  - repeat constructor; try discriminate; reflexivity.
  - injection Hc as <-. exact Hrun.
Defined.
End ContactActions.

(** * The patterns of the validation *)

Module ReProofs.
Import Re ReSpec.

Lemma nullable_matches r rest :
  nullable r rest = true -> matches r [] rest.
Proof.
  induction r as [| |p|r1 IH1 r2 IH2|r1 IH1 r2 IH2|r IH|];
    cbn [nullable]; intros H; try discriminate.
  - constructor.
  - apply andb_prop in H as [H1 H2].
    apply (M_Cat r1 r2 [] [] rest); [apply IH1 | apply IH2]; assumption.
  - apply orb_prop in H as [H|H];
      [apply M_Alt_l, IH1 | apply M_Alt_r, IH2]; assumption.
  - constructor.
  - now constructor.
Qed.

Lemma matches_nullable r s rest :
  matches r s rest -> s = [] -> nullable r rest = true.
Proof.
  induction 1 as [rest|p c rest Hp|r1 r2 s1 s2 rest _ IH1 _ IH2
                  |r1 r2 s rest _ IH|r1 r2 s rest _ IH|r rest
                  |r s1 s2 rest _ _ _ _|rest Hend];
    intros E; cbn [nullable]; try reflexivity; try discriminate.
  - apply app_eq_nil in E as [-> ->].
    specialize (IH1 eq_refl). specialize (IH2 eq_refl).
    cbn [app] in IH1. now rewrite IH1, IH2.
  - now rewrite IH.
  - rewrite IH by assumption. apply orb_true_r.
  - assumption.
Qed.

Lemma deriv_matches r : forall c s rest,
  matches (deriv r c (s ++ rest)) s rest -> matches r (c :: s) rest.
Proof.
  induction r as [| |p|r1 IH1 r2 IH2|r1 IH1 r2 IH2|r IH|];
    intros c s rest; cbn [deriv]; intros H; try (inversion H; fail).
  - destruct (p c) eqn:Hp; inversion H; subst. now constructor.
  - assert (Hcat : matches (Cat (deriv r1 c (s ++ rest)) r2) s rest ->
                   matches (Cat r1 r2) (c :: s) rest).
    { intros Hd. inversion Hd as [| |? ? s1 s2 ? H1 H2| | | | |]; subst.
      rewrite <- app_assoc in H1. apply IH1 in H1.
      exact (M_Cat r1 r2 (c :: s1) s2 rest H1 H2). }
    destruct (nullable r1 (c :: s ++ rest)) eqn:Hn; [|now apply Hcat].
    inversion H; subst; [now apply Hcat|].
    apply (M_Cat r1 r2 [] (c :: s) rest);
      [now apply nullable_matches | now apply IH2].
  - inversion H; subst;
      [apply M_Alt_l, IH1 | apply M_Alt_r, IH2]; assumption.
  - inversion H as [| |? ? s1 s2 ? H1 H2| | | | |]; subst.
    rewrite <- app_assoc in H1. apply IH in H1.
    exact (M_Star_cons r (c :: s1) s2 rest H1 H2).
Qed.

Lemma matches_deriv r s0 rest :
  matches r s0 rest ->
  forall c s, s0 = c :: s -> matches (deriv r c (s ++ rest)) s rest.
Proof.
  induction 1 as [rest|p c' rest Hp|r1 r2 s1 s2 rest H1 IH1 H2 IH2
                  |r1 r2 s' rest _ IH|r1 r2 s' rest _ IH|r rest
                  |r s1 s2 rest H1 IH1 H2 IH2|rest Hend];
    intros c s E; cbn [deriv]; try discriminate.
  - injection E as -> <-. rewrite Hp. constructor.
  - assert (Hcat : forall s1', s1 = c :: s1' ->
              matches (Cat (deriv r1 c (s ++ rest)) r2) s rest).
    { intros s1' ->. injection E as <-. rewrite <- app_assoc.
      apply M_Cat; [now apply IH1 | assumption]. }
    destruct s1 as [|c1 s1'].
    + cbn [app] in E. subst s2.
      pose proof (matches_nullable _ _ _ H1 eq_refl) as Hn.
      cbn [app] in Hn. rewrite Hn.
      apply M_Alt_r. now apply IH2.
    + injection E as -> <-.
      destruct (nullable r1 _); [apply M_Alt_l|]; now apply (Hcat s1').
  - apply M_Alt_l. now apply IH.
  - apply M_Alt_r. now apply IH.
  - destruct s1 as [|c1 s1'].
    + cbn [app] in E. now apply IH2.
    + injection E as -> <-. rewrite <- app_assoc.
      apply M_Cat; [now apply IH1 | assumption].
Qed.

(** [re_match] finds a match exactly when a prefix of the string
    matches. *)
Lemma re_match_matches s : forall r,
  re_match r s = true
  <-> exists pre post, s = pre ++ post /\ matches r pre post.
Proof.
  induction s as [|c s IH]; intros r; cbn [re_match].
  - rewrite orb_false_r. split.
    + intros H. exists [], []. split; [reflexivity|].
      now apply nullable_matches.
    + intros (pre & post & E & H). symmetry in E.
      apply app_eq_nil in E as [-> ->].
      exact (matches_nullable _ _ _ H eq_refl).
  - split.
    + intros H. apply orb_prop in H as [H|H].
      * exists [], (c :: s). split; [reflexivity|].
        now apply nullable_matches.
      * apply IH in H as (pre & post & -> & H).
        exists (c :: pre), post. split; [reflexivity|].
        now apply deriv_matches.
    + intros (pre & post & E & H). destruct pre as [|c' pre].
      * cbn [app] in E. subst post.
        now rewrite (matches_nullable _ _ _ H eq_refl).
      * injection E as <- ->. apply orb_true_iff. right. apply IH.
        exists pre, post. split; [reflexivity|].
        exact (matches_deriv _ _ _ H c pre eq_refl).
Qed.

Lemma matches_set p s rest :
  matches (Set_ p) s rest <-> exists c, s = [c] /\ p c = true.
Proof.
  split.
  - intros H. inversion H; subst. now eexists.
  - intros (c & -> & H). now constructor.
Qed.

Lemma matches_star_set p s rest :
  matches (Star (Set_ p)) s rest <-> forallb p s = true.
Proof.
  split.
  - intros H. remember (Star (Set_ p)) as r eqn:E.
    induction H as [| | | | | |r s1 s2 rest H1 _ _ IH2|];
      try discriminate; [reflexivity|].
    injection E as ->. apply matches_set in H1 as (c & -> & Hc).
    cbn [app forallb]. rewrite Hc. now apply IH2.
  - revert rest. induction s as [|c s IH]; intros rest H; [constructor|].
    cbn [forallb] in H. apply andb_prop in H as [Hc Hs].
    apply (M_Star_cons (Set_ p) [c] s rest); [now constructor | now apply IH].
Qed.

Lemma matches_plus_set p s rest :
  matches (Plus (Set_ p)) s rest <-> s <> [] /\ forallb p s = true.
Proof.
  unfold Plus. split.
  - intros H. inversion H as [| |? ? s1 s2 ? H1 H2| | | | |]; subst.
    apply matches_set in H1 as (c & -> & Hc).
    apply matches_star_set in H2. cbn [app forallb]. rewrite Hc.
    split; [discriminate | assumption].
  - intros [Hne H]. destruct s as [|c s]; [congruence|].
    cbn [forallb] in H. apply andb_prop in H as [Hc Hs].
    apply (M_Cat (Set_ p) (Star (Set_ p)) [c] s rest);
      [now constructor | now apply matches_star_set].
Qed.

Lemma matches_cat r1 r2 s rest :
  matches (Cat r1 r2) s rest
  <-> exists s1 s2,
        s = s1 ++ s2 /\ matches r1 s1 (s2 ++ rest) /\ matches r2 s2 rest.
Proof.
  split.
  - intros H. inversion H as [| |? ? s1 s2 ? H1 H2| | | | |]; subst.
    now exists s1, s2.
  - intros (s1 & s2 & -> & H1 & H2). now constructor.
Qed.

Lemma matches_dollar s rest :
  matches Dollar s rest <-> s = [] /\ at_end rest = true.
Proof.
  split.
  - intros H. inversion H; subst. now split.
  - intros [-> H]. now constructor.
Qed.
End ReProofs.

(** * What the validation lets through *)

Module ValidationProofs.
Import ContactBook ContactSpec Re ReSpec ReProofs.

Lemma ch_eq c d : ch c d = true -> c = d.
Proof. unfold ch. apply Ascii.eqb_eq. Qed.

Lemma phone_pattern_matches pre post :
  matches phone_pattern pre post
  <-> pre <> [] /\ forallb phone_char pre = true /\ at_end post = true.
Proof.
  unfold phone_pattern. rewrite matches_cat. split.
  - intros (s1 & s2 & -> & H1 & H2).
    apply matches_dollar in H2 as [-> Hend].
    apply matches_plus_set in H1 as [Hne Hall]. rewrite app_nil_r.
    now repeat split.
  - intros (Hne & Hall & Hend). exists pre, []. rewrite app_nil_r.
    split; [reflexivity|].
    split; [now apply matches_plus_set | now apply matches_dollar].
Qed.

Lemma phone_pattern_spec v :
  re_match phone_pattern v = true
  <-> v <> [] /\ forallb phone_char v = true.
Proof.
  rewrite re_match_matches. split.
  - intros (pre & post & -> & H).
    apply phone_pattern_matches in H as (Hne & Hall & Hend).
    split; [destruct pre; [congruence | discriminate]|].
    rewrite forallb_app, Hall. cbn [andb].
    destruct post as [|c [|c' post]]; [reflexivity| |discriminate].
    cbn [at_end] in Hend. apply ch_eq in Hend. now subst c.
  - intros [Hne Hall]. exists v, []. rewrite app_nil_r.
    split; [reflexivity|]. now apply phone_pattern_matches.
Qed.

Lemma email_pattern_matches pre post :
  matches email_pattern pre post
  <-> exists a b c,
        pre = a ++ "@"%char :: b ++ "."%char :: c
        /\ part a /\ part b /\ part c.
Proof.
  unfold email_pattern, one, none_of, part. cbv zeta.
  fold not_at. split.
  - intros H.
    apply matches_cat in H as (a & s1 & -> & Ha & H).
    apply matches_cat in H as (x & s2 & -> & Hx & H).
    apply matches_cat in H as (b & s3 & -> & Hb & H).
    apply matches_cat in H as (y & c & -> & Hy & Hc).
    apply matches_set in Hx as (x' & -> & Hx). apply ch_eq in Hx. subst x'.
    apply matches_set in Hy as (y' & -> & Hy). apply ch_eq in Hy. subst y'.
    apply matches_plus_set in Ha, Hb, Hc.
    now exists a, b, c.
  - intros (a & b & c & -> & Ha & Hb & Hc).
    apply (M_Cat _ _ a); [now apply matches_plus_set|].
    apply (M_Cat _ _ ["@"%char]); [now constructor|].
    apply (M_Cat _ _ b); [now apply matches_plus_set|].
    apply (M_Cat _ _ ["."%char]); [now constructor|].
    now apply matches_plus_set.
Qed.

Lemma email_pattern_spec v :
  re_match email_pattern v = true <-> starts_with_an_address v.
Proof.
  rewrite re_match_matches. unfold starts_with_an_address. split.
  - intros (pre & post & -> & H).
    apply email_pattern_matches in H as (a & b & c & -> & Ha & Hb & Hc).
    exists a, b, c, post. split; [|tauto].
    rewrite <- !app_assoc. cbn [app]. rewrite <- !app_assoc. reflexivity.
  - intros (a & b & c & rest & -> & Ha & Hb & Hc).
    exists (a ++ "@"%char :: b ++ "."%char :: c), rest.
    split; [|apply email_pattern_matches; now exists a, b, c].
    rewrite <- !app_assoc. cbn [app]. rewrite <- !app_assoc. reflexivity.
Qed.

(** What [get_validated_input] returns was typed and passed the
    validation; the backing file is not touched. *)
Lemma get_validated_input_loop_accepts p vt fuel : forall w v w',
  get_validated_input_loop fuel p vt w = (Ok v, w') ->
  (exists line, In line (stdin w) /\ v = strip line /\ accepted vt line)
  /\ disk w' = disk w.
Proof.
  induction fuel as [|n IH]; intros w v w'; cbn [get_validated_input_loop];
    [discriminate|].
  intros H. apply bind_ok in H as (line & w1 & Hin & H).
  apply input_ok in Hin as (rest & Hw & ->). rewrite Hw. cbv zeta in H.
  assert (Hnext : forall m,
            bind (print m) (fun _ => get_validated_input_loop n p vt)
              (World rest (stdout w ++ [Ask p]) (disk w)) = (Ok v, w') ->
            (exists line0, In line0 (line :: rest) /\ v = strip line0
                           /\ accepted vt line0)
            /\ disk w' = disk w).
  { intros m Hm. apply bind_ok in Hm as (u & w2 & Hp & Hm).
    unfold print in Hp. injection Hp as _ <-.
    apply IH in Hm as [(line0 & Hin0 & Hv & Hacc) Hd].
    split; [|exact Hd]. exists line0. split; [now right | now split]. }
  assert (Hhere : rejection vt line = None -> v = strip line ->
            disk w' = disk w ->
            (exists line0, In line0 (line :: rest) /\ v = strip line0
                           /\ accepted vt line0)
            /\ disk w' = disk w).
  { intros Hacc Hv Hd. split; [|exact Hd]. exists line.
    split; [now left | now split]. }
  unfold rejection in Hhere.
  destruct (strip line) as [|c s] eqn:E; [now apply Hnext in H|].
  destruct (str_eqb vt (lit "email")).
  - destruct (re_match email_pattern (c :: s)); cbn [negb] in H;
      [|now apply Hnext in H].
    injection H as <- <-. now apply Hhere.
  - destruct (str_eqb vt (lit "phone")).
    + destruct (re_match phone_pattern (c :: s)); cbn [negb] in H;
        [|now apply Hnext in H].
      injection H as <- <-. now apply Hhere.
    + injection H as <- <-. now apply Hhere.
Qed.

Lemma accepted_valid vt line :
  accepted vt line ->
  strip line <> []
  /\ (vt = lit "phone" -> forallb phone_char (strip line) = true)
  /\ (vt = lit "email" -> starts_with_an_address (strip line)).
Proof.
  unfold accepted, rejection.
  destruct (strip line) as [|c s] eqn:E; [discriminate|].
  intros H. split; [discriminate|]. split; intros ->.
  - change (str_eqb (lit "phone") (lit "email")) with false in H.
    change (str_eqb (lit "phone") (lit "phone")) with true in H.
    cbv iota in H.
    destruct (re_match phone_pattern (c :: s)) eqn:Em; [|discriminate].
    now apply phone_pattern_spec in Em.
  - change (str_eqb (lit "email") (lit "email")) with true in H.
    cbv iota in H.
    destruct (re_match email_pattern (c :: s)) eqn:Em; [|discriminate].
    now apply email_pattern_spec in Em.
Qed.

Lemma get_validated_input_valid p vt w v w' :
  get_validated_input p vt w = (Ok v, w') ->
  v <> []
  /\ (exists line, In line (stdin w) /\ v = strip line)
  /\ (vt = lit "phone" -> forallb phone_char v = true)
  /\ (vt = lit "email" -> starts_with_an_address v)
  /\ disk w' = disk w.
Proof.
  unfold get_validated_input. intros H.
  apply get_validated_input_loop_accepts in H
    as [(line & Hin & -> & Hacc) Hd].
  destruct (accepted_valid vt line Hacc) as (Hne & Hphone & Hemail).
  repeat split; try assumption. now exists line.
Qed.

(** X19: the pattern of the phone numbers matches exactly the strings
    that are not empty and hold only digits, parentheses, white space and
    dashes. *)
Theorem phone_pattern_accepts_exactly (v : str) :
  re_match phone_pattern v = true
  <-> v <> [] /\ forallb phone_char v = true.
Proof. apply phone_pattern_spec. Qed.

(** X20: the pattern of the addresses matches exactly the strings that
    start with a part, [@], a part, a dot and a part, where a part is not
    empty and holds no [@]; what follows is not looked at, so that a
    string that is accepted stays accepted whatever is put after it. *)
Theorem email_pattern_accepts_exactly (v : str) :
  (re_match email_pattern v = true <-> starts_with_an_address v)
  /\ (re_match email_pattern v = true ->
      forall more, re_match email_pattern (v ++ more) = true).
Proof.
  split; [apply email_pattern_spec|].
  intros H more. apply email_pattern_spec in H.
  destruct H as (a & b & c & rest & -> & Ha & Hb & Hc).
  apply email_pattern_spec. exists a, b, c, (rest ++ more).
  split; [|tauto].
  rewrite <- !app_assoc. cbn [app]. rewrite <- !app_assoc. cbn [app].
  now rewrite <- !app_assoc.
Qed.

(** X21: whatever is typed, the value [get_validated_input] returns is
    one of the lines typed, stripped; it is not empty; for the validation
    [phone] it holds only the characters of a phone number, for the
    validation [email] it starts with an address; the backing file is
    not touched. *)
Theorem validated_input_is_valid p vt w v w' :
  get_validated_input p vt w = (Ok v, w') ->
  v <> []
  /\ (exists line, In line (stdin w) /\ v = strip line)
  /\ (vt = lit "phone" -> forallb phone_char v = true)
  /\ (vt = lit "email" -> starts_with_an_address v)
  /\ disk w' = disk w.
Proof. apply get_validated_input_valid. Qed.

Lemma validated_input_is_valid_witness :
  lit "555-1234" <> []
  /\ (exists line,
        In line [lit "call me"; lit ""; lit " 555-1234 "; lit "next"]
        /\ lit "555-1234" = strip line)
  /\ (lit "phone" = lit "phone" ->
      forallb phone_char (lit "555-1234") = true)
  /\ (lit "phone" = lit "email" -> starts_with_an_address (lit "555-1234"))
  /\ @None str = None.
Proof.
  apply (validated_input_is_valid Enter_phone (lit "phone")
           (World [lit "call me"; lit ""; lit " 555-1234 "; lit "next"]
              [] None)
           (lit "555-1234")
           (World [lit "next"]
              [Ask Enter_phone; Invalid_phone_format;
               Ask Enter_phone; Input_cannot_be_empty; Ask Enter_phone]
              None)).
  reflexivity.
Defined.

(** X22: whatever is typed, the list [add_contact] returns is the list it
    was given followed by one contact with the four fields and no other
    value: its name is not empty, its phone number is not empty and holds
    only the characters of a phone number, its email starts with an
    address; the backing file holds what [save_contacts] writes for the
    list returned. *)
Theorem added_contact_is_valid contacts w l w' :
  add_contact contacts w = (Ok l, w') ->
  exists n p e a,
    l = contacts ++ [entered n p e a]
    /\ n <> []
    /\ (p <> [] /\ forallb phone_char p = true)
    /\ starts_with_an_address e
    /\ disk w' = Some (saved_text l).
Proof.
  unfold add_contact. intros H.
  apply bind_ok in H as (_ & w1 & _ & H).
  apply bind_ok in H as (n & w2 & Hn & H).
  apply bind_ok in H as (p & w3 & Hp & H).
  apply bind_ok in H as (e & w4 & He & H).
  apply bind_ok in H as (line & w5 & Hline & H). cbv zeta in H.
  apply bind_ok in H as (u & w6 & Hsave & H).
  apply bind_ok in H as (u' & w7 & Hprint & H).
  unfold ret in H. injection H as <- <-.
  unfold print in Hprint. injection Hprint as _ <-.
  destruct w5 as [ins5 out5 d5].
  rewrite PromptProofs.save_contacts_run in Hsave. injection Hsave as _ <-.
  apply get_validated_input_valid in Hn as (Hn & _).
  apply get_validated_input_valid in Hp as (Hp & _ & Hphone & _).
  apply get_validated_input_valid in He as (_ & _ & _ & Hemail & _).
  exists n, p, e, (strip line). unfold entered.
  split; [reflexivity|]. split; [assumption|].
  split; [split; [assumption | now apply Hphone]|].
  split; [now apply Hemail | reflexivity].
Qed.

Lemma added_contact_is_valid_witness :
  exists n p e a,
    three_contacts ++ [entered (lit "Dee") (lit "555 0101")
                         (lit "dee@example.org") (lit "3 Mill Lane")]
    = three_contacts ++ [entered n p e a]
    /\ n <> []
    /\ (p <> [] /\ forallb phone_char p = true)
    /\ starts_with_an_address e
    /\ Some (saved_text
               (three_contacts ++ [entered (lit "Dee") (lit "555 0101")
                  (lit "dee@example.org") (lit "3 Mill Lane")]))
       = Some (saved_text
                 (three_contacts ++ [entered (lit "Dee") (lit "555 0101")
                    (lit "dee@example.org") (lit "3 Mill Lane")])).
Proof.
  apply (added_contact_is_valid three_contacts
           (World [lit ""; lit "Dee"; lit "none"; lit "555 0101";
                   lit "dee"; lit "dee@example.org"; lit " 3 Mill Lane"]
              [] None)
           _
           (World []
              [Adding_new_contact;
               Ask Enter_name; Input_cannot_be_empty; Ask Enter_name;
               Ask Enter_phone; Invalid_phone_format; Ask Enter_phone;
               Ask Enter_email; Invalid_email_format; Ask Enter_email;
               Ask Enter_address; Contacts_saved; Contact_added (lit "Dee")]
              (Some (saved_text
                 (three_contacts ++ [entered (lit "Dee") (lit "555 0101")
                    (lit "dee@example.org") (lit "3 Mill Lane")]))))).
  reflexivity.
Defined.
End ValidationProofs.

(** * How a session ends *)

Ltac quiet :=
  repeat first
    [ assumption
    | apply only_raises_ret
    | apply only_raises_print
    | apply only_raises_write_file
    | apply only_raises_input; solve [reflexivity | left; reflexivity]
    | apply only_raises_raise; solve [reflexivity | left; reflexivity]
    | apply only_raises_then; [|intros ?]
    | match goal with
      | |- only_raises _ (match ?x with _ => _ end) => destruct x
      | |- only_raises _ (let _ := _ in _) => cbv zeta
      end ].

Module TodoSessions.
Import Todo TodoSpec TodoActionSpec.

Lemma print_tasks_quiet P tasks :
  forallb has_id tasks = true -> only_raises P (print_tasks tasks).
Proof.
  induction tasks as [|t l IH]; cbn [forallb print_tasks]; [intros; quiet|].
  intros H. apply andb_prop in H as [Ht Hl]. cbv zeta.
  unfold has_id, task_id_of in *. destruct (id t); [|discriminate].
  apply only_raises_then; [quiet | intros _; now apply IH].
Qed.

Lemma view_tasks_quiet P tasks :
  forallb has_id tasks = true -> only_raises P (view_tasks tasks).
Proof.
  intros H. unfold view_tasks. destruct tasks as [|t l]; [quiet|].
  apply only_raises_then; [quiet|]. intros _.
  apply only_raises_then; [now apply print_tasks_quiet | intros _; quiet].
Qed.

(** [add_task] raises at the end of standard input, and when the id it
    made does not print: then the document is left unfinished. *)
Lemma add_task_raises today tasks w e w' :
  add_task today tasks w = (Raise e, w') ->
  e = EOFError \/ (e = ValueError /\ disk w' = Some Undecodable).
Proof.
  destruct w as [[|a rest] out d]; [intros [= <- _]; now left|].
  destruct (strip a) as [|c s] eqn:Ea.
  - unfold add_task, bind, input. cbn [stdin stdout disk]. rewrite Ea.
    unfold print, ret. discriminate.
  - destruct rest as [|b rest].
    + unfold add_task, bind, input. cbn [stdin stdout disk]. rewrite Ea.
      intros [= <- _]. now left.
    + assert (Hne : strip a <> []) by (rewrite Ea; discriminate).
      destruct (int_prints (get_next_id tasks)) eqn:Hp.
      * rewrite (TodoProofs.add_task_described today tasks a b rest out d
                   Hne Hp).
        discriminate.
      * rewrite (TodoProofs.add_task_unprintable today tasks a b rest out d
                   Hne Hp).
        intros [= <- <-]. right. now split.
Qed.

Lemma mark_task_done_quiet tasks :
  forallb has_id tasks = true ->
  only_raises end_of_input (mark_task_done tasks).
Proof.
  intros Hall [[|line rest] out d] e w'.
  - intros [= <- _]. now left.
  - destruct (python_int (strip line)) as [k|] eqn:Ek;
      [destruct (existsb (id_is k) tasks) eqn:Ex|].
    + now rewrite (TodoActions.mark_task_done_found _ _ _ _ _ _ Hall Ek Ex).
    + rewrite TodoActions.mark_task_done_unknown; [discriminate|].
      apply TodoActions.find_task_by_id_unknown; [assumption | congruence].
    + rewrite TodoActions.mark_task_done_unknown; [discriminate|].
      apply TodoActions.find_task_by_id_unknown; [assumption | congruence].
Qed.

Lemma delete_task_quiet tasks :
  forallb has_id tasks = true ->
  only_raises end_of_input (delete_task tasks).
Proof.
  intros Hall [[|line rest] out d] e w'.
  - intros [= <- _]. now left.
  - destruct (python_int (strip line)) as [k|] eqn:Ek;
      [destruct (existsb (id_is k) tasks) eqn:Ex|].
    + now rewrite (TodoProofs.delete_task_found _ _ _ _ _ _ Hall Ek Ex).
    + rewrite TodoActions.delete_task_unknown; [discriminate|].
      apply TodoActions.find_task_by_id_unknown; [assumption | congruence].
    + rewrite TodoActions.delete_task_unknown; [discriminate|].
      apply TodoActions.find_task_by_id_unknown; [assumption | congruence].
Qed.

Lemma add_task_keeps_ids today tasks :
  forallb has_id tasks = true ->
  returns (fun l => forallb has_id l = true) (add_task today tasks).
Proof.
  intros Hall w l w' H.
  apply TodoActions.add_task_cases in H as [[-> _]|(a & b & _ & -> & _)];
    [assumption|].
  now rewrite forallb_app, Hall.
Qed.

Lemma mark_task_done_keeps_ids tasks :
  forallb has_id tasks = true ->
  returns (fun l => forallb has_id l = true) (mark_task_done tasks).
Proof.
  intros Hall w l w' H.
  apply TodoActions.mark_task_done_cases in H as [[-> _]|(k & _ & -> & _)];
    [assumption | | assumption].
  now rewrite TodoActions.has_id_mark_first.
Qed.

Lemma delete_task_keeps_ids tasks :
  forallb has_id tasks = true ->
  returns (fun l => forallb has_id l = true) (delete_task tasks).
Proof.
  intros Hall w l w' H.
  apply TodoActions.delete_task_cases in H as [[-> _]|(k & -> & _)];
    [assumption | | assumption].
  destruct (TodoProofs.filter_keeps_ids tasks k) as [E|E]; congruence.
Qed.

Lemma todo_menu_loop_raises today fuel : forall tasks w e w',
  forallb has_id tasks = true ->
  menu_loop fuel today tasks w = (Raise e, w') ->
  end_of_input e \/ (e = ValueError /\ disk w' = Some Undecodable).
Proof.
  induction fuel as [|n IH]; intros tasks w e w' Hall; cbn [menu_loop];
    [intros [= <- _]; left; now right|].
  intros H. apply bind_raised in H as [H|(u & w1 & _ & H)]; [discriminate|].
  apply bind_raised in H as [H|(line & w2 & _ & H)].
  { assert (Hi : only_raises end_of_input
                   (@input message file (Ask Enter_choice))) by quiet.
    left. exact (Hi _ _ _ H). }
  cbv zeta in H.
  repeat match type of H with
    | context [if str_eqb ?a ?b then _ else _] => destruct (str_eqb a b)
    end.
  - apply bind_raised in H as [H|(u' & w3 & _ & H)];
      [elim (view_tasks_quiet (fun _ => False) tasks Hall _ _ _ H)|].
    now apply IH in H.
  - apply bind_raised in H as [H|(l & w3 & Hadd & H)].
    + apply add_task_raises in H as [->|H]; [left; now left | now right].
    + apply IH in H; [assumption|].
      exact (add_task_keeps_ids today tasks Hall _ _ _ Hadd).
  - apply bind_raised in H as [H|(u' & w3 & _ & H)];
      [elim (view_tasks_quiet (fun _ => False) tasks Hall _ _ _ H)|].
    apply bind_raised in H as [H|(l & w4 & Hmark & H)].
    + left. exact (mark_task_done_quiet tasks Hall _ _ _ H).
    + apply IH in H; [assumption|].
      exact (mark_task_done_keeps_ids tasks Hall _ _ _ Hmark).
  - apply bind_raised in H as [H|(u' & w3 & _ & H)];
      [elim (view_tasks_quiet (fun _ => False) tasks Hall _ _ _ H)|].
    apply bind_raised in H as [H|(l & w4 & Hdel & H)].
    + left. exact (delete_task_quiet tasks Hall _ _ _ H).
    + apply IH in H; [assumption|].
      exact (delete_task_keeps_ids tasks Hall _ _ _ Hdel).
  - apply bind_raised in H as [H|(u' & [ins out d] & _ & H)];
      [discriminate|].
    rewrite TodoProofs.save_tasks_run in H. discriminate.
  - apply bind_raised in H as [H|(u' & w3 & _ & H)]; [discriminate|].
    now apply IH in H.
Qed.


End TodoSessions.

Module ContactSessions.
Import ContactBook ContactSpec ContactActionSpec.

Lemma save_contacts_quiet P contacts : only_raises P (save_contacts contacts).
Proof.
  unfold save_contacts. destruct (writerows contacts) as [text raised].
  quiet.
Qed.

Lemma get_validated_input_loop_quiet p vt fuel :
  only_raises end_of_input (get_validated_input_loop fuel p vt).
Proof.
  induction fuel as [|n IH]; cbn [get_validated_input_loop];
    [apply only_raises_raise; now right|].
  quiet.
Qed.

Lemma get_validated_input_quiet p vt :
  only_raises (eq EOFError) (get_validated_input p vt).
Proof.
  apply only_raises_tame; [apply FuelProofs.get_validated_input_tame|].
  intros w e w'. unfold get_validated_input.
  apply get_validated_input_loop_quiet.
Qed.

Lemma add_contact_quiet contacts :
  only_raises (eq EOFError) (add_contact contacts).
Proof.
  unfold add_contact.
  repeat first
    [ apply get_validated_input_quiet
    | apply save_contacts_quiet
    | apply only_raises_print
    | apply only_raises_ret
    | apply only_raises_input; reflexivity
    | apply only_raises_then; [|intros ?]
    | cbv zeta ].
Qed.

Lemma add_contact_complete contacts :
  forallb has_phone contacts = true ->
  returns (fun l => forallb has_phone l = true) (add_contact contacts).
Proof.
  intros Hall. unfold add_contact.
  do 5 (apply returns_then; intros ?). cbv zeta.
  do 2 (apply returns_then; intros ?).
  apply returns_ret. now rewrite forallb_app, Hall.
Qed.

Lemma print_entries_quiet P l : forall i, only_raises P (print_entries i l).
Proof.
  induction l as [|c l IH]; intros i; cbn [print_entries]; [quiet|].
  apply only_raises_then; [quiet | intros _; apply IH].
Qed.

Lemma view_contact_list_quiet P contacts :
  only_raises P (view_contact_list contacts).
Proof.
  unfold view_contact_list. destruct contacts; [quiet|].
  apply only_raises_then; [quiet|]. intros _.
  apply only_raises_then; [apply print_entries_quiet | intros _; quiet].
Qed.

Lemma print_found_quiet P l : only_raises P (print_found l).
Proof.
  induction l as [|c l IH]; cbn [print_found]; [quiet|].
  do 4 (apply only_raises_then; [quiet | intros _]). exact IH.
Qed.

Lemma complete_searchable term contacts :
  forallb has_phone contacts = true -> forallb (searchable term) contacts = true.
Proof.
  induction contacts as [|c l IH]; [reflexivity|]. cbn [forallb].
  intros H. apply andb_prop in H as [Hc Hl]. rewrite (IH Hl).
  unfold searchable. unfold has_phone in Hc.
  destruct (phone c); [|discriminate]. now rewrite orb_true_r.
Qed.

Lemma search_contact_quiet contacts :
  forallb has_phone contacts = true -> only_raises (eq EOFError) (search_contact contacts).
Proof.
  intros Hall. unfold search_contact.
  destruct contacts as [|c0 l0]; [quiet|].
  apply only_raises_then; [quiet|]. intros line. cbv zeta.
  rewrite ContactActions.found_contacts_spec.
  rewrite (complete_searchable _ _ Hall).
  destruct (filter _ (c0 :: l0)); [quiet|].
  apply only_raises_then; [quiet|]. intros _.
  apply only_raises_then; [apply print_found_quiet | intros _; quiet].
Qed.

Lemma setitem_has_phone c field v :
  has_phone c = true -> has_phone (setitem c field v) = true.
Proof. destruct field; cbn; auto. Qed.

Lemma update_field_quiet c field :
  only_raises (eq EOFError) (update_field c field).
Proof.
  unfold update_field. apply only_raises_then; [quiet|]. intros line.
  cbv zeta. destruct (strip line); [quiet|].
  apply only_raises_try_except with (P' := eq EOFError).
  - apply only_raises_then; [apply get_validated_input_quiet|].
    intros v. quiet.
  - intros e <-. cbn. quiet.
Qed.

Lemma update_field_complete c field :
  has_phone c = true ->
  returns (fun c' => has_phone c' = true) (update_field c field).
Proof.
  intros Hc. unfold update_field. apply returns_then. intros line.
  cbv zeta. destruct (strip line); [now apply returns_ret|].
  apply returns_try_except.
  - apply returns_then. intros v. apply returns_ret.
    now apply setitem_has_phone.
  - intros e k. destruct (is_Exception e); [|discriminate].
    intros [= <-]. apply returns_ret. now apply setitem_has_phone.
Qed.

Lemma update_fields_quiet fields : forall c,
  only_raises (eq EOFError) (update_fields c fields).
Proof.
  induction fields as [|field fields IH]; intros c; cbn [update_fields];
    [quiet|].
  apply only_raises_then; [apply update_field_quiet | exact IH].
Qed.

Lemma update_fields_complete fields : forall c,
  has_phone c = true ->
  returns (fun c' => has_phone c' = true) (update_fields c fields).
Proof.
  induction fields as [|field fields IH]; intros c Hc; cbn [update_fields];
    [now apply returns_ret|].
  apply returns_bind with (R := fun c' => has_phone c' = true);
    [now apply update_field_complete | exact IH].
Qed.

Lemma complete_nth contacts : forall n c,
  forallb has_phone contacts = true -> nth_error contacts n = Some c -> has_phone c = true.
Proof.
  induction contacts as [|c0 l IH]; intros [|n] c; cbn [forallb nth_error];
    try discriminate; intros H E; apply andb_prop in H as [H0 Hl].
  - now injection E as <-.
  - exact (IH _ _ Hl E).
Qed.

Lemma complete_set_nth contacts : forall n c,
  forallb has_phone contacts = true -> has_phone c = true -> forallb has_phone (set_nth contacts n c) = true.
Proof.
  induction contacts as [|c0 l IH]; intros [|n] c; cbn [forallb set_nth];
    try reflexivity; intros H Hc; apply andb_prop in H as [H0 Hl].
  - now rewrite Hc, Hl.
  - now rewrite H0, IH.
Qed.

Lemma complete_remove_nth contacts : forall n,
  forallb has_phone contacts = true -> forallb has_phone (remove_nth contacts n) = true.
Proof.
  induction contacts as [|c0 l IH]; intros [|n]; cbn [forallb remove_nth];
    try reflexivity; intros H; apply andb_prop in H as [H0 Hl].
  - assumption.
  - now rewrite H0, IH.
Qed.

(** The choice of a contact by its number raises the end of input
    only. *)
Lemma choice_quiet (p : prompt) (contacts : list contact) :
  only_raises (eq EOFError)
    (try_except
       (bind (input (Ask p)) (fun line =>
          let index_str := strip line in
          match python_int index_str with
          | None => raise ValueError
          | Some n =>
              let contact_index := n - 1 in
              if negb ((0 <=? contact_index)
                       && (contact_index <? len contacts))
              then bind (print Invalid_contact_number)
                        (fun _ => ret None)
              else ret (Some contact_index)
          end))
       (fun e =>
          match e with
          | ValueError =>
              Some (bind (print (F := str) Invalid_input_number)
                         (fun _ => ret None))
          | _ => None
          end)).
Proof.
  apply only_raises_try_except
    with (P' := fun e => e = EOFError \/ e = ValueError).
  - apply only_raises_then; [apply only_raises_input; now left|].
    intros line. cbv zeta.
    destruct (python_int (strip line));
      [|apply only_raises_raise; now right].
    destruct (negb _); quiet.
  - intros e [-> | ->]; [reflexivity | quiet].
Qed.

Lemma update_contact_quiet contacts :
  only_raises (eq EOFError) (update_contact contacts).
Proof.
  unfold update_contact.
  apply only_raises_then; [apply view_contact_list_quiet|]. intros _.
  destruct contacts as [|c0 l0]; [quiet|].
  apply only_raises_then; [apply choice_quiet|]. intros [i|]; [|quiet].
  destruct (nth_error (c0 :: l0) (Z.to_nat i)) as [c|]; [|quiet].
  apply only_raises_then; [quiet|]. intros _.
  apply only_raises_then; [apply update_fields_quiet|]. intros c'.
  cbv zeta.
  apply only_raises_then; [apply save_contacts_quiet | intros _; quiet].
Qed.

Lemma update_contact_complete contacts :
  forallb has_phone contacts = true ->
  returns (fun l => forallb has_phone l = true) (update_contact contacts).
Proof.
  intros Hall. unfold update_contact. apply returns_then. intros _.
  destruct contacts as [|c0 l0]; [now apply returns_ret|].
  apply returns_then. intros [i|]; [|now apply returns_ret].
  destruct (nth_error (c0 :: l0) (Z.to_nat i)) as [c|] eqn:E;
    [|now apply returns_ret].
  apply returns_then. intros _.
  apply returns_bind with (R := fun c' => has_phone c' = true);
    [apply update_fields_complete; exact (complete_nth _ _ _ Hall E)|].
  intros c' Hc'. cbv zeta. do 2 (apply returns_then; intros _).
  apply returns_ret. now apply complete_set_nth.
Qed.

Lemma delete_contact_quiet contacts :
  only_raises (eq EOFError) (delete_contact contacts).
Proof.
  unfold delete_contact.
  apply only_raises_then; [apply view_contact_list_quiet|]. intros _.
  destruct contacts as [|c0 l0]; [quiet|].
  apply only_raises_then; [apply choice_quiet|]. intros [i|]; [|quiet].
  destruct (nth_error (c0 :: l0) (Z.to_nat i)) as [c|]; [|quiet].
  cbv zeta.
  apply only_raises_then; [apply save_contacts_quiet | intros _; quiet].
Qed.

Lemma delete_contact_complete contacts :
  forallb has_phone contacts = true ->
  returns (fun l => forallb has_phone l = true) (delete_contact contacts).
Proof.
  intros Hall. unfold delete_contact. apply returns_then. intros _.
  destruct contacts as [|c0 l0]; [now apply returns_ret|].
  apply returns_then. intros [i|]; [|now apply returns_ret].
  destruct (nth_error (c0 :: l0) (Z.to_nat i)) as [c|] eqn:E;
    [|now apply returns_ret].
  cbv zeta. do 2 (apply returns_then; intros _).
  apply returns_ret. now apply complete_remove_nth.
Qed.

Lemma contact_menu_loop_quiet fuel : forall contacts,
  forallb has_phone contacts = true ->
  only_raises end_of_input (menu_loop fuel contacts).
Proof.
  assert (Hweak : forall A (c : IO A),
            only_raises (eq EOFError) c -> only_raises end_of_input c).
  { intros A c. apply only_raises_weaken. intros e <-. now left. }
  induction fuel as [|n IH]; intros contacts Hall; cbn [menu_loop];
    [apply only_raises_raise; now right|].
  apply only_raises_then; [quiet|]. intros _.
  apply only_raises_then; [quiet|]. intros line. cbv zeta.
  repeat match goal with
    | |- context [if str_eqb ?a ?b then _ else _] => destruct (str_eqb a b)
    end.
  - apply only_raises_then; [apply view_contact_list_quiet|].
    intros _. now apply IH.
  - apply only_raises_bind with (Q := fun l => forallb has_phone l = true);
      [apply Hweak, add_contact_quiet | now apply add_contact_complete
      | exact IH].
  - apply only_raises_then; [now apply Hweak, search_contact_quiet|].
    intros _. now apply IH.
  - apply only_raises_bind with (Q := fun l => forallb has_phone l = true);
      [apply Hweak, update_contact_quiet | now apply update_contact_complete
      | exact IH].
  - apply only_raises_bind with (Q := fun l => forallb has_phone l = true);
      [apply Hweak, delete_contact_quiet | now apply delete_contact_complete
      | exact IH].
  - apply only_raises_then; [quiet | intros _; apply save_contacts_quiet].
  - apply only_raises_then; [quiet|]. intros _. now apply IH.
Qed.

Lemma load_contacts_returns w :
  exists l w1, load_contacts w = (Ok l, w1).
Proof.
  unfold load_contacts, bind, read_file. destruct (disk w) as [text|];
    [|now eexists _, _].
  cbv zeta.
  destruct (match DictReader (Csv.reader_of (file_lines text)) with
            | Stop => ([], None)
            | Throw e => ([], Some e)
            | Yield first_row next =>
                append_rows
                  (if negb (str_eqb (name first_row) (lit "name"))
                   then [first_row] else [])
                  next
            end) as [l [e|]]; now eexists _, _.
Qed.

(** X24: when every contact of the backing file has a phone number (as
    every contact that the program wrote has), a session of the contact
    book ends in one of two ways only, whatever lines [input] returns
    (a standard input that decodes as text, of characters below U+0100):
    normally, at the exit choice, or with [EOFError] when standard input
    is at its end.  No other exception leaves it. *)
Theorem contact_session_ends_at_exit_or_end_of_input w contacts :
  fst (load_contacts w) = Ok contacts ->
  forallb has_phone contacts = true ->
  fst (main_menu w) = Ok tt \/ fst (main_menu w) = Raise EOFError.
Proof.
  intros Hload Hall.
  pose proof (FuelProofs.contact_book_has_fuel w) as Hfuel.
  destruct (main_menu w) as [[[]|e] w'] eqn:E; [now left|].
  right. cbn [fst] in *. unfold main_menu in E.
  apply bind_raised in E as [E|(l & w1 & Hl & E)].
  - rewrite E in Hload. discriminate.
  - rewrite Hl in Hload. injection Hload as ->.
    destruct (contact_menu_loop_quiet _ _ Hall _ _ _ E) as [->| ->];
      [reflexivity | now elim Hfuel].
Qed.

Lemma contact_session_ends_at_exit_or_end_of_input_witness :
  fst (main_menu
         (World [lit "3"; lit "bob"; lit "5"; lit "1"] []
            (Some (saved_text three_contacts))))
  = Ok tt
  \/ fst (main_menu
            (World [lit "3"; lit "bob"; lit "5"; lit "1"] []
               (Some (saved_text three_contacts))))
     = Raise EOFError.
Proof.
  apply (contact_session_ends_at_exit_or_end_of_input
           (World [lit "3"; lit "bob"; lit "5"; lit "1"] []
              (Some (saved_text three_contacts)))
           three_contacts); [|reflexivity].
  rewrite PersistenceProofs.load_saved; [reflexivity|].
  repeat constructor; discriminate.
Defined.
End ContactSessions.

(** * Edge cases of the to-do list and of the calculator *)

Module TodoLoading.
Import Todo.

(** X25: a backing file that cannot be decoded is reported, the session
    starts with no task, and the exit choice then replaces the file by
    the empty list: what the file held is lost. *)
Theorem undecodable_file_is_replaced_at_exit today line rest out :
  strip line = lit "5" ->
  main_menu today (World (line :: rest) out (Some Undecodable))
  = (Ok tt,
     World rest (out ++ [Error_loading; Menu; Ask Enter_choice; Exiting])
       (Some (Json []))).
Proof.
  intros Hline. unfold main_menu.
  erewrite bind_step; [|reflexivity].
  unfold fuel_of. cbn [stdin List.length menu_loop].
  erewrite bind_step; [|reflexivity].
  erewrite bind_step; [|reflexivity].
  cbv zeta. rewrite Hline.
  repeat match goal with
    | |- context [str_eqb ?a ?b] =>
        let v := eval vm_compute in (str_eqb a b) in
        change (str_eqb a b) with v
    end.
  cbv iota. unfold bind, print, save_tasks, write_file.
  cbn [stdin stdout disk]. rewrite <- !app_assoc. reflexivity.
Qed.

Lemma undecodable_file_is_replaced_at_exit_witness :
  main_menu (lit "2024-05-01") (World [lit " 5 "] [] (Some Undecodable))
  = (Ok tt,
     World [] ([] ++ [Error_loading; Menu; Ask Enter_choice; Exiting])
       (Some (Json []))).
Proof.
  apply (undecodable_file_is_replaced_at_exit (lit "2024-05-01")
           (lit " 5 ") [] []).
  reflexivity.
Defined.
End TodoLoading.

Module CalcSymbols.
Import Calc CalcSpec.

Section WithNumbers.
Context {N : Numbers}.

Lemma lookup_unrecognized op :
  ~ In op [lit "+"; lit "-"; lit "*"; lit "/"; lit "**"] ->
  lookup op OPERATION_MAP = None.
Proof.
  intros H. unfold OPERATION_MAP. cbn [lookup].
  repeat match goal with
    | |- context [str_eqb op ?k] =>
        let E := fresh "E" in
        destruct (str_eqb op k) eqn:E;
        [apply CalcProofs.str_eqb_eq in E; subst; exfalso; apply H; cbn;
         tauto|]
    end.
  reflexivity.
Qed.

(** X26: a symbol other than the five of [OPERATION_MAP] (compared after
    stripping, letter for letter) is reported as not recognized; the
    round ends there, without asking for the second number, and the
    first number is not kept. *)
Theorem unrecognized_symbol_ends_the_round
    typed_a a typed_op rest out d :
  is_exit (strip typed_a) = false ->
  float_of_str (strip typed_a) = Some a ->
  is_exit (strip typed_op) = false ->
  ~ In (strip typed_op) [lit "+"; lit "-"; lit "*"; lit "/"; lit "**"] ->
  calculator_round (World (typed_a :: typed_op :: rest) out d)
  = (Ok tt,
     World rest
       (out ++ [Ask First_number; Ask Operation_symbol;
                Not_recognized (strip typed_op)]) d).
Proof.
  intros Ha Hfa Hop Hnot.
  apply CalcProofs.round_rejecting_operation with (a := a); try assumption.
  now apply lookup_unrecognized.
Qed.
End WithNumbers.

Lemma unrecognized_symbol_ends_the_round_witness :
  @calculator_round sample_numbers
    (World [lit "5"; lit "x"; lit "7"] [] None)
  = (Ok tt,
     World [lit "7"]
       ([] ++ [Ask First_number; Ask Operation_symbol;
               Not_recognized (strip (lit "x"))]) None).
Proof.
  apply (@unrecognized_symbol_ends_the_round sample_numbers
           (lit "5") (binary_normalize 53 1024 5 0 false) (lit "x")
           [lit "7"] [] None); try reflexivity.
  vm_compute. intuition discriminate.
Defined.
End CalcSymbols.

(** * Dates *)

Module TodoDates.
Import Todo TodoSpec Datetime DatetimeSpec.

Lemma digit_char_digit k :
  0 <= k <= 9 ->
  isdigit (digit_char k) = true /\ digit_val (digit_char k) = k.
Proof.
  intros Hk.
  assert (H : In k [0; 1; 2; 3; 4; 5; 6; 7; 8; 9]) by (cbn; lia).
  cbn in H.
  repeat (destruct H as [<-|H]; [split; reflexivity|]). contradiction.
Qed.

Lemma directive_Y_four_digits year rest :
  1000 <= year <= 9999 ->
  directive_Y (four_digits year ++ rest) = Some (year, rest).
Proof.
  intros Hy. unfold four_digits, directive_Y. cbn [app].
  assert (H1 : 0 <= year / 1000 <= 9)
    by (Z.to_euclidean_division_equations; lia).
  assert (H2 : 0 <= year / 100 mod 10 <= 9)
    by (Z.to_euclidean_division_equations; lia).
  assert (H3 : 0 <= year / 10 mod 10 <= 9)
    by (Z.to_euclidean_division_equations; lia).
  assert (H4 : 0 <= year mod 10 <= 9)
    by (Z.to_euclidean_division_equations; lia).
  destruct (digit_char_digit _ H1) as [-> ->].
  destruct (digit_char_digit _ H2) as [-> ->].
  destruct (digit_char_digit _ H3) as [-> ->].
  destruct (digit_char_digit _ H4) as [-> ->].
  cbn [andb]. do 2 f_equal.
  Z.to_euclidean_division_equations; lia.
Qed.

Lemma directive_m_two_digits month rest :
  1 <= month <= 12 ->
  directive_m (two_digits month ++ "-"%char :: rest)
  = Some (month, "-"%char :: rest).
Proof.
  intros Hm.
  assert (H : In month [1; 2; 3; 4; 5; 6; 7; 8; 9; 10; 11; 12])
    by (cbn; lia).
  cbn in H. repeat (destruct H as [<-|H]; [reflexivity|]). contradiction.
Qed.

Lemma directive_d_two_digits day :
  1 <= day <= 31 ->
  directive_d (two_digits day) = Some (day, []).
Proof.
  intros Hd.
  assert (H : In day [1; 2; 3; 4; 5; 6; 7; 8; 9; 10; 11; 12; 13; 14; 15;
                      16; 17; 18; 19; 20; 21; 22; 23; 24; 25; 26; 27; 28;
                      29; 30; 31]) by (cbn; lia).
  cbn in H. repeat (destruct H as [<-|H]; [reflexivity|]). contradiction.
Qed.

Lemma date_ok_bounds year month day :
  date_ok year month day = true ->
  1 <= year <= 9999 /\ 1 <= month <= 12 /\ 1 <= day <= 31.
Proof.
  unfold date_ok, days_in_month. intros H.
  repeat (apply andb_prop in H as [H ?]).
  assert (Hday : day <= 31).
  { destruct (month =? 2); [destruct (is_leap year); lia|].
    destruct ((month =? 4) || (month =? 6) || (month =? 9) || (month =? 11));
      lia. }
  lia.
Qed.

Lemma strptime_strftime year month day :
  1000 <= year ->
  date_ok year month day = true ->
  strptime (strftime year month day) = Some (year, month, day).
Proof.
  intros Hy Hok. destruct (date_ok_bounds _ _ _ Hok) as (Hy' & Hm & Hd).
  unfold strptime, strftime.
  rewrite directive_Y_four_digits by lia. cbn [literal].
  change (ch "-" "-") with true. cbv iota.
  rewrite directive_m_two_digits by assumption. cbn [literal].
  change (ch "-" "-") with true. cbv iota.
  rewrite directive_d_two_digits by assumption.
  now rewrite Hok.
Qed.

(** X27: a due date written the way [created_on] is written (the year in
    four digits, the month and the day in two) is kept as it was typed,
    whenever it is a date of the calendar: the task that [add_task]
    appends and saves bears it.  As for every task added, [add_task]
    returns when the new id prints; when it does not, the last [print]
    raises [ValueError] after the save has failed. *)
Theorem written_dates_are_kept
    today tasks typed_description typed_due year month day rest out d :
  strip typed_description <> [] ->
  strip typed_due = strftime year month day ->
  1000 <= year ->
  date_ok year month day = true ->
  let t := Task (Some (get_next_id tasks)) (strip typed_description) false
                today (Some (strftime year month day)) in
  let printed := out ++ [Ask Enter_description; Ask Enter_due_date]
                     ++ save_report (tasks ++ [t]) in
  add_task today tasks (World (typed_description :: typed_due :: rest) out d)
  = if int_prints (get_next_id tasks)
    then (Ok (tasks ++ [t]),
          World rest (printed ++ [Task_added (get_next_id tasks)])
            (Some (saved (tasks ++ [t]))))
    else (Raise ValueError,
          World rest printed (Some (saved (tasks ++ [t])))).
Proof.
  intros Hdesc Hdue Hy Hok t printed.
  rewrite TodoProofs.add_task_builds by assumption.
  unfold new_task, kept_due_date, due_date_messages. rewrite Hdue.
  rewrite (strptime_strftime _ _ _ Hy Hok).
  fold t. subst printed.
  destruct (strftime year month day) as [|c s] eqn:E.
  - destruct (int_prints (get_next_id tasks));
      unfold bind, print, raise, ret; cbn [stdin stdout disk];
      rewrite <- ?app_assoc; reflexivity.
  - destruct (int_prints (get_next_id tasks));
      unfold bind, print, raise, ret; cbn [stdin stdout disk];
      rewrite <- ?app_assoc; reflexivity.
Qed.

Lemma written_dates_are_kept_witness :
  add_task (lit "2024-05-01") four_tasks
    (World [lit "call home"; lit " 2024-02-29 "] [] None)
  = (Ok (four_tasks ++
           [Task (Some (get_next_id four_tasks)) (strip (lit "call home"))
              false (lit "2024-05-01") (Some (strftime 2024 2 29))]),
     World []
       ([] ++ [Ask Enter_description; Ask Enter_due_date;
               Task_added (get_next_id four_tasks)])
       (Some (Json (four_tasks ++
           [Task (Some (get_next_id four_tasks)) (strip (lit "call home"))
              false (lit "2024-05-01") (Some (strftime 2024 2 29))])))).
Proof.
  apply (written_dates_are_kept (lit "2024-05-01") four_tasks
           (lit "call home") (lit " 2024-02-29 ") 2024 2 29 [] [] None);
    [discriminate | reflexivity | lia | reflexivity].
Defined.
End TodoDates.

(** * Choosing a contact by its number *)

Module ContactChoice.
Import ContactBook ContactSpec.

(** X28: when what is typed for the number of the contact is not a
    number, [update_contact] and [delete_contact] print that a number is
    expected and return the list as it was, without writing the backing
    file; on an empty book they print that the book is empty and read
    nothing. *)
Theorem index_that_is_no_number_changes_nothing contacts line rest out d :
  python_int (strip line) = None ->
  (contacts <> [] ->
   update_contact contacts (World (line :: rest) out d)
   = (Ok contacts,
      World rest
        (out ++ listing contacts
             ++ [Ask Enter_index_to_update; Invalid_input_number]) d)
   /\ delete_contact contacts (World (line :: rest) out d)
      = (Ok contacts,
         World rest
           (out ++ listing contacts
                ++ [Ask Enter_index_to_delete; Invalid_input_number]) d))
  /\ update_contact [] (World (line :: rest) out d)
     = (Ok [], World (line :: rest) (out ++ [Book_is_empty]) d)
  /\ delete_contact [] (World (line :: rest) out d)
     = (Ok [], World (line :: rest) (out ++ [Book_is_empty]) d).
Proof.
  intros Hint. split; [|split; reflexivity].
  intros Hne. destruct contacts as [|c l]; [congruence|].
  split.
  - unfold update_contact, bind. rewrite ContactProofs.view_contact_list_prints.
    unfold try_except, bind, input. cbn [stdin stdout disk]. cbv zeta.
    rewrite Hint. unfold raise, print, ret. cbn [stdin stdout disk].
    rewrite <- !app_assoc. reflexivity.
  - unfold delete_contact, bind. rewrite ContactProofs.view_contact_list_prints.
    unfold try_except, bind, input. cbn [stdin stdout disk]. cbv zeta.
    rewrite Hint. unfold raise, print, ret. cbn [stdin stdout disk].
    rewrite <- !app_assoc. reflexivity.
Qed.

Lemma index_that_is_no_number_changes_nothing_witness :
  update_contact three_contacts (World [lit "two"; lit "6"] [] None)
  = (Ok three_contacts,
     World [lit "6"]
       ([] ++ listing three_contacts
           ++ [Ask Enter_index_to_update; Invalid_input_number]) None)
  /\ delete_contact three_contacts (World [lit "two"; lit "6"] [] None)
     = (Ok three_contacts,
        World [lit "6"]
          ([] ++ listing three_contacts
              ++ [Ask Enter_index_to_delete; Invalid_input_number]) None).
Proof.
  apply (index_that_is_no_number_changes_nothing three_contacts (lit "two")
           [lit "6"] [] None); [reflexivity | discriminate].
Defined.
End ContactChoice.

(** * The arithmetic of the calculator on integers *)

Module FloatProofs.
Import CalcSpec.

Lemma digits2_pos_log2 m : Zpos (digits2_pos m) = Z.log2 (Zpos m) + 1.
Proof.
  induction m as [p IH|p IH|]; cbn [digits2_pos]; [| |reflexivity].
  - rewrite Pos2Z.inj_succ, IH.
    change (Zpos p~1) with (2 * Zpos p + 1).
    rewrite Z.log2_succ_double by lia. lia.
  - rewrite Pos2Z.inj_succ, IH.
    change (Zpos p~0) with (2 * Zpos p).
    rewrite Z.log2_double by lia. lia.
Qed.

Lemma digits2_shift m m' k :
  0 <= k -> Zpos m' = Zpos m * 2 ^ k ->
  Zpos (digits2_pos m') = Zpos (digits2_pos m) + k.
Proof.
  intros Hk H. rewrite !digits2_pos_log2, H.
  rewrite Z.log2_mul_pow2 by lia. lia.
Qed.

Lemma iter_xO m d : Zpos (Pos.iter xO m d) = Zpos m * 2 ^ Zpos d.
Proof.
  induction d as [|d IH] using Pos.peano_ind.
  - cbn [Pos.iter]. lia.
  - rewrite Pos.iter_succ, Pos2Z.inj_succ, Z.pow_succ_r by lia.
    change (Zpos (Pos.iter xO m d)~0) with (2 * Zpos (Pos.iter xO m d)).
    rewrite IH. lia.
Qed.

Lemma iter_pos_nat {A} (f : A -> A) p : forall x,
  iter_pos f p x = Nat.iter (Pos.to_nat p) f x.
Proof.
  induction p as [p IH|p IH|]; intros x; cbn [iter_pos].
  - rewrite !IH, Pos2Nat.inj_xI, Nat.iter_succ_r.
    replace (2 * Pos.to_nat p)%nat with (Pos.to_nat p + Pos.to_nat p)%nat
      by lia.
    now rewrite Nat.iter_add.
  - rewrite !IH, Pos2Nat.inj_xO.
    replace (2 * Pos.to_nat p)%nat with (Pos.to_nat p + Pos.to_nat p)%nat
      by lia.
    now rewrite Nat.iter_add.
  - reflexivity.
Qed.

(** Halving an even mantissa loses nothing. *)
Lemma halvings k : forall m,
  Nat.iter k shr_1 (Build_shr_record (Zpos (Nat.iter k xO m)) false false)
  = Build_shr_record (Zpos m) false false.
Proof.
  induction k as [|k IH]; intros m; [reflexivity|].
  rewrite Nat.iter_succ_r. simpl Nat.iter at 2.
  cbn [shr_1 orb]. apply IH.
Qed.

Lemma nat_iter_xO k m : Zpos (Nat.iter k xO m) = Zpos m * 2 ^ Z.of_nat k.
Proof.
  induction k as [|k IH]; [simpl; lia|].
  rewrite Nat2Z.inj_succ, Z.pow_succ_r by lia. simpl Nat.iter.
  change (Zpos (Nat.iter k xO m)~0) with (2 * Zpos (Nat.iter k xO m)).
  rewrite IH. lia.
Qed.

Lemma shr_shift m m' e n k :
  0 <= n -> 0 <= k -> Zpos m' = Zpos m * 2 ^ k ->
  shr (Build_shr_record (Zpos m') false false) (e - k) (n + k)
  = shr (Build_shr_record (Zpos m) false false) e n.
Proof.
  intros Hn Hk Hm.
  assert (Hm' : m' = Nat.iter (Z.to_nat k) xO m).
  { apply Pos2Z.inj. rewrite nat_iter_xO, Z2Nat.id by assumption.
    exact Hm. }
  unfold shr. destruct (n + k) as [|p|p] eqn:Enk; [| |lia].
  - assert (n = 0) by lia. assert (k = 0) by lia. subst n k.
    rewrite Hm'. simpl. now rewrite Z.sub_0_r.
  - rewrite iter_pos_nat.
    replace (Pos.to_nat p) with (Z.to_nat n + Z.to_nat k)%nat by lia.
    rewrite Nat.iter_add, Hm', halvings.
    destruct n as [|q|q]; [| |lia].
    + simpl. f_equal. lia.
    + rewrite iter_pos_nat. cbn [Z.to_nat]. f_equal. lia.
Qed.

Lemma target_shift m m' e k :
  0 <= k -> Zpos m' = Zpos m * 2 ^ k -> target m' (e - k) = target m e.
Proof.
  intros Hk Hm. unfold target. rewrite (digits2_shift m m' k Hk Hm).
  f_equal. lia.
Qed.

(** Rounding does not depend on how the number is written, once the
    exponent is at most the one of the format. *)
Lemma binary_round_aux_shift s m m' e k :
  e <= target m e -> 0 <= k -> Zpos m' = Zpos m * 2 ^ k ->
  binary_round_aux 53 1024 s (Zpos m') (e - k) loc_Exact
  = binary_round_aux 53 1024 s (Zpos m) e loc_Exact.
Proof.
  intros Hc Hk Hm. unfold binary_round_aux.
  replace (shr_fexp 53 1024 (Zpos m') (e - k) loc_Exact)
    with (shr_fexp 53 1024 (Zpos m) e loc_Exact); [reflexivity|].
  unfold shr_fexp. cbn [shr_record_of_loc Zdigits2].
  fold (target m e). fold (target m' (e - k)).
  rewrite (target_shift m m' e k Hk Hm).
  replace (target m e - (e - k)) with ((target m e - e) + k) by lia.
  symmetry. apply shr_shift; [lia | assumption | assumption].
Qed.

Lemma binary_round_aligned s m e :
  e <= target m e ->
  binary_round 53 1024 s m e
  = binary_round_aux 53 1024 s (Zpos m) e loc_Exact.
Proof.
  intros Hc. unfold binary_round, shl_align. fold (target m e).
  destruct (target m e - e) eqn:E; [reflexivity | reflexivity | lia].
Qed.

Lemma binary_round_written s m e j mj :
  0 <= j -> Zpos mj = Zpos m * 2 ^ j -> e - j <= target m e ->
  binary_round 53 1024 s m e
  = binary_round_aux 53 1024 s (Zpos mj) (e - j) loc_Exact.
Proof.
  intros Hj Hmj Hle.
  destruct (Z_le_gt_dec e (target m e)) as [Hc|Hc].
  - rewrite binary_round_aligned by assumption. symmetry.
    now apply binary_round_aux_shift.
  - unfold binary_round, shl_align. fold (target m e).
    destruct (target m e - e) as [|d|d] eqn:E; [lia | lia |].
    pose proof (iter_xO m d) as Hd.
    assert (Ed : Zpos d = e - target m e) by lia.
    replace (e - j) with (target m e - (j - Zpos d)) by lia.
    symmetry. apply binary_round_aux_shift.
    + assert (Ht : target (Pos.iter xO m d) (e - Zpos d) = target m e)
        by (apply target_shift; [lia | assumption]).
      replace (e - Zpos d) with (target m e) in Ht by lia.
      rewrite Ht. lia.
    + lia.
    + rewrite Hmj, Hd, <- Z.mul_assoc, <- Z.pow_add_r by lia.
      do 2 f_equal. lia.
Qed.

Lemma binary_round_shift s m m' e k :
  0 <= k -> Zpos m' = Zpos m * 2 ^ k ->
  binary_round 53 1024 s m' (e - k) = binary_round 53 1024 s m e.
Proof.
  intros Hk Hm.
  set (j := Z.max 0 (e - k - target m e)).
  assert (Hj : 0 <= j) by lia.
  assert (Hpos : 0 < Zpos m' * 2 ^ j)
    by (apply Z.mul_pos_pos; [lia | now apply Z.pow_pos_nonneg]).
  set (mj := Z.to_pos (Zpos m' * 2 ^ j)).
  assert (Hmj : Zpos mj = Zpos m' * 2 ^ j)
    by (subst mj; now rewrite Z2Pos.id).
  rewrite (binary_round_written s m' (e - k) j mj Hj Hmj)
    by (rewrite (target_shift m m' e k Hk Hm); lia).
  rewrite (binary_round_written s m e (k + j) mj); [f_equal; lia | lia | | lia].
  rewrite Hmj, Hm, <- Z.mul_assoc, <- Z.pow_add_r by lia. reflexivity.
Qed.

Lemma binary_normalize_shift M E k sz :
  0 <= k ->
  binary_normalize 53 1024 (M * 2 ^ k) (E - k) sz
  = binary_normalize 53 1024 M E sz.
Proof.
  intros Hk. pose proof (Z.pow_pos_nonneg 2 k ltac:(lia) Hk) as Hp.
  destruct M as [|m|m].
  - reflexivity.
  - destruct (Zpos m * 2 ^ k) as [|m'|m'] eqn:Hm; [lia | | lia].
    cbn [binary_normalize]. now apply binary_round_shift.
  - destruct (Zneg m * 2 ^ k) as [|m'|m'] eqn:Hm; [lia | lia |].
    cbn [binary_normalize]. apply binary_round_shift; [assumption|]. lia.
Qed.

(** The float of a positive integer below [2 ^ 53] is the integer. *)
Lemma binary_round_small s p :
  Zpos p < 2 ^ 53 ->
  exists mz ez,
    binary_round 53 1024 s p 0 = S754_finite s mz ez
    /\ -52 <= ez <= 0
    /\ Zpos mz = Zpos p * 2 ^ (- ez)
    /\ Zpos (digits2_pos mz) = 53.
Proof.
  intros Hp.
  assert (Hd : 1 <= Zpos (digits2_pos p) <= 53).
  { rewrite digits2_pos_log2.
    pose proof (Z.log2_nonneg (Zpos p)).
    pose proof (proj1 (Z.log2_lt_pow2 (Zpos p) 53 ltac:(lia)) Hp). lia. }
  set (j := 53 - Zpos (digits2_pos p)).
  assert (Hj : 0 <= j <= 52) by lia.
  assert (Hpos : 0 < Zpos p * 2 ^ j)
    by (apply Z.mul_pos_pos; [lia | apply Z.pow_pos_nonneg; lia]).
  set (mz := Z.to_pos (Zpos p * 2 ^ j)).
  assert (Hmz : Zpos mz = Zpos p * 2 ^ j)
    by (subst mz; now rewrite Z2Pos.id).
  assert (Hdz : Zpos (digits2_pos mz) = 53)
    by (rewrite (digits2_shift p mz j); lia).
  assert (Ht : target p 0 = - j)
    by (unfold target, fexp, emin; lia).
  exists mz, (- j).
  split; [|split; [lia | split; [now rewrite Z.opp_involutive | exact Hdz]]].
  rewrite (binary_round_written s p 0 j mz) by lia.
  replace (0 - j) with (- j) by lia.
  unfold binary_round_aux, shr_fexp. cbn [shr_record_of_loc Zdigits2].
  rewrite Hdz.
  replace (fexp 53 1024 (53 + - j) - - j) with 0
    by (unfold fexp, emin; lia).
  cbn [shr shr_m loc_of_shr_record round_nearest_even Zdigits2
         shr_record_of_loc].
  rewrite Hdz.
  replace (fexp 53 1024 (53 + - j) - - j) with 0
    by (unfold fexp, emin; lia).
  cbn [shr shr_m].
  destruct (- j <=? 1024 - 53) eqn:E; [reflexivity | lia].
Qed.

(** The float of an integer of magnitude below [2 ^ 53]. *)
Lemma of_int_small n :
  Z.abs n < 2 ^ 53 -> n <> 0 ->
  exists m e,
    of_int n = S754_finite (n <? 0) m e
    /\ -52 <= e <= 0
    /\ Zpos m = Z.abs n * 2 ^ (- e)
    /\ Zpos (digits2_pos m) = 53.
Proof.
  intros Hn Hne. unfold of_int.
  destruct n as [|p|p]; [congruence | |]; cbn [binary_normalize Z.abs] in *;
    [change (Zpos p <? 0) with false | change (Zneg p <? 0) with true];
    apply binary_round_small; assumption.
Qed.

Lemma binary_round_opp s m e :
  binary_round 53 1024 (negb s) m e = SFopp (binary_round 53 1024 s m e).
Proof.
  unfold binary_round. destruct (shl_align _ _ _) as [mz ez].
  unfold binary_round_aux. destruct (shr_fexp _ _ _ _ _) as [mrs' e'].
  destruct (shr_fexp _ _ _ _ _) as [mrs'' e''].
  destruct (shr_m mrs''); [reflexivity | | reflexivity].
  destruct (_ <=? _); reflexivity.
Qed.

Lemma of_int_opp n : n <> 0 -> of_int (- n) = SFopp (of_int n).
Proof.
  intros Hne. unfold of_int.
  destruct n as [|p|p]; [congruence | |]; cbn [binary_normalize Z.opp].
  - exact (binary_round_opp false p 0).
  - exact (binary_round_opp true p 0).
Qed.

Lemma shl_align_fst m e ez :
  ez <= e -> Zpos (fst (shl_align m e ez)) = Zpos m * 2 ^ (e - ez).
Proof.
  intros H. unfold shl_align. destruct (ez - e) as [|d|d] eqn:E; [|lia|].
  - cbn [fst]. replace (e - ez) with 0 by lia. lia.
  - cbn [fst]. rewrite iter_xO. f_equal. f_equal. lia.
Qed.

(** The mantissa of the float of [n], with its sign and moved to the
    exponent [ez], is [n] moved by as much. *)
Lemma aligned_mantissa n m e ez :
  -52 <= e <= 0 -> ez <= e ->
  Zpos m = Z.abs n * 2 ^ (- e) ->
  cond_Zopp (n <? 0) (Zpos (fst (shl_align m e ez))) = n * 2 ^ (- ez).
Proof.
  intros He Hez Hm. rewrite shl_align_fst, Hm by assumption.
  rewrite <- Z.mul_assoc, <- Z.pow_add_r by lia.
  replace (- e + (e - ez)) with (- ez) by lia.
  pose proof (Z.pow_pos_nonneg 2 (- ez) ltac:(lia) ltac:(lia)).
  destruct (n <? 0) eqn:E; cbn [cond_Zopp]; nia.
Qed.

Lemma SFadd_of_int a b :
  Z.abs a < 2 ^ 53 -> Z.abs b < 2 ^ 53 ->
  SFadd 53 1024 (of_int a) (of_int b) = of_int (a + b).
Proof.
  intros Ha Hb.
  destruct (Z.eq_dec a 0) as [->|Hane].
  { change (of_int 0) with (S754_zero false). cbn [Z.add].
    destruct (Z.eq_dec b 0) as [->|Hbne]; [reflexivity|].
    destruct (of_int_small b Hb Hbne) as (m & e & -> & _). reflexivity. }
  destruct (of_int_small a Ha Hane) as (ma & ea & Ea & Hea & Hma & _).
  destruct (Z.eq_dec b 0) as [->|Hbne].
  { change (of_int 0) with (S754_zero false). rewrite Z.add_0_r, Ea.
    reflexivity. }
  destruct (of_int_small b Hb Hbne) as (mb & eb & Eb & Heb & Hmb & _).
  rewrite Ea, Eb. cbn [SFadd]. cbv zeta.
  rewrite (aligned_mantissa a ma ea (Z.min ea eb)) by (assumption || lia).
  rewrite (aligned_mantissa b mb eb (Z.min ea eb)) by (assumption || lia).
  rewrite <- Z.mul_add_distr_r.
  replace (Z.min ea eb) with (0 - - Z.min ea eb) at 2 by lia.
  apply binary_normalize_shift. lia.
Qed.

Lemma SFsub_of_int a b :
  Z.abs a < 2 ^ 53 -> Z.abs b < 2 ^ 53 ->
  SFsub 53 1024 (of_int a) (of_int b) = of_int (a - b).
Proof.
  intros Ha Hb.
  destruct (Z.eq_dec b 0) as [->|Hbne].
  { change (of_int 0) with (S754_zero false). rewrite Z.sub_0_r.
    destruct (Z.eq_dec a 0) as [->|Hane]; [reflexivity|].
    destruct (of_int_small a Ha Hane) as (m & e & -> & _). reflexivity. }
  destruct (of_int_small b Hb Hbne) as (mb & eb & Eb & Heb & Hmb & _).
  destruct (Z.eq_dec a 0) as [->|Hane].
  { change (of_int 0) with (S754_zero false).
    change (0 - b) with (- b). rewrite (of_int_opp b Hbne), Eb.
    reflexivity. }
  destruct (of_int_small a Ha Hane) as (ma & ea & Ea & Hea & Hma & _).
  rewrite Ea, Eb. cbn [SFsub]. cbv zeta.
  rewrite (aligned_mantissa a ma ea (Z.min ea eb)) by (assumption || lia).
  rewrite (aligned_mantissa b mb eb (Z.min ea eb)) by (assumption || lia).
  rewrite <- Z.mul_sub_distr_r.
  replace (Z.min ea eb) with (0 - - Z.min ea eb) at 2 by lia.
  apply binary_normalize_shift. lia.
Qed.

Lemma SFmul_of_int a b :
  Z.abs a < 2 ^ 53 -> Z.abs b < 2 ^ 53 -> a * b <> 0 ->
  SFmul 53 1024 (of_int a) (of_int b) = of_int (a * b).
Proof.
  intros Ha Hb Hab.
  assert (Hane : a <> 0) by lia. assert (Hbne : b <> 0) by lia.
  destruct (of_int_small a Ha Hane) as (ma & ea & Ea & Hea & Hma & Hda).
  destruct (of_int_small b Hb Hbne) as (mb & eb & Eb & Heb & Hmb & _).
  rewrite Ea, Eb. cbn [SFmul].
  assert (Hc : ea + eb <= target (ma * mb) (ea + eb)).
  { unfold target, fexp. rewrite digits2_pos_log2.
    rewrite digits2_pos_log2 in Hda.
    pose proof (Z.log2_spec (Zpos ma) ltac:(lia)) as [Hlo _].
    replace (Z.log2 (Zpos ma)) with 52 in Hlo by lia.
    assert (H52 : 52 <= Z.log2 (Zpos (ma * mb)))
      by (apply Z.log2_le_pow2; [lia | rewrite Pos2Z.inj_mul; nia]).
    lia. }
  rewrite <- (binary_round_aligned _ _ _ Hc).
  assert (Hval : Zpos (ma * mb) = Z.abs (a * b) * 2 ^ (- (ea + eb))).
  { rewrite Pos2Z.inj_mul, Hma, Hmb, Z.abs_mul.
    replace (- (ea + eb)) with (- ea + - eb) by lia.
    rewrite Z.pow_add_r by lia. ring. }
  assert (Hs : xorb (a <? 0) (b <? 0) = (a * b <? 0)).
  { destruct a as [|pa|pa], b as [|pb|pb]; try congruence; reflexivity. }
  rewrite Hs. unfold of_int.
  replace (ea + eb) with (0 - - (ea + eb)) by lia.
  destruct (a * b) as [|p|p] eqn:E; [congruence | |];
    cbn [binary_normalize Z.abs] in *;
    [change (Zpos p <? 0) with false | change (Zneg p <? 0) with true];
    apply binary_round_shift; (lia || assumption).
Qed.

Lemma SFmul_of_int_zero a b :
  Z.abs a < 2 ^ 53 -> Z.abs b < 2 ^ 53 -> a * b = 0 ->
  exists s, SFmul 53 1024 (of_int a) (of_int b) = S754_zero s.
Proof.
  intros Ha Hb Hab.
  destruct (Z.eq_dec a 0) as [->|Hane].
  - change (of_int 0) with (S754_zero false).
    destruct (Z.eq_dec b 0) as [->|Hbne]; [now eexists|].
    destruct (of_int_small b Hb Hbne) as (m & e & -> & _). now eexists.
  - assert (b = 0) by nia. subst b.
    change (of_int 0) with (S754_zero false).
    destruct (of_int_small a Ha Hane) as (m & e & -> & _). now eexists.
Qed.

(** The float of an integer of magnitude at most [2 ^ 53] is that
    integer. *)
Lemma to_Z_of_int n : Z.abs n <= 2 ^ 53 -> to_Z (of_int n) = Some n.
Proof.
  intros Hn.
  destruct (Z.eq_dec (Z.abs n) (2 ^ 53)) as [E|E].
  { assert (H : n = 2 ^ 53 \/ n = - 2 ^ 53) by lia.
    destruct H as [-> | ->]; reflexivity. }
  destruct (Z.eq_dec n 0) as [->|Hne]; [reflexivity|].
  destruct (of_int_small n ltac:(lia) Hne) as (m & e & -> & He & Hm & _).
  unfold to_Z. destruct (0 <=? e) eqn:E0.
  - assert (e = 0) by lia. subst e. f_equal.
    rewrite Hm. destruct (n <? 0) eqn:Es; cbn [cond_Zopp]; simpl (2 ^ _); lia.
  - pose proof (Z.pow_pos_nonneg 2 (- e) ltac:(lia) ltac:(lia)) as Hp.
    rewrite Hm, Z.mod_mul, Z.eqb_refl, Z.div_mul by lia.
    f_equal. destruct (n <? 0) eqn:Es; cbn [cond_Zopp]; lia.
Qed.

End FloatProofs.

Module CalcArithmetic.
Import Calc CalcSpec.



End CalcArithmetic.
